(** * Offscreen audio pipeline: resampler, framer, transport session and
      transcript reconciler

    A shallow embedding of the offscreen document of the extension
    (the script that captures tab audio, streams PCM to the recognition
    backend and relays transcripts), followed by the properties its
    design document states about it.

    Conventions of the embedding.
    - JavaScript numbers that hold sizes, offsets and counters are
      integers, modelled in [Z].
    - Audio samples and sample rates are modelled as exact rationals
      ([Q]): arithmetic on them is exact (IEEE rounding and the
      non-finite values are outside the model), and [Q]'s division by
      zero is not JavaScript's, which is why every theorem about the
      resampler in [Resampler] assumes positive rates.
    - The resampler is given a second time, in [Binary64], over
      binary64 numbers with the IEEE operations and with binary32
      stores, which is the arithmetic the script runs in; the length
      and the values of its result are stated for this one.
    - An [ArrayBuffer] or typed array over bytes is a [list byte]; a
      [Float32Array] is a [list Q], in [Binary64] a list of numbers.
    - A JavaScript object used as a counter table is an association list
      in the order in which its keys were created; [Object.keys] lists
      the keys that are array indices first, in numeric order, then the
      others in that order.
    - A parsed JSON message is a record with optional fields; speaker
      tags are integers and language tags are strings.
    - A function that can throw returns a [completion]. *)

From Stdlib Require Import String Ascii Bool ZArith QArith Qround Lia Lqa List.
From Stdlib Require Import DecimalString DecimalPos DecimalZ.
From Stdlib Require Import SpecFloat Qpower.
From coqutil Require Import Byte Word.LittleEndianList.
From Equations Require Import Equations.
From Equations.Prop Require Import Logic.
Import ListNotations.

Set Default Proof Using "Type".
Local Open Scope Z_scope.

(** ** A small JavaScript prelude *)

Module JS.

Inductive completion (A : Type) : Type :=
| Normal (a : A)
| Throw (error : string).
Arguments Normal {A} a.
Arguments Throw {A} error.

Definition bind {A B} (c : completion A) (k : A -> completion B) : completion B :=
  match c with
  | Normal a => k a
  | Throw e => Throw e
  end.

(** [arr.length] / [buf.byteLength]. *)
Definition len {A} (l : list A) : Z := Z.of_nat (length l).

(** [Math.round]: nearest integer, ties towards plus infinity. *)
Definition Math_round (x : Q) : Z := Qfloor (x + (1 # 2)).

Definition Math_min (x y : Q) : Q := if Qle_bool x y then x else y.
Definition Math_max (x y : Q) : Q := if Qle_bool x y then y else x.

(** [x < y] on numbers. *)
Definition Qlt_bool (x y : Q) : bool := negb (Qle_bool y x).

(** Truncation towards zero, the first step of [ToInt16]. *)
Definition Qtrunc (x : Q) : Z := Z.quot (Qnum x) (Zpos (Qden x)).

(** [ToInt16]: truncate, reduce modulo 2^16, read as two's complement. *)
Definition ToInt16 (x : Q) : Z :=
  let int16bit := Qtrunc x mod 65536 in
  if int16bit >=? 32768 then int16bit - 65536 else int16bit.

(** [arr[i]] on a typed array of numbers, for [i] within bounds (the
    code tests every index it reads against the length first). *)
Definition get (arr : list Q) (i : Z) : Q := nth (Z.to_nat i) arr 0%Q.

(** [arr[i] = v] on a typed array: a write outside the array is ignored. *)
Definition set {A} (arr : list A) (i : Z) (v : A) : list A :=
  if (0 <=? i) && (i <? len arr)
  then firstn (Z.to_nat i) arr ++ v :: skipn (S (Z.to_nat i)) arr
  else arr.

(** [new Float32Array(n)]: [n] zeros, a RangeError for a negative [n]. *)
Definition Float32Array_new (n : Z) : completion (list Q) :=
  if n <? 0 then Throw "RangeError: Invalid typed array length"
  else Normal (repeat 0%Q (Z.to_nat n)).

(** [new ArrayBuffer(n)] and [new Uint8Array(n)]: [n] zero bytes. *)
Definition zeros (n : Z) : list byte := repeat Byte.x00 (Z.to_nat n).

(** [typed.subarray(b, e)] / [buffer.slice(b, e)] for [0 <= b <= e]. *)
Definition subarray {A} (arr : list A) (b e : Z) : list A :=
  firstn (Z.to_nat (e - b)) (skipn (Z.to_nat b) arr).

(** [out.set(src, offset)]: copies [src] into [out] at [offset]; a
    RangeError when [src] does not fit. *)
Definition Uint8Array_set (out src : list byte) (offset : Z) : completion (list byte) :=
  if (offset <? 0) || (len out <? offset + len src)
  then Throw "RangeError: offset is out of bounds"
  else Normal (firstn (Z.to_nat offset) out ++ src
               ++ skipn (Z.to_nat (offset + len src)) out).

(** [view.setInt16(offset, value, true)]: the two bytes of
    [ToInt16 value], least significant first; a RangeError when the
    two bytes do not fit in the buffer. *)
Definition setInt16 (buffer : list byte) (offset : Z) (value : Q) : completion (list byte) :=
  Uint8Array_set buffer (le_split 2 (ToInt16 value)) offset.

(** [view.getInt16(offset, true)], the reading counterpart, used to
    state what the bytes written by [setInt16] denote. *)
Definition getInt16 (buffer : list byte) (offset : Z) : Z :=
  let u := le_combine (subarray buffer offset (offset + 2)) in
  if u >=? 32768 then u - 65536 else u.

(** Template-literal rendering of an integer. *)
Definition string_of_Z (z : Z) : string := NilZero.string_of_int (Z.to_int z).

End JS.
Import JS.

Notation "x <- c ;; k" := (JS.bind c (fun x => k))
  (at level 61, c at next level, right associativity).

(** ** Resampler / framer: [downsampleBuffer] and [floatTo16BitPCM] *)

Module Resampler.

(** The inner [for] loop of [downsampleBuffer]: adds up the samples
    [buffer[i]] for [i] from its start while
    [i < nextOffsetBuffer && i < buffer.length]. *)
Equations? accumulate (buffer : list Q) (nextOffsetBuffer : Z)
           (i : Z) (accum : Q) (count : Z) : Q * Z
  by wf (Z.to_nat (nextOffsetBuffer - i)) lt :=
  accumulate buffer nextOffsetBuffer i accum count
    with Z_lt_dec i nextOffsetBuffer, Z_lt_dec i (len buffer) => {
    | left _, left _ :=
        accumulate buffer nextOffsetBuffer (i + 1)
                   (accum + get buffer i)%Q (count + 1);
    | _, _ := (accum, count) }.
Proof. lia. Qed.

(** The [while (offsetResult < result.length)] loop. *)
Equations? downsample_loop (buffer : list Q) (sampleRateRatio : Q)
           (offsetResult offsetBuffer : Z) (result : list Q) : list Q
  by wf (Z.to_nat (len result - offsetResult)) lt :=
  downsample_loop buffer sampleRateRatio offsetResult offsetBuffer result
    with Z_lt_dec offsetResult (len result) => {
    | left _ :=
        let nextOffsetBuffer :=
          Math_round (inject_Z (offsetResult + 1) * sampleRateRatio) in
        let '(accum, count) :=
          accumulate buffer nextOffsetBuffer offsetBuffer 0%Q 0 in
        downsample_loop buffer sampleRateRatio (offsetResult + 1) nextOffsetBuffer
          (set result offsetResult
               (accum / inject_Z (if count =? 0 then 1 else count))%Q);
    | right _ := result }.
Proof.
  assert (len (set result offsetResult
    (accum / inject_Z (if count =? 0 then 1 else count))%Q) = len result) as ->; [|lia].
  unfold set, len in *.
  destruct ((0 <=? offsetResult) && (offsetResult <? Z.of_nat (length result))) eqn:E;
    [|reflexivity].
  apply andb_prop in E as [E1 E2].
  apply Z.leb_le in E1. apply Z.ltb_lt in E2.
  rewrite length_app. cbn [length]. rewrite length_firstn, length_skipn. lia.
Qed.

Definition downsampleBuffer (buffer : list Q) (sampleRate outSampleRate : Q)
  : completion (list Q) :=
  if Qeq_bool outSampleRate sampleRate then Normal buffer
  else if Qlt_bool sampleRate outSampleRate
  then Throw "Downsampling rate should be smaller than original"
  else
    let sampleRateRatio := (sampleRate / outSampleRate)%Q in
    let newLength := Math_round (inject_Z (len buffer) / sampleRateRatio) in
    result <- Float32Array_new newLength ;;
    Normal (downsample_loop buffer sampleRateRatio 0 0 result).

(** The [for] loop of [floatTo16BitPCM]. *)
Equations? floatTo16BitPCM_loop (float32Array : list Q) (i offset : Z)
           (buffer : list byte) : completion (list byte)
  by wf (Z.to_nat (len float32Array - i)) lt :=
  floatTo16BitPCM_loop float32Array i offset buffer
    with Z_lt_dec i (len float32Array) => {
    | left _ :=
        let s := Math_max (-1) (Math_min 1 (get float32Array i)) in
        match setInt16 buffer offset
                (if Qlt_bool s 0 then s * 32768 else s * 32767)%Q with
        | Normal buffer' =>
            floatTo16BitPCM_loop float32Array (i + 1) (offset + 2) buffer'
        | Throw e => Throw e
        end;
    | right _ := Normal buffer }.
Proof. lia. Qed.

Definition floatTo16BitPCM (float32Array : list Q) : completion (list byte) :=
  floatTo16BitPCM_loop float32Array 0 0 (zeros (len float32Array * 2)).

End Resampler.
Import Resampler.


(** ** The offscreen document: global state, chunker, transport session *)

Module Offscreen.

Inductive ReadyState := CONNECTING | OPEN | CLOSING | CLOSED.
Inductive Mode := pcm | opus.

(** A word of a recognition result: [word.speaker] and [word.language],
    [None] when the property is absent. *)
Record Word := { speaker : option Z; language : option string }.

(** [msg.channel.alternatives[0]]. [languages] is [None] unless the
    property is present and an array. *)
Record Alternative := {
  transcript : option string;
  words : option (list Word);
  languages : option (list string) }.

(** A parsed inbound message; [alternatives] is empty when
    [msg.channel?.alternatives?.[0]] is absent, and [is_final] holds
    [msg.is_final === true]. *)
Record Message := {
  type : option string;
  alternatives : list Alternative;
  is_final : bool;
  message : option string;
  reason : option string }.

(** The record handed to [bgPort.postMessage]. *)
Record Utterance := {
  post_type : string;
  post_text : string;
  post_speaker : string;
  post_language : string;
  post_detectedLanguages : list string;
  post_words : option (list Word) }.

(** What the script does to the outside world, in order. *)
Inductive Effect :=
| WebSocket_new (m : Mode)            (* new WebSocket(url, ...) with that encoding *)
| ws_close                            (* ws.close() *)
| ws_send (data : list byte)          (* ws.send(binary frame) *)
| ws_send_KeepAlive                   (* ws.send('{"type":"KeepAlive"}') *)
| STATUS_UPDATE (text : string)       (* postStatus(text) *)
| runtime_connect                     (* chrome.runtime.connect(...) *)
| bgPort_postMessage (u : Utterance)
| mediaRecorder_stop
| mediaRecorder_start (timeslice : Z).

(** The script's globals, the two facts of the environment its handlers
    read ([audioContext.sampleRate], [MediaRecorder.isTypeSupported]) and
    the trace of its effects. [ws] is [None] for [null], otherwise the
    [readyState] of the current socket. *)
Record World := {
  ws : option ReadyState;
  bgPort : bool;
  keepAliveTimer : bool;
  triedOpusFallback : bool;
  currentMode : Mode;
  mediaRecorder : bool;
  pcmQueue : list (list byte);
  pcmBytesPending : Z;
  sampleRate : Q;
  opusSupported : bool;
  trace : list Effect }.

Definition TARGET_SAMPLE_RATE : Q := 16000.
Definition PCM_TARGET_CHUNK_BYTES : Z := 3200.

Definition set_ws v w :=
  Build_World v (bgPort w) (keepAliveTimer w) (triedOpusFallback w) (currentMode w)
    (mediaRecorder w) (pcmQueue w) (pcmBytesPending w) (sampleRate w) (opusSupported w) (trace w).
Definition set_bgPort v w :=
  Build_World (ws w) v (keepAliveTimer w) (triedOpusFallback w) (currentMode w)
    (mediaRecorder w) (pcmQueue w) (pcmBytesPending w) (sampleRate w) (opusSupported w) (trace w).
Definition set_keepAliveTimer v w :=
  Build_World (ws w) (bgPort w) v (triedOpusFallback w) (currentMode w)
    (mediaRecorder w) (pcmQueue w) (pcmBytesPending w) (sampleRate w) (opusSupported w) (trace w).
Definition set_triedOpusFallback v w :=
  Build_World (ws w) (bgPort w) (keepAliveTimer w) v (currentMode w)
    (mediaRecorder w) (pcmQueue w) (pcmBytesPending w) (sampleRate w) (opusSupported w) (trace w).
Definition set_currentMode v w :=
  Build_World (ws w) (bgPort w) (keepAliveTimer w) (triedOpusFallback w) v
    (mediaRecorder w) (pcmQueue w) (pcmBytesPending w) (sampleRate w) (opusSupported w) (trace w).
Definition set_mediaRecorder v w :=
  Build_World (ws w) (bgPort w) (keepAliveTimer w) (triedOpusFallback w) (currentMode w)
    v (pcmQueue w) (pcmBytesPending w) (sampleRate w) (opusSupported w) (trace w).
Definition set_pcmQueue v w :=
  Build_World (ws w) (bgPort w) (keepAliveTimer w) (triedOpusFallback w) (currentMode w)
    (mediaRecorder w) v (pcmBytesPending w) (sampleRate w) (opusSupported w) (trace w).
Definition set_pcmBytesPending v w :=
  Build_World (ws w) (bgPort w) (keepAliveTimer w) (triedOpusFallback w) (currentMode w)
    (mediaRecorder w) (pcmQueue w) v (sampleRate w) (opusSupported w) (trace w).
Definition emit (e : Effect) w :=
  Build_World (ws w) (bgPort w) (keepAliveTimer w) (triedOpusFallback w) (currentMode w)
    (mediaRecorder w) (pcmQueue w) (pcmBytesPending w) (sampleRate w) (opusSupported w)
    (trace w ++ [e]).

(** The state a freshly loaded script starts from, in an environment
    with the given capture rate and recorder support. *)
Definition initial (rate : Q) (supported : bool) : World :=
  Build_World None false false false pcm false [] 0 rate supported [].

(** How a handler run ends: it returns, or an exception leaves it with
    the globals as they are at that point. *)
Inductive outcome :=
| Returned (w : World)
| Thrown (error : string) (w : World).

Definition world_of (o : outcome) : World :=
  match o with Returned w => w | Thrown _ w => w end.

Definition is_open (w : World) : bool :=
  match ws w with Some OPEN => true | _ => false end.

Definition connectBg (w : World) : World :=
  if bgPort w then w else set_bgPort true (emit runtime_connect w).

Definition postStatus (text : string) (w : World) : World :=
  emit (STATUS_UPDATE text) w.

(** *** The chunker *)

(** Termination measure of the inner loop: every round either drops the
    head range or shortens it. *)
Fixpoint queue_weight (q : list (list byte)) : nat :=
  match q with
  | [] => 0
  | b :: q' => S (List.length b + queue_weight q')
  end.

(** The inner loop of [enqueuePcm],
    [while (toSend > 0 && pcmQueue.length)]: moves bytes from the head
    of the queue ([head'] stands for the source's [head]) into [out].
    Returns [out] (or the exception) and the queue it leaves. *)
Equations? fill_chunk (toSend offset : Z) (out : list byte)
           (pcmQueue : list (list byte))
  : completion (list byte) * list (list byte)
  by wf (queue_weight pcmQueue) lt :=
  fill_chunk toSend offset out [] := (Normal out, []);
  fill_chunk toSend offset out (head' :: rest) with Z_gt_dec toSend 0 => {
    | right _ := (Normal out, head' :: rest);
    | left _
        with Uint8Array_set out (subarray head' 0 (Z.min toSend (len head'))) offset => {
      | Throw e := (Throw e, head' :: rest);
      | Normal out'
          with Z_lt_dec (Z.min toSend (len head')) (len head') => {
        | left _ :=
            fill_chunk (toSend - Z.min toSend (len head'))
                       (offset + Z.min toSend (len head')) out'
                       (subarray head' (Z.min toSend (len head')) (len head') :: rest);
        | right _ :=
            fill_chunk (toSend - Z.min toSend (len head'))
                       (offset + Z.min toSend (len head')) out' rest } } }.
Proof.
  - unfold subarray, len in *. cbn [queue_weight].
    rewrite length_firstn, length_skipn. lia.
  - cbn [queue_weight]. lia.
Qed.

(** [try { if (ws && ws.readyState === WebSocket.OPEN) ws.send(data); } catch {}] *)
Definition send_if_open (data : list byte) (w : World) : World :=
  if is_open w then emit (ws_send data) w else w.

(** One round of the outer loop of [enqueuePcm]: fill a chunk from the
    queue, account for it and send it. *)
Definition send_chunk (w : World) : outcome :=
  let toSend := PCM_TARGET_CHUNK_BYTES in
  let out := zeros PCM_TARGET_CHUNK_BYTES in
  let offset := 0 in
  match fill_chunk toSend offset out (pcmQueue w) with
  | (Throw e, q) => Thrown e (set_pcmQueue q w)
  | (Normal out, q) =>
      let w := set_pcmQueue q w in
      let w := set_pcmBytesPending (pcmBytesPending w - PCM_TARGET_CHUNK_BYTES) w in
      Returned (send_if_open out w)
  end.

(** The outer loop of [enqueuePcm],
    [while (pcmBytesPending >= PCM_TARGET_CHUNK_BYTES)]. *)
Equations? drain (w : World) : outcome
  by wf (Z.to_nat (pcmBytesPending w)) lt :=
  drain w with Z_ge_dec (pcmBytesPending w) PCM_TARGET_CHUNK_BYTES => {
    | right _ := Returned w;
    | left _ with inspect (send_chunk w) => {
      | exist _ (Thrown e w') _ := Thrown e w';
      | exist _ (Returned w') E := drain w' } }.
Proof.
  unfold send_chunk, send_if_open, PCM_TARGET_CHUNK_BYTES in *. cbv zeta in E.
  destruct (fill_chunk _ _ _ _) as [[out|e] q]; [|discriminate].
  injection E as <-. destruct (is_open _); cbn; lia.
Qed.

Definition enqueuePcm (arrayBuffer : list byte) (w : World) : outcome :=
  let w := set_pcmQueue (pcmQueue w ++ [arrayBuffer]) w in
  let w := set_pcmBytesPending (pcmBytesPending w + len arrayBuffer) w in
  drain w.

(** *** The worklet handler, [processorNode.port.onmessage] *)

Definition worklet_onmessage (input : option (list Q)) (w : World) : outcome :=
  match input with
  | None => Returned w
  | Some input =>
      if negb (is_open w) then Returned w
      else match currentMode w with
           | opus => Returned w
           | pcm =>
               match downsampleBuffer input (sampleRate w) TARGET_SAMPLE_RATE with
               | Throw e => Thrown e w
               | Normal down =>
                   match floatTo16BitPCM down with
                   | Throw e => Thrown e w
                   | Normal pcmBuffer => enqueuePcm pcmBuffer w
                   end
               end
           end
  end.

(** *** Objects used as counter tables *)

Definition object := list (string * Z).

(** [o[k]], [None] for [undefined]. *)
Fixpoint object_get (o : object) (k : string) : option Z :=
  match o with
  | [] => None
  | (k', v) :: o' => if String.eqb k k' then Some v else object_get o' k
  end.

(** [o[k] = v]: an existing key keeps its place, a new key goes last. *)
Fixpoint object_set (o : object) (k : string) (v : Z) : object :=
  match o with
  | [] => [(k, v)]
  | (k', v') :: o' =>
      if String.eqb k k' then (k', v) :: o' else (k', v') :: object_set o' k v
  end.

(** The keys of an object in the order in which they were created. *)
Definition own_keys (o : object) : list string := map fst o.

Definition is_digit (c : ascii) : bool :=
  let n := nat_of_ascii c in (48 <=? n)%nat && (n <=? 57)%nat.

Fixpoint all_digits (s : string) : bool :=
  match s with
  | EmptyString => true
  | String c s' => is_digit c && all_digits s'
  end.

Fixpoint digits_value (acc : Z) (s : string) : Z :=
  match s with
  | EmptyString => acc
  | String c s' => digits_value (10 * acc + (Z.of_nat (nat_of_ascii c) - 48)) s'
  end.

(** The number a key denotes when it is an array index: a canonical
    decimal numeral (no leading zero) of value at most 2^32 - 2. *)
Definition array_index (s : string) : option Z :=
  match s with
  | EmptyString => None
  | String c s' =>
      if all_digits s && (negb (Ascii.eqb c "0") || String.eqb s' "")
      then let n := digits_value 0 s in
           if n <=? 4294967294 then Some n else None
      else None
  end.

Definition index_value (s : string) : Z :=
  match array_index s with Some n => n | None => 0 end.

Fixpoint insert_index (k : string) (sorted : list string) : list string :=
  match sorted with
  | [] => [k]
  | k' :: rest =>
      if index_value k <=? index_value k' then k :: sorted
      else k' :: insert_index k rest
  end.

(** [Object.keys(o)]: the keys that are array indices in ascending
    numeric order, then the other keys in the order of their creation. *)
Definition Object_keys (o : object) : list string :=
  let is_index := fun k => match array_index k with Some _ => true | None => false end in
  fold_right insert_index [] (filter is_index (own_keys o))
  ++ filter (fun k => negb (is_index k)) (own_keys o).

(** [(o[k] || 0) + 1] *)
Definition increment (o : object) (k : string) : object :=
  object_set o k
    (match object_get o k with
     | Some n => if n =? 0 then 0 else n
     | None => 0
     end + 1).

(** [o[a] > o[b]]: false as soon as one side is [undefined]. *)
Definition count_gt (o : object) (a b : option string) : bool :=
  match a, b with
  | Some a, Some b =>
      match object_get o a, object_get o b with
      | Some x, Some y => x >? y
      | _, _ => false
      end
  | _, _ => false
  end.

(** A string in a condition: the empty string is falsy. *)
Definition truthy (s : string) : bool := negb (String.eqb s "").

(** [a || b] on an optional string. *)
Definition or_else (a : option string) (b : string) : string :=
  match a with
  | Some s => if truthy s then s else b
  | None => b
  end.

(** *** The reconciler, inside [ws.onmessage] *)

Definition speakerCounts (ws : list Word) : object :=
  fold_left
    (fun counts word =>
       match speaker word with
       | Some id => increment counts ("Speaker " ++ string_of_Z id)
       | None => counts
       end) ws [].

(** [Object.keys(speakerCounts).reduce((a, b) => speakerCounts[a] >
    speakerCounts[b] ? a : b, Object.keys(speakerCounts)[0])] *)
Definition dominantSpeaker (counts : object) : option string :=
  fold_left (fun a b => if count_gt counts a (Some b) then a else Some b)
            (Object_keys counts) (hd_error (Object_keys counts)).

Definition resolve_speaker (alt : Alternative) : string :=
  let speaker := "Unknown Speaker"%string in
  match words alt with
  | Some (word :: ws) =>
      match dominantSpeaker (speakerCounts (word :: ws)) with
      | Some d => if truthy d then d else speaker
      | None => speaker
      end
  | _ => speaker
  end.

Definition languageCounts (ws : list Word) : object :=
  fold_left
    (fun counts word =>
       match language word with
       | Some l => if truthy l then increment counts l else counts
       | None => counts
       end) ws [].

(** [Object.keys(languageCounts).reduce((a, b) => languageCounts[a] >
    languageCounts[b] ? a : b)], on a table with at least one key. *)
Definition reduce_language (counts : object) (first : string) (others : list string)
  : string :=
  fold_left (fun a b => if count_gt counts (Some a) (Some b) then a else b)
            others first.

(** The pair [(detectedLanguages, dominantLanguage)]. *)
Definition resolve_language (alt : Alternative) : list string * string :=
  let detectedLanguages := [] in
  let dominantLanguage := "en"%string in
  let '(detectedLanguages, dominantLanguage) :=
    match languages alt with
    | Some ls => (ls, or_else (hd_error ls) "en")
    | None => (detectedLanguages, dominantLanguage)
    end in
  let dominantLanguage :=
    match words alt with
    | Some (word :: ws) =>
        let counts := languageCounts (word :: ws) in
        match Object_keys counts with
        | first :: others => reduce_language counts first others
        | [] => dominantLanguage
        end
    | _ => dominantLanguage
    end in
  (detectedLanguages, dominantLanguage).

Definition toLowerCase_ascii (c : ascii) : ascii :=
  let n := nat_of_ascii c in
  if (65 <=? n)%nat && (n <=? 90)%nat then ascii_of_nat (n + 32) else c.

(** [s.toLowerCase()], on ASCII letters. *)
Fixpoint toLowerCase (s : string) : string :=
  match s with
  | EmptyString => EmptyString
  | String c s' => String (toLowerCase_ascii c) (toLowerCase s')
  end.

(** [s.includes(sub)] *)
Definition includes (s sub : string) : bool :=
  match String.index 0 sub s with Some _ => true | None => false end.

(** [msg.type === 'Results'] *)
Definition is_Results (msg : Message) : bool :=
  match type msg with Some t => String.eqb t "Results" | None => false end.

(** [ws.onmessage]; [data] is [None] when [JSON.parse] throws. *)
Definition ws_onmessage (data : option Message) (w : World) : World :=
  match data with
  | None => w
  | Some msg =>
      match (if is_Results msg then hd_error (alternatives msg) else None) with
      | Some alt =>
          let text := or_else (transcript alt) "" in
          if negb (truthy text) then w
          else
            let speaker := resolve_speaker alt in
            let '(detectedLanguages, dominantLanguage) := resolve_language alt in
            let isFinal := is_final msg in
            let w := connectBg w in
            if bgPort w then
              emit (bgPort_postMessage
                      {| post_type := if isFinal then "DG_TRANSCRIPT_FINAL"
                                      else "DG_TRANSCRIPT_INTERIM";
                         post_text := text;
                         post_speaker := speaker;
                         post_language := dominantLanguage;
                         post_detectedLanguages := detectedLanguages;
                         post_words := words alt |}) w
            else w
      | None =>
          match type msg with
          | Some t =>
              if truthy t && includes (toLowerCase t) "error"
              then postStatus
                     ("Deepgram error: "
                        ++ or_else (message msg) (or_else (reason msg) t)) w
              else w
          | None => w
          end
      end
  end.

(** *** The transport session *)

(** [openDeepgramPCM]: the primary connection of a capture session. *)
Definition openDeepgramPCM (w : World) : World :=
  set_currentMode pcm (set_ws (Some CONNECTING) (emit (WebSocket_new pcm) w)).

Definition ws_onopen (w : World) : World :=
  set_keepAliveTimer true (postStatus "Connected to Deepgram" w).

(** The callback of [setInterval(..., 5000)]. *)
Definition keepAlive_tick (w : World) : World :=
  if is_open w then emit ws_send_KeepAlive w else w.

Definition ws_onerror (w : World) : World :=
  postStatus "Deepgram socket error" w.

Definition startOpusFallback (w : World) : World :=
  let w := match ws w with Some _ => emit ws_close w | None => w end in
  let w := set_ws (Some CONNECTING) (emit (WebSocket_new opus) w) in
  let w := set_currentMode opus w in
  if negb (opusSupported w) then postStatus "Opus fallback unsupported" w
  else
    let w := if mediaRecorder w then emit mediaRecorder_stop w else w in
    emit (mediaRecorder_start 250) (set_mediaRecorder true w).

Definition ws_onclose (code : Z) (reason : string) (w : World) : World :=
  let w := if keepAliveTimer w then set_keepAliveTimer false w else w in
  let w := postStatus ("Deepgram socket closed (" ++ string_of_Z code ++ ") "
                         ++ reason) w in
  match currentMode w, triedOpusFallback w with
  | pcm, false => startOpusFallback (set_triedOpusFallback true w)
  | _, _ => w
  end.

(** [stopAll], after its last [await]: the part that touches the
    transport (the audio graph and the media tracks are not modelled). *)
Definition stopAll (w : World) : World :=
  let w := match ws w with Some _ => emit ws_close w | None => w end in
  let w := set_ws None w in
  let w := if keepAliveTimer w then set_keepAliveTimer false w else w in
  if mediaRecorder w then set_mediaRecorder false (emit mediaRecorder_stop w) else w.

(** *** Events in the life of the document *)

(** What can happen: a capture session starts ([OFFSCREEN_START] gets as
    far as [openDeepgramPCM]) or is stopped ([OFFSCREEN_STOP]), the
    browser moves the current socket to another [readyState], or it runs
    one of the handlers. *)
Inductive Event :=
| OFFSCREEN_START
| OFFSCREEN_STOP
| readyState_becomes (r : ReadyState)
| onopen
| onmessage (data : option Message)
| onerror
| onclose (code : Z) (reason : string)
| worklet_message (input : option (list Q))
| keepAlive_interval.

Definition step (w : World) (e : Event) : World :=
  match e with
  | OFFSCREEN_START => openDeepgramPCM w
  | OFFSCREEN_STOP => stopAll w
  | readyState_becomes r =>
      match ws w with Some _ => set_ws (Some r) w | None => w end
  | onopen => ws_onopen w
  | onmessage data => ws_onmessage data w
  | onerror => ws_onerror w
  | onclose code reason => ws_onclose code reason w
  | worklet_message input => world_of (worklet_onmessage input w)
  | keepAlive_interval => if keepAliveTimer w then keepAlive_tick w else w
  end.

Definition run (events : list Event) (w : World) : World :=
  fold_left step events w.

(** [enqueuePcm] called on each range in turn. *)
Fixpoint enqueue_all (ranges : list (list byte)) (w : World) : outcome :=
  match ranges with
  | [] => Returned w
  | r :: ranges' =>
      match enqueuePcm r w with
      | Returned w' => enqueue_all ranges' w'
      | Thrown e w' => Thrown e w'
      end
  end.

(** The number of connections opened in fallback (opus) mode. *)
Definition fallback_connections (t : list Effect) : nat :=
  List.length (filter (fun e => match e with WebSocket_new opus => true | _ => false end) t).

End Offscreen.

Import Offscreen.

(** ** Vocabulary of the design document *)

Module Spec.

Definition sum (l : list Q) : Q := fold_right Qplus 0%Q l.

(** The arithmetic mean of a non-empty block of samples. *)
Definition mean (l : list Q) : Q := (sum l / inject_Z (len l))%Q.

(** The source samples whose index [j] satisfies [lo <= j < hi]. *)
Definition window (buffer : list Q) (lo hi : Z) : list Q := subarray buffer lo hi.


(** Clamping to [-1, 1]. *)
Definition clamp (x : Q) : Q :=
  if Qle_bool 1 x then 1%Q else if Qle_bool (-1) x then x else (-1)%Q.

(** Scaling of a clamped sample: negative values by 32768, the others
    by 32767. *)
Definition scale (s : Q) : Q :=
  if Qlt_bool s 0 then (s * 32768)%Q else (s * 32767)%Q.

(** The integer a sample is converted to. *)
Definition pcm16 (x : Q) : Z := Qtrunc (scale (clamp x)).

(** The sum of the byte lengths of the queued ranges. *)
Definition queued_bytes (q : list (list byte)) : Z :=
  fold_right (fun range n => len range + n) 0 q.

(** A world whose counter agrees with its queue. *)
Definition consistent (w : World) : Prop :=
  pcmBytesPending w = queued_bytes (pcmQueue w).

(** [src] written over [out] from position [o] on. *)
Definition splice (out src : list byte) (o : nat) : list byte :=
  firstn o out ++ src ++ skipn (o + List.length src) out.

(** Two worlds that differ at most in the pending audio and the trace. *)
Definition same_session (w w' : World) : Prop :=
  ws w' = ws w /\ bgPort w' = bgPort w /\ keepAliveTimer w' = keepAliveTimer w
  /\ triedOpusFallback w' = triedOpusFallback w /\ currentMode w' = currentMode w
  /\ mediaRecorder w' = mediaRecorder w /\ sampleRate w' = sampleRate w
  /\ opusSupported w' = opusSupported w.

(** The label reported for a speaker tag. *)
Definition speaker_label (id : Z) : string := "Speaker " ++ string_of_Z id.

(** The speaker tags of the words that carry one, in order. *)
Definition speaker_tags (ws : list Word) : list Z :=
  flat_map (fun w => match speaker w with Some id => [id] | None => [] end) ws.

(** The language tags of the words that carry one, in order. *)
Definition language_tags (ws : list Word) : list string :=
  flat_map (fun w => match language w with
                     | Some l => if truthy l then [l] else []
                     | None => []
                     end) ws.

(** The words of an alternative, none when the property is absent. *)
Definition words_of (alt : Alternative) : list Word :=
  match words alt with Some ws => ws | None => [] end.

(** The number of occurrences of a tag in a sequence of tags. *)
Definition occurrences (k : string) (tags : list string) : Z :=
  Z.of_nat (count_occ string_dec tags k).

(** [d] has the highest count in [tags], and every other tag with the
    same count is met before [d] is met for the first time: among the
    tags with the highest count, [d] is the one encountered last. *)
Definition last_encountered_max (tags : list string) (d : string) : Prop :=
  exists before after,
    tags = before ++ d :: after
    /\ ~ In d before
    /\ (forall k, occurrences k tags <= occurrences d tags)
    /\ (forall k, k <> d -> occurrences k tags = occurrences d tags -> In k before).

(** The tag the design document names: the first one, in the order of
    encounter, whose count no other tag exceeds. *)
Definition first_encountered_max (tags : list string) : option string :=
  find (fun d => forallb (fun k => occurrences k tags <=? occurrences d tags) tags) tags.

(** The counter table built from a sequence of tags. *)
Definition tally (tags : list string) : object := fold_left increment tags [].

(** Sample recognition results used below. *)
Definition word_of_speaker (id : Z) : Word := {| speaker := Some id; language := None |}.
Definition word_of_language (l : string) : Word := {| speaker := None; language := Some l |}.
Definition alternative_of (ws : option (list Word)) (ls : option (list string))
  : Alternative :=
  {| transcript := Some "hola"%string; words := ws; languages := ls |}.

(** A session whose primary socket has opened, with nothing queued. *)
Definition open_world : World :=
  run [OFFSCREEN_START; readyState_becomes OPEN; onopen] (initial 48000 true).

(** A state with the socket closed and one byte short of a chunk queued. *)
Definition closed_world : World :=
  set_pcmBytesPending 3199
    (set_pcmQueue [repeat Byte.x02 (Z.to_nat 3199)]
       (set_ws (Some CLOSED) (initial 48000 true))).

Definition three_ranges : list (list byte) :=
  [repeat Byte.x01 (Z.to_nat 2000); repeat Byte.x02 (Z.to_nat 1500);
   repeat Byte.x03 (Z.to_nat 3000)].

Definition results_message (alt : Alternative) : Message :=
  {| type := Some "Results"%string; alternatives := [alt];
     is_final := true; message := None; reason := None |}.

End Spec.
Import Spec.

(** ** The content script: speaker detection and transcript grouping *)

Module Content.

(** What the script reads of an entry of [participantTracks]: [ended]
    stands for [trackInfo.track.readyState === 'ended'], [volume] is the
    level last measured (a rational, as the samples are) and
    [lastActivity] a time in milliseconds. *)
Record TrackInfo := {
  ended : bool;
  volume : Q;
  isActive : bool;
  lastActivity : Z }.

(** A [Map] from track ids to track entries, in insertion order. *)
Definition Tracks := list (string * TrackInfo).

(** [map.get(k)], [None] for [undefined]. *)
Fixpoint Map_get (m : Tracks) (k : string) : option TrackInfo :=
  match m with
  | [] => None
  | (k', v) :: m' => if String.eqb k k' then Some v else Map_get m' k
  end.

(** [map.delete(k)] *)
Fixpoint Map_delete (m : Tracks) (k : string) : Tracks :=
  match m with
  | [] => []
  | (k', v) :: m' => if String.eqb k k' then m' else (k', v) :: Map_delete m' k
  end.

(** [Array.from(map.keys())] *)
Definition Map_keys (m : Tracks) : list string := map fst m.

(** [arr.indexOf(x)]: the first position of [x], [-1] when absent. *)
Fixpoint indexOf (arr : list string) (x : string) : Z :=
  match arr with
  | [] => -1
  | y :: arr' =>
      if String.eqb y x then 0
      else let i := indexOf arr' x in if i <? 0 then -1 else i + 1
  end.

(** The globals of the speaker detection. *)
Record Detector := {
  participantTracks : Tracks;
  currentSpeaker : option string }.

(** The loop of [getCurrentSpeaker] that looks for the loudest active
    track; the state is the pair [(maxVolume, loudestSpeaker)]. *)
Definition loudest_step (acc : Q * option string) (entry : string * TrackInfo)
  : Q * option string :=
  let '(maxVolume, loudestSpeaker) := acc in
  let '(trackId, trackInfo) := entry in
  if isActive trackInfo && Qlt_bool maxVolume (volume trackInfo)
  then (volume trackInfo, Some trackId)
  else (maxVolume, loudestSpeaker).

(** [getCurrentSpeaker()], with [now] for [Date.now()]; [None] is
    [null]. The test [participantTracks.has(currentSpeaker)] and the
    [get] that follows it are one lookup. *)
Definition getCurrentSpeaker (now : Z) (d : Detector) : option string :=
  let recent :=
    match currentSpeaker d with
    | Some c =>
        if truthy c then
          match Map_get (participantTracks d) c with
          | Some trackInfo =>
              isActive trackInfo || (now - lastActivity trackInfo <? 2000)
          | None => false
          end
        else false
    | None => false
    end in
  if recent then currentSpeaker d
  else snd (fold_left loudest_step (participantTracks d) (0%Q, None)).

(** [cleanupRemovedTracks()]: the loop visits every entry once, a
    deletion removing the entry that is being visited (closing the
    audio context of a removed track and refreshing the indicator are
    not modelled). *)
Definition cleanupRemovedTracks (d : Detector) : Detector :=
  {| participantTracks :=
       fold_left (fun m entry => if ended (snd entry) then Map_delete m (fst entry) else m)
                 (participantTracks d) (participantTracks d);
     currentSpeaker := currentSpeaker d |}.

(** The speaker shown for a final transcript, lines 718 to 730 of the
    message listener: [msg_speaker] is [msg.speaker], [None] when the
    property is absent. *)
Definition final_speaker (msg_speaker : option string) (now : Z) (d : Detector)
  : string :=
  let speaker := or_else msg_speaker "Speaker" in
  let activeSpeaker := getCurrentSpeaker now d in
  match (match activeSpeaker with
         | Some a => if truthy a then Some a else None
         | None => None
         end) with
  | Some activeSpeaker =>
      let speakerNumber :=
        indexOf (Map_keys (participantTracks d)) activeSpeaker + 1 in
      ("Speaker " ++ string_of_Z speakerNumber)%string
  | None =>
      match msg_speaker with
      | Some s => if truthy s && negb (String.eqb s "Speaker") then s else speaker
      | None => speaker
      end
  end.

(** [msg.language || 'auto'] *)
Definition sourceLanguage (msg_language : option string) : string :=
  or_else msg_language "auto".

(** An element of [translationSegments], as far as the grouping reads it. *)
Record Segment := {
  text : string;
  speaker : string;
  timestamp : Z }.

(** A group of the display; the fields are [speaker], [text] and
    [lastTimestamp] in the source. *)
Record Group := {
  group_speaker : string;
  group_text : string;
  lastTimestamp : Z }.

(** The [for] loop of [groupSegmentsBySpeaker] over the segments from
    index 1 on. *)
Fixpoint group_loop (groups : list Group) (currentGroup : Group)
         (segments : list Segment) : list Group :=
  match segments with
  | [] => groups ++ [currentGroup]
  | segment :: rest =>
      let timeDiff := timestamp segment - lastTimestamp currentGroup in
      if String.eqb (speaker segment) (group_speaker currentGroup) && (timeDiff <? 5000)
      then group_loop groups
             {| group_speaker := group_speaker currentGroup;
                group_text := (group_text currentGroup ++ " " ++ text segment)%string;
                lastTimestamp := timestamp segment |} rest
      else group_loop (groups ++ [currentGroup])
             {| group_speaker := speaker segment;
                group_text := text segment;
                lastTimestamp := timestamp segment |} rest
  end.

Definition groupSegmentsBySpeaker (segments : list Segment) : list Group :=
  match segments with
  | [] => []
  | first :: rest =>
      group_loop []
        {| group_speaker := speaker first;
           group_text := text first;
           lastTimestamp := timestamp first |} rest
  end.

End Content.

(** ** Readings of a trace and of a transcript *)

Module Observed.

(** The binary frames handed to [ws.send], in order. *)
Definition frames (t : list Effect) : list (list byte) :=
  flat_map (fun e => match e with ws_send data => [data] | _ => [] end) t.

(** The number of keep-alive messages sent. *)
Definition keepAlives (t : list Effect) : nat :=
  List.length (filter (fun e => match e with ws_send_KeepAlive => true | _ => false end) t).

(** The records posted to the background page, in order. *)
Definition posts (t : list Effect) : list Utterance :=
  flat_map (fun e => match e with bgPort_postMessage u => [u] | _ => [] end) t.

(** The number of ports opened to the background page. *)
Definition connects (t : list Effect) : nat :=
  List.length (filter (fun e => match e with runtime_connect => true | _ => false end) t).

(** What concerns a socket: connections opened and closed, frames and
    keep-alive messages sent. *)
Definition socket_effects (t : list Effect) : list Effect :=
  filter (fun e => match e with
                   | WebSocket_new _ | ws_close | ws_send _ | ws_send_KeepAlive => true
                   | _ => false
                   end) t.

(** The port flag counts the ports opened, and nothing is posted
    before the port is open. *)
Definition port_invariant (w : World) : Prop :=
  connects (trace w) = (if bgPort w then 1 else 0)%nat
  /\ (bgPort w = false -> posts (trace w) = []).

Definition starts_session (e : Event) : bool :=
  match e with OFFSCREEN_START => true | _ => false end.

Definition delivers_audio (e : Event) : bool :=
  match e with worklet_message _ => true | _ => false end.

Definition opens_socket (e : Event) : bool :=
  match e with onopen => true | _ => false end.

Definition closes_socket (e : Event) : bool :=
  match e with onclose _ _ => true | _ => false end.

(** The first close of a session in PCM mode: the one that starts the
    fallback. *)
Definition starts_fallback (w : World) (e : Event) : Prop :=
  closes_socket e = true /\ currentMode w = pcm /\ triedOpusFallback w = false.

(** Where an effect may come from: the event whose handler produces it
    and the state the handler must find. *)
Definition guarded (w : World) (e : Event) (eff : Effect) : Prop :=
  match eff with
  | WebSocket_new pcm => e = OFFSCREEN_START
  | WebSocket_new opus => starts_fallback w e
  | ws_close => ws w <> None /\ (e = OFFSCREEN_STOP \/ starts_fallback w e)
  | ws_send data =>
      delivers_audio e = true /\ is_open w = true /\ currentMode w = pcm
      /\ (TARGET_SAMPLE_RATE <= sampleRate w)%Q
      /\ len data = PCM_TARGET_CHUNK_BYTES
  | ws_send_KeepAlive =>
      e = keepAlive_interval /\ keepAliveTimer w = true /\ is_open w = true
  | STATUS_UPDATE text =>
      match e with
      | onopen => text = "Connected to Deepgram"%string
      | onerror => text = "Deepgram socket error"%string
      | onclose code reason =>
          text = ("Deepgram socket closed (" ++ string_of_Z code ++ ") " ++ reason)%string
          \/ (text = "Opus fallback unsupported"%string
              /\ starts_fallback w e /\ opusSupported w = false)
      | onmessage (Some msg) =>
          exists t, type msg = Some t /\ includes (toLowerCase t) "error" = true
      | _ => False
      end
  | runtime_connect =>
      bgPort w = false /\ exists msg, e = onmessage (Some msg) /\ is_Results msg = true
  | bgPort_postMessage u =>
      exists msg alt,
        e = onmessage (Some msg) /\ is_Results msg = true
        /\ hd_error (alternatives msg) = Some alt
        /\ post_text u = or_else (transcript alt) ""
        /\ truthy (post_text u) = true
        /\ post_speaker u = resolve_speaker alt
        /\ post_language u = snd (resolve_language alt)
        /\ post_type u = (if is_final msg then "DG_TRANSCRIPT_FINAL"
                          else "DG_TRANSCRIPT_INTERIM")%string
  | mediaRecorder_stop =>
      mediaRecorder w = true
      /\ (e = OFFSCREEN_STOP \/ (starts_fallback w e /\ opusSupported w = true))
  | mediaRecorder_start timeslice =>
      timeslice = 250 /\ starts_fallback w e /\ opusSupported w = true
  end.

(** [texts.join(" ")] *)
Fixpoint join (texts : list string) : string :=
  match texts with
  | [] => ""
  | [t] => t
  | t :: texts' => (t ++ " " ++ join texts')%string
  end.

(** A segment that the grouping appends to the group ending in
    [previous]: same speaker, less than five seconds later. *)
Definition continues (previous next : Content.Segment) : Prop :=
  Content.speaker next = Content.speaker previous
  /\ Content.timestamp next - Content.timestamp previous < 5000.

(** Every segment of the block continues the one before it. *)
Fixpoint chained (block : list Content.Segment) : Prop :=
  match block with
  | s1 :: ((s2 :: _) as block') => continues s1 s2 /\ chained block'
  | _ => True
  end.

(** A non-empty run of segments: its first segment and the others. *)
Definition Block := (Content.Segment * list Content.Segment)%type.

Definition block_segments (b : Block) : list Content.Segment := fst b :: snd b.

Definition block_last (b : Block) : Content.Segment := last (snd b) (fst b).

(** The group that stands for a block on the display. *)
Definition shows (g : Content.Group) (b : Block) : Prop :=
  chained (block_segments b)
  /\ Content.group_speaker g = Content.speaker (fst b)
  /\ Content.group_text g = join (map Content.text (block_segments b))
  /\ Content.lastTimestamp g = Content.timestamp (block_last b).

(** No block continues the block before it. *)
Fixpoint separated (blocks : list Block) : Prop :=
  match blocks with
  | b1 :: ((b2 :: _) as blocks') =>
      ~ continues (block_last b1) (fst b2) /\ separated blocks'
  | _ => True
  end.

(** A detector with the given tracks and current speaker. *)
Definition track (ended active : bool) (volume : Q) (lastActivity : Z)
  : Content.TrackInfo :=
  {| Content.ended := ended; Content.volume := volume;
     Content.isActive := active; Content.lastActivity := lastActivity |}.

Definition three_tracks : Content.Detector :=
  {| Content.participantTracks :=
       [("a"%string, track false false (1 # 2) 1000);
        ("b"%string, track true true (3 # 4) 9000);
        ("c"%string, track false true (3 # 5) 9500)];
     Content.currentSpeaker := Some "b"%string |}.

Definition segment (text speaker : string) (timestamp : Z) : Content.Segment :=
  {| Content.text := text; Content.speaker := speaker; Content.timestamp := timestamp |}.

Definition four_segments : list Content.Segment :=
  [segment "hello" "Speaker 1" 1000; segment "there" "Speaker 1" 3000;
   segment "hi" "Speaker 2" 4000; segment "again" "Speaker 2" 12000].

(** The property names an object literal inherits from
    [Object.prototype]: for these, [counts[tag]] is not [undefined]
    before the first assignment. *)
Definition inherited (tag : string) : bool :=
  existsb (String.eqb tag)
    ["constructor"; "__defineGetter__"; "__defineSetter__"; "hasOwnProperty";
     "__lookupGetter__"; "__lookupSetter__"; "isPrototypeOf";
     "propertyIsEnumerable"; "toString"; "valueOf"; "__proto__";
     "toLocaleString"]%string.

(** The effects of a sequence of handler runs, run by run: each run's
    effects pass the guard of its event in the state the run starts
    from. *)
Fixpoint guarded_along (w : World) (events : list Event) (extra : list Effect) : Prop :=
  match events with
  | [] => extra = []
  | e :: events' =>
      exists first rest,
        extra = first ++ rest
        /\ Forall (guarded w e) first
        /\ guarded_along (step w e) events' rest
  end.

End Observed.

(** ** The recorder of the fallback

    [mediaRecorder.ondataavailable], which [startOpusFallback] sets. The
    handler is asynchronous: it looks at the blob and at the socket,
    waits for the bytes of the blob and hands them to [send]. The
    callee [ws.send] is evaluated before its argument, so the call is
    made on the socket that passed the guard, whatever has become of
    [ws] while the handler waited. *)

Module Recorder.

(** The two guards before the [await]: a blob that is there and not
    empty, a socket that is there and open. *)
Definition proceeds (data : option (list byte)) (w : World) : bool :=
  match data with
  | Some blob => negb (len blob =? 0) && is_open w
  | None => false
  end.

(** The handler, started in state [w]; [later] is the state in which
    the bytes of the blob arrive. *)
Definition ondataavailable (data : option (list byte)) (w later : World) : World :=
  match data with
  | Some blob => if proceeds data w then emit (ws_send blob) later else w
  | None => w
  end.

End Recorder.

(** ** The resampler in the arithmetic of the script

    JavaScript numbers are binary64 floating-point values and a
    [Float32Array] holds binary32 values. Above, rates and samples are
    exact rationals, which is the resampler of the design document;
    here the same function is written with the operations the script
    runs: the IEEE 754 division, multiplication and addition on
    binary64 (rounding to nearest, ties to even), [Math.round] and the
    conversion to binary32 of a store into a [Float32Array]. Sizes,
    indices and counters stay integers. *)

Module Binary64.

Definition prec : Z := 53.
Definition emax : Z := 1024.

(** A JavaScript number. *)
Definition double := spec_float.

Definition zero : double := S754_zero false.

(** [x + y], [x * y] and [x / y] on numbers. *)
Definition add (x y : double) : double := SFadd prec emax x y.
Definition mul (x y : double) : double := SFmul prec emax x y.
Definition div (x y : double) : double := SFdiv prec emax x y.

(** [x === y] and [x > y] on numbers. *)
Definition eqb (x y : double) : bool := SFeqb x y.
Definition gtb (x y : double) : bool := SFltb y x.

(** The double nearest to [z * 2^e]; [of_Z] is exact below [2^53]. *)
Definition scaled (z e : Z) : double := binary_normalize prec emax z e false.
Definition of_Z (z : Z) : double := scaled z 0.

(** The rational a finite double stands for. *)
Definition value (x : double) : Q :=
  match x with
  | S754_finite s m e => ((if s then -1 else 1) * inject_Z (Zpos m) * 2 ^ e)%Q
  | _ => 0%Q
  end.

(** What [Math.round] returns: an integer, or its argument when that
    is [NaN] or infinite. *)
Inductive number :=
| Int (z : Z)
| NaN
| Infinity (negative : bool).

(** [Math.round(x)]: the nearest integer, ties towards plus infinity. *)
Definition Math_round (x : double) : number :=
  match x with
  | S754_nan => NaN
  | S754_infinity s => Infinity s
  | S754_zero _ => Int 0
  | S754_finite _ _ _ => Int (JS.Math_round (value x))
  end.

(** The value a [Float32Array] holds after [arr[i] = x]: the binary32
    nearest to [x] (ties to even), read back as a number. *)
Definition fround (x : double) : double :=
  match x with
  | S754_finite s m e =>
      match binary_round 24 128 s m e with
      | S754_finite s' m' e' => binary_round prec emax s' m' e'
      | y => y
      end
  | _ => x
  end.

(** What is thrown: [new Error(message)], or the [RangeError] of the
    array constructor, whose message is the engine's. *)
Inductive error :=
| Error (message : string)
| RangeError.

(** How a call ends: it returns, it throws, or it does not end. *)
Inductive run (A : Type) : Type :=
| Returns (a : A)
| Throws (e : error)
| Hangs.
Arguments Returns {A} a.
Arguments Throws {A} e.
Arguments Hangs {A}.

(** [Number.MAX_SAFE_INTEGER], the largest length an array can have. *)
Definition MAX_SAFE_INTEGER : Z := 2 ^ 53 - 1.

(** [new Float32Array(n)]: [n] zeros; [NaN] counts as 0; a negative
    [n], an infinite one or one above [MAX_SAFE_INTEGER] is a
    RangeError. (An engine also refuses a length for which it has no
    memory; the embedding has no such limit.) *)
Definition Float32Array_new (n : number) : run (list double) :=
  match n with
  | Int z => if (z <? 0) || (MAX_SAFE_INTEGER <? z) then Throws RangeError
             else Returns (repeat zero (Z.to_nat z))
  | NaN => Returns []
  | Infinity _ => Throws RangeError
  end.

(** [i < n] for an integer [i]. *)
Definition below (i : Z) (n : number) : bool :=
  match n with
  | Int z => i <? z
  | NaN => false
  | Infinity negative => negb negative
  end.

(** [buffer[i]] as an operand of [+=]: outside the array it is
    [undefined], which [+=] turns into [NaN]. *)
Definition read (buffer : list double) (i : Z) : double :=
  if (0 <=? i) && (i <? len buffer) then nth (Z.to_nat i) buffer S754_nan
  else S754_nan.

(** The inner [for] loop from an integer [i] on; [i++] is exact, as
    it is for the indices of an array. *)
Equations? accumulate (buffer : list double) (nextOffsetBuffer : number)
           (i : Z) (accum : double) (count : Z) : double * Z
  by wf (Z.to_nat (len buffer - i)) lt :=
  accumulate buffer nextOffsetBuffer i accum count
    with inspect (below i nextOffsetBuffer && (i <? len buffer)) => {
    | exist _ true E :=
        accumulate buffer nextOffsetBuffer (i + 1) (add accum (read buffer i)) (count + 1);
    | exist _ false E := (accum, count) }.
Proof. apply andb_prop in E as [_ E]. apply Z.ltb_lt in E. lia. Qed.

(** The inner [for] loop, [let i = offsetBuffer]. From an integer it
    runs as above. From [NaN] or plus infinity its condition is false
    at once. From minus infinity, [i++] leaves [i] as it is: the loop
    does not end when its condition holds. *)
Definition inner_loop (buffer : list double) (nextOffsetBuffer offsetBuffer : number)
  : run (double * Z) :=
  match offsetBuffer with
  | Int i => Returns (accumulate buffer nextOffsetBuffer i zero 0)
  | NaN => Returns (zero, 0)
  | Infinity false => Returns (zero, 0)
  | Infinity true =>
      match nextOffsetBuffer with
      | Int _ | Infinity false => Hangs
      | NaN | Infinity true => Returns (zero, 0)
      end
  end.

(** The [while (offsetResult < result.length)] loop. *)
Equations? downsample_loop (buffer : list double) (sampleRateRatio : double)
           (offsetResult : Z) (offsetBuffer : number) (result : list double)
  : run (list double)
  by wf (Z.to_nat (len result - offsetResult)) lt :=
  downsample_loop buffer sampleRateRatio offsetResult offsetBuffer result
    with Z_lt_dec offsetResult (len result) => {
    | right _ := Returns result;
    | left _
        with inner_loop buffer
               (Math_round (mul (of_Z (offsetResult + 1)) sampleRateRatio))
               offsetBuffer => {
      | Returns (accum, count) :=
          downsample_loop buffer sampleRateRatio (offsetResult + 1)
            (Math_round (mul (of_Z (offsetResult + 1)) sampleRateRatio))
            (set result offsetResult
                 (fround (div accum (of_Z (if count =? 0 then 1 else count)))));
      | Throws e := Throws e;
      | Hangs := Hangs } }.
Proof.
  assert (len (set result offsetResult
    (fround (div accum (of_Z (if count =? 0 then 1 else count))))) = len result) as ->; [|lia].
  unfold set, len in *.
  destruct ((0 <=? offsetResult) && (offsetResult <? Z.of_nat (List.length result))) eqn:E;
    [|reflexivity].
  apply andb_prop in E as [E1 E2].
  apply Z.leb_le in E1. apply Z.ltb_lt in E2.
  rewrite length_app. cbn [List.length]. rewrite length_firstn, length_skipn. lia.
Qed.

Definition downsampleBuffer (buffer : list double) (sampleRate outSampleRate : double)
  : run (list double) :=
  if eqb outSampleRate sampleRate then Returns buffer
  else if gtb outSampleRate sampleRate
  then Throws (Error "Downsampling rate should be smaller than original")
  else
    let sampleRateRatio := div sampleRate outSampleRate in
    let newLength := Math_round (div (of_Z (len buffer)) sampleRateRatio) in
    match Float32Array_new newLength with
    | Returns result => downsample_loop buffer sampleRateRatio 0 (Int 0) result
    | Throws e => Throws e
    | Hangs => Hangs
    end.

(** *** Vocabulary for the resampler's result *)

(** The source position at which the window of output sample [k]
    starts, as the script computes it. *)
Definition bound (sampleRateRatio : double) (k : Z) : number :=
  if k =? 0 then Int 0 else Math_round (mul (of_Z k) sampleRateRatio).

(** Where a window that is meant to end at [hi] ends in [buffer]. *)
Definition window_end (buffer : list double) (hi : number) : Z :=
  match hi with
  | Int h => Z.min h (len buffer)
  | Infinity false => len buffer
  | _ => 0
  end.

(** The samples of [buffer] with an index from [lo] up to, and not
    including, [hi]. *)
Definition window (buffer : list double) (lo hi : number) : list double :=
  match lo with
  | Int l => subarray buffer l (window_end buffer hi)
  | _ => []
  end.

(** The samples added up in order, in double precision. *)
Definition sum (samples : list double) : double := fold_left add samples zero.

(** What is stored for a window: the sum over the number of samples,
    in double precision, rounded to binary32; 0 for an empty window. *)
Definition stored_mean (samples : list double) : double :=
  fround (div (sum samples) (of_Z (Z.max 1 (len samples)))).

(** A number that is not negative: zero, a finite number or an
    infinity with the sign bit clear, or [NaN]. *)
Definition has_sign (s : bool) (x : double) : Prop :=
  match x with
  | S754_zero s' | S754_infinity s' | S754_finite s' _ _ => s' = s
  | S754_nan => True
  end.

(** A position that is not negative. *)
Definition forward (n : number) : Prop :=
  match n with
  | Int z => 0 <= z
  | NaN => True
  | Infinity negative => negative = false
  end.

End Binary64.

(** * Properties *)

(** ** The embedding at work on small inputs *)

Example downsampleBuffer_48k :
  downsampleBuffer [1; 2; 3; 4; 5; 6; 7]%Q 48000 16000 = Normal [6 # 3; 15 # 3]%Q.
Proof. reflexivity. Qed.

Example downsampleBuffer_same_rate :
  downsampleBuffer [1; 2; 3]%Q 16000 16000 = Normal [1; 2; 3]%Q.
Proof. reflexivity. Qed.

Example floatTo16BitPCM_half_scale :
  floatTo16BitPCM [1 # 2; -(1 # 2); 3; -3]%Q
  = Normal [Byte.xff; Byte.x3f; Byte.x00; Byte.xc0;
            Byte.xff; Byte.x7f; Byte.x00; Byte.x80].
Proof. reflexivity. Qed.

Example enqueuePcm_splits_a_range :
  let w := world_of (enqueuePcm (repeat Byte.x01 5)
                       (set_ws (Some OPEN) closed_world)) in
  pcmBytesPending w = 4
  /\ pcmQueue w = [repeat Byte.x01 4]
  /\ trace w = [ws_send (repeat Byte.x02 3199 ++ [Byte.x01])].
Proof. vm_compute. auto. Qed.

Example Object_keys_array_indices_first :
  Object_keys (tally ["b"; "10"; "a"; "9"; "b"; "07"]%string)
  = ["9"; "10"; "b"; "a"; "07"]%string.
Proof. reflexivity. Qed.

Example reduce_language_keeps_the_later_of_two_tied_keys :
  snd (resolve_language
         (alternative_of (Some [word_of_language "en"; word_of_language "es"]) None))
  = "es"%string
  /\ snd (resolve_language
            (alternative_of (Some [word_of_language "2"; word_of_language "1"]) None))
     = "2"%string.
Proof. split; reflexivity. Qed.

Example ws_onmessage_error_type :
  trace (ws_onmessage
           (Some {| type := Some "SocketError"%string; alternatives := [];
                    is_final := false; message := None;
                    reason := Some "quota"%string |})
           (initial 48000 true))
  = [STATUS_UPDATE "Deepgram error: quota"].
Proof. reflexivity. Qed.

(** ** Arithmetic of [Math.round] and of typed-array updates *)

Section Arithmetic.

Lemma Math_round_Z (z : Z) : Math_round (inject_Z z) = z.
Proof.
  unfold Math_round.
  assert (Hlo : (inject_Z z <= inject_Z z + (1 # 2))%Q) by lra.
  apply Qfloor_resp_le in Hlo. rewrite Qfloor_Z in Hlo.
  pose proof (Qfloor_le (inject_Z z + (1 # 2))) as Hup.
  assert (Hlt : (inject_Z (Qfloor (inject_Z z + (1 # 2))) < inject_Z (z + 1))%Q).
  { rewrite inject_Z_plus. change (inject_Z 1) with 1%Q. lra. }
  rewrite <- Zlt_Qlt in Hlt. lia.
Qed.


Lemma Math_round_le (x y : Q) : (x <= y)%Q -> Math_round x <= Math_round y.
Proof. intros H. apply Qfloor_resp_le. lra. Qed.




Lemma len_nonneg {A} (l : list A) : 0 <= len l.
Proof. unfold len. lia. Qed.

Lemma len_cons {A} (x : A) (l : list A) : len (x :: l) = len l + 1.
Proof. unfold len. cbn [List.length]. lia. Qed.

Lemma len_set {A} (arr : list A) (i : Z) (v : A) : len (set arr i v) = len arr.
Proof.
  unfold set, len.
  destruct ((0 <=? i) && (i <? Z.of_nat (List.length arr))) eqn:E; [|reflexivity].
  apply andb_prop in E as [E1 E2]. apply Z.leb_le in E1. apply Z.ltb_lt in E2.
  rewrite length_app. cbn [List.length]. rewrite length_firstn, length_skipn. lia.
Qed.



End Arithmetic.

(** ** The resampler *)

Section ResamplerFacts.


Lemma skipn_nth {A} (l : list A) (n : nat) (d : A) :
  (n < List.length l)%nat -> skipn n l = nth n l d :: skipn (S n) l.
Proof.
  revert n. induction l as [|a l IH]; intros n Hn; cbn [List.length] in Hn; [lia|].
  destruct n as [|n]; [reflexivity|].
  cbn [skipn nth]. rewrite (IH n) by lia. reflexivity.
Qed.






Lemma Math_round_nonneg (x : Q) : (0 <= x)%Q -> 0 <= Math_round x.
Proof.
  intros Hx. change 0 with (Math_round (inject_Z 0)) at 1.
  rewrite Math_round_Z. rewrite <- (Math_round_Z 0). apply Math_round_le. exact Hx.
Qed.



Lemma rates_up (sr osr : Q) :
  (sr < osr)%Q -> Qeq_bool osr sr = false /\ Qlt_bool sr osr = true.
Proof.
  intros H. split.
  - destruct (Qeq_bool osr sr) eqn:E; [|reflexivity].
    apply Qeq_bool_eq in E. lra.
  - unfold Qlt_bool. destruct (Qle_bool osr sr) eqn:E; [|reflexivity].
    apply Qle_bool_iff in E. lra.
Qed.


End ResamplerFacts.

Section BoxAverage.




End BoxAverage.

(** ** The resampler in double precision *)

Section Binary64Facts.

Import Binary64.

Lemma binary_round_aux_sign (p em : Z) (s : bool) (m e : Z) (l : location) :
  has_sign s (binary_round_aux p em s m e l).
Proof.
  unfold binary_round_aux.
  destruct (shr_fexp p em m e l) as [mrs' e'].
  destruct (shr_fexp p em _ e' loc_Exact) as [mrs'' e''].
  destruct (shr_m mrs''); cbn; [reflexivity | | exact I].
  destruct (e'' <=? em - p); reflexivity.
Qed.

Lemma binary_round_sign (p em : Z) (s : bool) (m : positive) (e : Z) :
  has_sign s (binary_round p em s m e).
Proof.
  unfold binary_round. destruct (shl_align m e _) as [mz ez].
  apply binary_round_aux_sign.
Qed.

Lemma of_Z_sign (z : Z) : 0 <= z -> has_sign false (of_Z z).
Proof.
  intros Hz. unfold of_Z, scaled, binary_normalize.
  destruct z as [|p|p]; [reflexivity | apply binary_round_sign | lia].
Qed.

Lemma mul_sign (x y : double) :
  has_sign false x -> has_sign false y -> has_sign false (mul x y).
Proof.
  destruct x as [sx|sx| |sx mx ex], y as [sy|sy| |sy my ey]; cbn;
    intros Hx Hy; subst; try reflexivity; try exact I.
  apply binary_round_aux_sign.
Qed.

Lemma div_finite_sign (sx sy : bool) (mx my : positive) (ex ey : Z) :
  has_sign (xorb sx sy) (div (S754_finite sx mx ex) (S754_finite sy my ey)).
Proof.
  unfold div, SFdiv.
  destruct (SFdiv_core_binary prec emax (Z.pos mx) ex (Z.pos my) ey) as [[mz ez] lz].
  apply binary_round_aux_sign.
Qed.

Lemma value_sign (x : double) :
  (has_sign false x -> (0 <= value x)%Q) /\ (has_sign true x -> (value x <= 0)%Q).
Proof.
  destruct x as [s|s| |s m e]; cbn; try (split; intros; lra).
  assert (Hp : (0 <= inject_Z (Z.pos m) * 2 ^ e)%Q).
  { apply Qmult_le_0_compat; [|apply Qpower_0_le; lra].
    change 0%Q with (inject_Z 0). rewrite <- Zle_Qle. lia. }
  split; intros ->; lra.
Qed.

Lemma Math_round_forward (x : double) : has_sign false x -> forward (Math_round x).
Proof.
  intros H. destruct x as [s|s| |s m e]; cbn [Math_round forward has_sign] in *.
  - lia.
  - exact H.
  - exact I.
  - subst. apply Math_round_nonneg. apply (value_sign (S754_finite false m e)). reflexivity.
Qed.

Lemma Math_round_backward (x : double) (n : Z) :
  has_sign true x -> Math_round x = Int n -> n <= 0.
Proof.
  intros H. destruct x as [s|s| |s m e]; cbn [Math_round has_sign] in *;
    intros [= <-]; try lia.
  subst. rewrite <- (Math_round_Z 0). apply Math_round_le.
  apply (value_sign (S754_finite true m e)). reflexivity.
Qed.

(** A quotient of a length that rounds to one or more has a divisor
    that is not negative. *)
Lemma ratio_sign (z n : Z) (r : double) :
  0 <= z -> Math_round (div (of_Z z) r) = Int n -> 1 <= n -> has_sign false r.
Proof.
  intros Hz. pose proof (of_Z_sign z Hz) as Hs.
  destruct (of_Z z) as [sx|sx| |sx mx ex]; cbn [has_sign] in Hs; subst;
    destruct r as [sr|sr| |sr mr er];
    try (cbn [div SFdiv Math_round has_sign]; intros E Hn;
         first [discriminate | injection E as <-; lia | exact I]).
  intros E Hn. cbn [has_sign]. destruct sr; [|reflexivity].
  pose proof (div_finite_sign false true mx mr ex er) as Hq. cbn [xorb] in Hq.
  pose proof (Math_round_backward _ _ Hq E). lia.
Qed.

Lemma subarray_cons {A} (arr : list A) (i e : Z) (d : A) :
  0 <= i -> i < e -> i < len arr ->
  subarray arr i e = nth (Z.to_nat i) arr d :: subarray arr (i + 1) e.
Proof.
  intros Hi He Hl. unfold subarray, len in *.
  rewrite (skipn_nth arr (Z.to_nat i) d) by lia.
  replace (Z.to_nat (e - i)) with (S (Z.to_nat (e - (i + 1)))) by lia.
  cbn [firstn]. replace (Z.to_nat (i + 1)) with (S (Z.to_nat i)) by lia.
  reflexivity.
Qed.

Lemma subarray_nil {A} (arr : list A) (i e : Z) : e <= i -> subarray arr i e = [].
Proof.
  intros H. unfold subarray. replace (Z.to_nat (e - i)) with 0%nat by lia. reflexivity.
Qed.

Lemma window_end_below (buffer : list double) (next : number) (i : Z) :
  0 <= i ->
  below i next && (i <? len buffer) = true <-> i < window_end buffer next.
Proof.
  intros Hi. pose proof (len_nonneg buffer) as Hl.
  rewrite andb_true_iff, Z.ltb_lt.
  destruct next as [h| |[|]]; cbn [below window_end negb].
  - rewrite Z.ltb_lt. lia.
  - split; [intros [[=] _] | lia].
  - split; [intros [[=] _] | lia].
  - split; [intros [_ H]; exact H | intros H; split; [reflexivity | exact H]].
Qed.

Lemma window_end_len (buffer : list double) (next : number) :
  window_end buffer next <= len buffer.
Proof.
  pose proof (len_nonneg buffer). destruct next as [h| |[|]]; cbn; lia.
Qed.

(** The inner loop adds the samples of the window in order and counts
    them. *)
Lemma accumulate_sum (buffer : list double) (next : number) (i : Z)
      (accum : double) (count : Z) :
  0 <= i ->
  accumulate buffer next i accum count
  = (fold_left add (window buffer (Int i) next) accum,
     count + len (window buffer (Int i) next)).
Proof.
  funelim (accumulate buffer next i accum count); intros Hi.
  - pose proof (proj1 (window_end_below buffer nextOffsetBuffer i Hi) E) as Hlt.
    pose proof (window_end_len buffer nextOffsetBuffer) as Hle.
    rewrite H by lia. cbn [window].
    rewrite (subarray_cons buffer i _ S754_nan) by lia.
    cbn [fold_left]. rewrite len_cons. unfold read.
    replace ((0 <=? i) && (i <? len buffer)) with true
      by (symmetry; apply andb_true_intro; split; [apply Z.leb_le | apply Z.ltb_lt]; lia).
    f_equal. lia.
  - assert (Hge : window_end buffer nextOffsetBuffer <= i).
    { destruct (Z_lt_dec i (window_end buffer nextOffsetBuffer)) as [Hlt|Hge]; [|lia].
      apply (window_end_below buffer nextOffsetBuffer i Hi) in Hlt. congruence. }
    cbn [window]. rewrite subarray_nil by exact Hge. cbn. f_equal. lia.
Qed.

Lemma inner_loop_window (buffer : list double) (next offsetBuffer : number) :
  forward offsetBuffer ->
  inner_loop buffer next offsetBuffer
  = Returns (sum (window buffer offsetBuffer next), len (window buffer offsetBuffer next)).
Proof.
  destruct offsetBuffer as [i| |[|]]; cbn [forward inner_loop]; intros H.
  - rewrite accumulate_sum by exact H. reflexivity.
  - reflexivity.
  - discriminate.
  - reflexivity.
Qed.

Lemma nth_set_same {A} (arr : list A) (i : Z) (v d : A) :
  0 <= i < len arr -> nth (Z.to_nat i) (set arr i v) d = v.
Proof.
  unfold set, len. intros H.
  replace ((0 <=? i) && (i <? Z.of_nat (List.length arr))) with true
    by (symmetry; apply andb_true_intro; split; [apply Z.leb_le | apply Z.ltb_lt]; lia).
  rewrite app_nth2; rewrite length_firstn; [|lia].
  replace (Z.to_nat i - Init.Nat.min (Z.to_nat i) (List.length arr))%nat with 0%nat by lia.
  reflexivity.
Qed.

Lemma nth_set_other {A} (arr : list A) (i j : Z) (v d : A) :
  0 <= j -> i <> j -> nth (Z.to_nat j) (set arr i v) d = nth (Z.to_nat j) arr d.
Proof.
  unfold set, len. intros Hj Hij.
  destruct ((0 <=? i) && (i <? Z.of_nat (List.length arr))) eqn:E; [|reflexivity].
  apply andb_prop in E as [E1 E2]. apply Z.leb_le in E1. apply Z.ltb_lt in E2.
  destruct (Z_lt_dec j i) as [Hlt|Hge].
  - rewrite app_nth1 by (rewrite length_firstn; lia).
    rewrite nth_firstn.
    replace (Z.to_nat j <? Z.to_nat i)%nat with true
      by (symmetry; apply Nat.ltb_lt; lia).
    reflexivity.
  - rewrite app_nth2 by (rewrite length_firstn; lia).
    rewrite length_firstn.
    replace (Z.to_nat j - Init.Nat.min (Z.to_nat i) (List.length arr))%nat
      with (S (Z.to_nat j - S (Z.to_nat i)))%nat by lia.
    cbn [nth]. rewrite nth_skipn. f_equal. lia.
Qed.

Lemma read_set_same (arr : list double) (i : Z) (v : double) :
  0 <= i < len arr -> read (set arr i v) i = v.
Proof.
  intros H. unfold read. rewrite len_set.
  replace ((0 <=? i) && (i <? len arr)) with true
    by (symmetry; apply andb_true_intro; split; [apply Z.leb_le | apply Z.ltb_lt]; lia).
  now apply nth_set_same.
Qed.

Lemma read_set_other (arr : list double) (i j : Z) (v : double) :
  i <> j -> read (set arr i v) j = read arr j.
Proof.
  intros H. unfold read. rewrite len_set.
  destruct ((0 <=? j) && (j <? len arr)) eqn:E; [|reflexivity].
  apply andb_prop in E as [E _]. apply Z.leb_le in E. now apply nth_set_other.
Qed.

(** The outer loop, entered at cell [k] with the input position
    [offsetBuffer], returns: it leaves the cells below [k] alone, and
    stores in every later cell the mean of its window. *)
Lemma downsample_loop_windows (buffer : list double) (r : double) (k : Z)
      (offsetBuffer : number) (result : list double) :
  0 <= k -> has_sign false r -> forward offsetBuffer ->
  exists out,
    downsample_loop buffer r k offsetBuffer result = Returns out
    /\ len out = len result
    /\ (forall j, 0 <= j < k -> read out j = read result j)
    /\ (k < len result ->
        read out k
        = stored_mean (window buffer offsetBuffer (Math_round (mul (of_Z (k + 1)) r))))
    /\ (forall j, k < j < len result ->
          read out j
          = stored_mean (window buffer (Math_round (mul (of_Z j) r))
                                (Math_round (mul (of_Z (j + 1)) r)))).
Proof.
  funelim (downsample_loop buffer r k offsetBuffer result);
    intros Hk Hr Hob; try rewrite <- Heqcall.
  - exists result. repeat split; intros; lia || reflexivity.
  - rewrite inner_loop_window in Heq by exact Hob. injection Heq as <- <-.
    set (next := Math_round (mul (of_Z (offsetResult + 1)) sampleRateRatio)) in *.
    set (w := window buffer offsetBuffer next) in *.
    assert (Hnext : forward next).
    { apply Math_round_forward, mul_sign; [apply of_Z_sign; lia | exact Hr]. }
    destruct (H ltac:(lia) Hr Hnext) as (out & Hrun & Hlen & Hbelow & Hat & Habove).
    rewrite len_set in *.
    exists out. split; [exact Hrun|]. split; [exact Hlen|]. split; [|split].
    + intros j Hj. rewrite Hbelow by lia. apply read_set_other. lia.
    + intros _. rewrite Hbelow by lia. rewrite read_set_same by lia.
      unfold stored_mean. do 3 f_equal. pose proof (len_nonneg w).
      destruct (len w =? 0) eqn:E; [apply Z.eqb_eq in E | apply Z.eqb_neq in E]; lia.
    + intros j Hj. destruct (Z.eq_dec j (offsetResult + 1)) as [->|Hne].
      * apply Hat. lia.
      * apply Habove. lia.
  - rewrite inner_loop_window in Heq by exact Hob. discriminate.
  - rewrite inner_loop_window in Heq by exact Hob. discriminate.
Qed.

Lemma Float32Array_new_length (n : Z) :
  0 <= n <= MAX_SAFE_INTEGER ->
  exists result, Float32Array_new (Int n) = Returns result /\ len result = n.
Proof.
  intros Hn. cbn [Float32Array_new].
  replace (n <? 0) with false by (symmetry; apply Z.ltb_ge; lia).
  replace (MAX_SAFE_INTEGER <? n) with false by (symmetry; apply Z.ltb_ge; lia).
  cbn [orb].
  eexists. split; [reflexivity|]. unfold len. rewrite repeat_length. lia.
Qed.

(** A proper downsampling to [n] samples returns them, each the stored
    mean of its window. *)
Lemma downsampleBuffer_windows (buffer : list double) (sr osr : double) (n : Z) :
  eqb osr sr = false -> gtb osr sr = false ->
  Math_round (div (of_Z (len buffer)) (div sr osr)) = Int n ->
  0 <= n <= MAX_SAFE_INTEGER ->
  exists result,
    downsampleBuffer buffer sr osr = Returns result
    /\ len result = n
    /\ forall i, 0 <= i < n ->
         read result i
         = stored_mean (window buffer (bound (div sr osr) i) (bound (div sr osr) (i + 1))).
Proof.
  intros He Hg Hround Hn. unfold downsampleBuffer. rewrite He, Hg. cbv zeta.
  rewrite Hround.
  destruct (Float32Array_new_length n Hn) as (result0 & -> & Hlen).
  destruct (Z.eq_dec n 0) as [->|Hpos].
  - destruct result0; [|unfold len in Hlen; cbn in Hlen; lia].
    rewrite downsample_loop_equation_1. cbn.
    exists []. repeat split. intros i Hi. lia.
  - assert (Hr : has_sign false (div sr osr)).
    { apply (ratio_sign (len buffer) n); [apply len_nonneg | exact Hround | lia]. }
    destruct (downsample_loop_windows buffer (div sr osr) 0 (Int 0) result0)
      as (out & Hrun & Hl & _ & Hat & Habove); [lia | exact Hr | cbn; lia |].
    exists out. split; [exact Hrun|]. split; [congruence|].
    intros i Hi. unfold bound.
    destruct (Z.eq_dec i 0) as [->|Hne].
    + cbn [Z.eqb Z.add]. apply Hat. lia.
    + replace (i =? 0) with false by (symmetry; apply Z.eqb_neq; lia).
      replace (i + 1 =? 0) with false by (symmetry; apply Z.eqb_neq; lia).
      apply Habove. lia.
Qed.

End Binary64Facts.

(** C2, as the code has it. [downsampleBuffer] returns its input for
    equal rates and throws when the target rate is above the source
    rate. Otherwise the length of its result is
    [Math.round(buffer.length / (sampleRate / outSampleRate))] with both
    divisions carried out in double precision: when that is an integer
    [n >= 0] the result has exactly [n] samples (and the loops end),
    when it is [NaN] the result is empty, and when it is negative,
    infinite or above [Number.MAX_SAFE_INTEGER], the largest [n] meant
    before, the array constructor throws a RangeError. *)
Theorem downsampleBuffer_length
        (buffer : list Binary64.double) (sampleRate outSampleRate : Binary64.double) :
  (Binary64.eqb outSampleRate sampleRate = true ->
   Binary64.downsampleBuffer buffer sampleRate outSampleRate = Binary64.Returns buffer)
  /\ (Binary64.eqb outSampleRate sampleRate = false ->
      Binary64.gtb outSampleRate sampleRate = true ->
      Binary64.downsampleBuffer buffer sampleRate outSampleRate
      = Binary64.Throws
          (Binary64.Error "Downsampling rate should be smaller than original"))
  /\ (Binary64.eqb outSampleRate sampleRate = false ->
      Binary64.gtb outSampleRate sampleRate = false ->
      match Binary64.Math_round
              (Binary64.div (Binary64.of_Z (len buffer))
                            (Binary64.div sampleRate outSampleRate)) with
      | Binary64.Int n =>
          (0 <= n <= Binary64.MAX_SAFE_INTEGER ->
           exists result,
             Binary64.downsampleBuffer buffer sampleRate outSampleRate
             = Binary64.Returns result
             /\ len result = n)
          /\ (n < 0 \/ Binary64.MAX_SAFE_INTEGER < n ->
              Binary64.downsampleBuffer buffer sampleRate outSampleRate
              = Binary64.Throws Binary64.RangeError)
      | Binary64.NaN =>
          Binary64.downsampleBuffer buffer sampleRate outSampleRate = Binary64.Returns []
      | Binary64.Infinity _ =>
          Binary64.downsampleBuffer buffer sampleRate outSampleRate
          = Binary64.Throws Binary64.RangeError
      end).
Proof.
  split; [|split].
  - intros He. unfold Binary64.downsampleBuffer. now rewrite He.
  - intros He Hg. unfold Binary64.downsampleBuffer. now rewrite He, Hg.
  - intros He Hg.
    destruct (Binary64.Math_round _) as [n| |s] eqn:Hround.
    + split.
      * intros Hn.
        destruct (downsampleBuffer_windows buffer _ _ n He Hg Hround Hn)
          as (result & Hrun & Hlen & _).
        now exists result.
      * intros Hn. unfold Binary64.downsampleBuffer. rewrite He, Hg. cbv zeta.
        rewrite Hround. cbn [Binary64.Float32Array_new].
        destruct Hn as [Hn|Hn].
        -- replace (n <? 0) with true by (symmetry; apply Z.ltb_lt; lia). reflexivity.
        -- replace (Binary64.MAX_SAFE_INTEGER <? n) with true
             by (symmetry; apply Z.ltb_lt; lia).
           now rewrite orb_true_r.
    + unfold Binary64.downsampleBuffer. rewrite He, Hg. cbv zeta. rewrite Hround.
      cbn [Binary64.Float32Array_new]. now rewrite Binary64.downsample_loop_equation_1.
    + unfold Binary64.downsampleBuffer. rewrite He, Hg. cbv zeta. rewrite Hround.
      reflexivity.
Qed.

Lemma downsampleBuffer_length_witness :
  (exists result,
     Binary64.downsampleBuffer (repeat Binary64.zero 14)
       (Binary64.of_Z 17920) (Binary64.of_Z 16000) = Binary64.Returns result
     /\ len result = 12)
  /\ Binary64.downsampleBuffer (repeat Binary64.zero 3)
       (Binary64.of_Z 8000) (Binary64.of_Z 16000)
     = Binary64.Throws
         (Binary64.Error "Downsampling rate should be smaller than original").
Proof.
  split.
  - destruct (downsampleBuffer_length (repeat Binary64.zero 14)
                (Binary64.of_Z 17920) (Binary64.of_Z 16000)) as (_ & _ & H).
    assert (He : Binary64.eqb (Binary64.of_Z 16000) (Binary64.of_Z 17920) = false)
      by (vm_compute; reflexivity).
    assert (Hg : Binary64.gtb (Binary64.of_Z 16000) (Binary64.of_Z 17920) = false)
      by (vm_compute; reflexivity).
    assert (Hr : Binary64.Math_round
                   (Binary64.div (Binary64.of_Z (len (repeat Binary64.zero 14)))
                      (Binary64.div (Binary64.of_Z 17920) (Binary64.of_Z 16000)))
                 = Binary64.Int 12)
      by (vm_compute; reflexivity).
    specialize (H He Hg). rewrite Hr in H. apply H.
    unfold Binary64.MAX_SAFE_INTEGER. lia.
  - destruct (downsampleBuffer_length (repeat Binary64.zero 3)
                (Binary64.of_Z 8000) (Binary64.of_Z 16000)) as (_ & H & _).
    apply H; vm_compute; reflexivity.
Defined.

(** C2, as stated, fails: for 14 samples at 17920 Hz and a target of
    16000 Hz the quotient 14 / 1.12 is 12.5 and rounds to 13, but the
    script's double-precision quotient is just below 12.5 and the
    result has 12 samples. *)
Lemma downsampleBuffer_exact_length_counterexample :
  (exists result,
     Binary64.downsampleBuffer (repeat Binary64.zero 14)
       (Binary64.of_Z 17920) (Binary64.of_Z 16000) = Binary64.Returns result
     /\ len result = 12)
  /\ (Binary64.value (Binary64.of_Z 17920) == 17920)%Q
  /\ (Binary64.value (Binary64.of_Z 16000) == 16000)%Q
  /\ JS.Math_round (inject_Z 14 / (17920 / 16000)) = 13
  /\ (Binary64.value (Binary64.div (Binary64.of_Z 14)
                        (Binary64.div (Binary64.of_Z 17920) (Binary64.of_Z 16000)))
      < 25 # 2)%Q.
Proof.
  split; [|split; [|split; [|split]]].
  - eexists. split; [vm_compute; reflexivity | reflexivity].
  - vm_compute. reflexivity.
  - vm_compute. reflexivity.
  - vm_compute. reflexivity.
  - vm_compute. reflexivity.
Qed.

(** C7, as the code has it. For equal rates [downsampleBuffer] returns
    its input, sample for sample. When it builds a new buffer (rates
    neither equal nor target above source, and a length [n] from 0 to
    [Number.MAX_SAFE_INTEGER]), the result has [n] samples and sample
    [i] is the stored mean of its window: the samples of the window
    are added in index order in double precision, the sum is divided
    by their number and the quotient is rounded to binary32 (0 for an
    empty window). The window of sample [i] runs from
    [Math.round(i * ratio)], 0 for the first one, to
    [Math.round((i + 1) * ratio)], the products taken in double
    precision, and ends with the input at the latest. *)
Theorem downsampleBuffer_box_average
        (buffer : list Binary64.double) (sampleRate outSampleRate : Binary64.double)
        (n : Z) :
  (Binary64.eqb outSampleRate sampleRate = true ->
   Binary64.downsampleBuffer buffer sampleRate outSampleRate = Binary64.Returns buffer)
  /\ (Binary64.eqb outSampleRate sampleRate = false ->
      Binary64.gtb outSampleRate sampleRate = false ->
      Binary64.Math_round
        (Binary64.div (Binary64.of_Z (len buffer))
                      (Binary64.div sampleRate outSampleRate))
      = Binary64.Int n ->
      0 <= n <= Binary64.MAX_SAFE_INTEGER ->
      exists result,
        Binary64.downsampleBuffer buffer sampleRate outSampleRate
        = Binary64.Returns result
        /\ len result = n
        /\ forall i, 0 <= i < n ->
             Binary64.read result i
             = Binary64.stored_mean
                 (Binary64.window buffer
                    (Binary64.bound (Binary64.div sampleRate outSampleRate) i)
                    (Binary64.bound (Binary64.div sampleRate outSampleRate) (i + 1)))).
Proof.
  split.
  - intros He. unfold Binary64.downsampleBuffer. now rewrite He.
  - apply downsampleBuffer_windows.
Qed.

Lemma downsampleBuffer_box_average_witness :
  exists result,
    Binary64.downsampleBuffer
      (map Binary64.of_Z [1; 2; 3; 4; 5; 6; 7])
      (Binary64.of_Z 44100) (Binary64.of_Z 16000) = Binary64.Returns result
    /\ len result = 3
    /\ forall i, 0 <= i < 3 ->
         Binary64.read result i
         = Binary64.stored_mean
             (Binary64.window (map Binary64.of_Z [1; 2; 3; 4; 5; 6; 7])
                (Binary64.bound
                   (Binary64.div (Binary64.of_Z 44100) (Binary64.of_Z 16000)) i)
                (Binary64.bound
                   (Binary64.div (Binary64.of_Z 44100) (Binary64.of_Z 16000)) (i + 1))).
Proof.
  destruct (downsampleBuffer_box_average
              (map Binary64.of_Z [1; 2; 3; 4; 5; 6; 7])
              (Binary64.of_Z 44100) (Binary64.of_Z 16000) 3) as [_ H].
  apply H.
  - vm_compute. reflexivity.
  - vm_compute. reflexivity.
  - vm_compute. reflexivity.
  - unfold Binary64.MAX_SAFE_INTEGER. lia.
Defined.

(** C7, as stated, fails twice. The stored sample is not the exact
    mean: for the samples -1, -1 and -(1 - 2^-24) at 48 kHz the mean is
    rounded to binary32 and -1 is stored. And the window is not the one
    of the exact positions: at 65600 Hz the product 15 * 4.1 falls just
    below 61.5 in double precision, so the last of 15 windows ends at
    sample 61 and misses the sample that the exact window, which ends
    at 62, averages in. *)
Lemma downsampleBuffer_exact_mean_counterexample :
  (exists result,
     Binary64.downsampleBuffer
       [Binary64.of_Z (-1); Binary64.of_Z (-1); Binary64.scaled (-16777215) (-24)]
       (Binary64.of_Z 48000) (Binary64.of_Z 16000) = Binary64.Returns result
     /\ len result = 1
     /\ Binary64.read result 0 = Binary64.of_Z (-1))
  /\ ~ (Binary64.value (Binary64.of_Z (-1))
        == mean [Binary64.value (Binary64.of_Z (-1));
                 Binary64.value (Binary64.of_Z (-1));
                 Binary64.value (Binary64.scaled (-16777215) (-24))])%Q
  /\ (exists result,
        Binary64.downsampleBuffer
          (repeat Binary64.zero 61 ++ [Binary64.of_Z 1])
          (Binary64.of_Z 65600) (Binary64.of_Z 16000) = Binary64.Returns result
        /\ len result = 15
        /\ Binary64.read result 14 = Binary64.zero
        /\ Binary64.bound (Binary64.div (Binary64.of_Z 65600) (Binary64.of_Z 16000)) 15
           = Binary64.Int 61)
  /\ JS.Math_round (inject_Z 15 * (65600 / 16000)) = 62
  /\ (mean (window (repeat 0%Q 61 ++ [1%Q]) 57 62) == 1 # 5)%Q.
Proof.
  split; [|split; [|split; [|split]]].
  - eexists. split; [vm_compute; reflexivity|]. split; reflexivity.
  - vm_compute. discriminate.
  - eexists. split; [vm_compute; reflexivity|]. repeat split; vm_compute; reflexivity.
  - vm_compute. reflexivity.
  - vm_compute. reflexivity.
Qed.

(** ** Conversion to 16-bit PCM *)

Section Pcm16.

Lemma Uint8Array_set_fits (out src : list byte) (offset : Z) :
  0 <= offset -> offset + len src <= len out ->
  Uint8Array_set out src offset
  = Normal (firstn (Z.to_nat offset) out ++ src
              ++ skipn (Z.to_nat (offset + len src)) out).
Proof.
  intros H0 H1. unfold Uint8Array_set.
  replace (offset <? 0) with false by (symmetry; apply Z.ltb_ge; lia).
  replace (len out <? offset + len src) with false by (symmetry; apply Z.ltb_ge; lia).
  reflexivity.
Qed.

Lemma Qtrunc_bounds (x : Q) (a b : Z) :
  (inject_Z a <= x)%Q -> (x <= inject_Z b)%Q -> a <= Qtrunc x <= b.
Proof.
  destruct x as [n d]. unfold Qle, Qtrunc. cbn [Qnum Qden inject_Z].
  intros Ha Hb. rewrite Z.mul_1_r in Ha, Hb.
  split.
  - rewrite <- (Z.quot_mul a (Zpos d)) by lia.
    apply Z.quot_le_mono; lia.
  - rewrite <- (Z.quot_mul b (Zpos d)) by lia.
    apply Z.quot_le_mono; lia.
Qed.

Lemma clamp_range (x : Q) : (-1 <= clamp x <= 1)%Q.
Proof.
  unfold clamp.
  destruct (Qle_bool 1 x) eqn:E1; [lra|].
  destruct (Qle_bool (-1) x) eqn:E2; [|lra].
  apply Qle_bool_iff in E2.
  assert (~ (1 <= x)%Q) by (rewrite <- Qle_bool_iff; congruence).
  lra.
Qed.

Lemma clamp_inside (x : Q) : (-1 <= x <= 1)%Q -> (clamp x == x)%Q.
Proof.
  intros [Hlo Hhi]. unfold clamp.
  destruct (Qle_bool 1 x) eqn:E1.
  - apply Qle_bool_iff in E1. lra.
  - replace (Qle_bool (-1) x) with true by (symmetry; now apply Qle_bool_iff).
    reflexivity.
Qed.

Lemma clamp_code (x : Q) : Math_max (-1) (Math_min 1 x) = clamp x.
Proof.
  unfold Math_max, Math_min, clamp. destruct (Qle_bool 1 x); reflexivity.
Qed.

Lemma scale_range (s : Q) :
  (-1 <= s <= 1)%Q -> (inject_Z (-32768) <= scale s)%Q /\ (scale s <= inject_Z 32767)%Q.
Proof.
  intros [Hlo Hhi]. unfold scale, Qlt_bool.
  change (inject_Z (-32768)) with (-32768)%Q. change (inject_Z 32767) with 32767%Q.
  destruct (Qle_bool 0 s) eqn:E; cbn [negb].
  - apply Qle_bool_iff in E. lra.
  - assert (~ (0 <= s)%Q) by (rewrite <- Qle_bool_iff; congruence). lra.
Qed.

Lemma pcm16_range (x : Q) : -32768 <= pcm16 x <= 32767.
Proof.
  unfold pcm16. destruct (scale_range (clamp x) (clamp_range x)).
  now apply Qtrunc_bounds.
Qed.

Lemma ToInt16_small (v : Q) :
  -32768 <= Qtrunc v <= 32767 -> ToInt16 v = Qtrunc v.
Proof.
  intros H. unfold ToInt16. cbv zeta.
  destruct (Z_lt_dec (Qtrunc v) 0) as [Hneg|Hpos].
  - replace (Qtrunc v mod 65536) with (Qtrunc v + 65536).
    + replace (Qtrunc v + 65536 >=? 32768) with true by (symmetry; apply Z.geb_le; lia).
      lia.
    + apply Z.mod_unique with (q := -1); lia.
  - rewrite Z.mod_small by lia.
    replace (Qtrunc v >=? 32768) with false; [reflexivity|].
    symmetry. rewrite Z.geb_leb. apply Z.leb_gt. lia.
Qed.

(** Reading back, as a signed little-endian integer, the two bytes
    written for a value in the 16-bit range gives the value. *)
Lemma getInt16_le_split (z : Z) :
  -32768 <= z <= 32767 -> getInt16 (le_split 2 z) 0 = z.
Proof.
  intros H. unfold getInt16, subarray.
  replace (firstn (Z.to_nat (0 + 2 - 0)) (skipn (Z.to_nat 0) (le_split 2 z)))
    with (le_split 2 z) by reflexivity.
  rewrite le_combine_split. change (2 ^ (Z.of_nat 2 * 8)) with 65536.
  destruct (Z_lt_dec z 0) as [Hneg|Hpos].
  - replace (z mod 65536) with (z + 65536)
      by (apply Z.mod_unique with (q := -1); lia).
    replace (z + 65536 >=? 32768) with true by (symmetry; apply Z.geb_le; lia).
    lia.
  - rewrite Z.mod_small by lia.
    replace (z >=? 32768) with false; [reflexivity|].
    symmetry. rewrite Z.geb_leb. apply Z.leb_gt. lia.
Qed.

(** The loop, started at sample [i] with [offset = 2 * i], keeps the
    bytes before [offset] and writes the encoding of every later
    sample: it never leaves the buffer. *)
Lemma floatTo16BitPCM_loop_closed (a : list Q) (i offset : Z) (buffer : list byte) :
  0 <= i <= len a -> offset = 2 * i -> len buffer = 2 * len a ->
  floatTo16BitPCM_loop a i offset buffer
  = Normal (firstn (Z.to_nat offset) buffer
              ++ flat_map (fun x => le_split 2 (pcm16 x)) (skipn (Z.to_nat i) a)).
Proof.
  funelim (floatTo16BitPCM_loop a i offset buffer);
    intros Hi Hoff Hlen; try rewrite <- Heqcall.
  - cbv zeta. rewrite clamp_code. fold (scale (clamp (get float32Array i))).
    unfold setInt16. rewrite ToInt16_small by apply pcm16_range.
    fold (pcm16 (get float32Array i)).
    rewrite Uint8Array_set_fits
      by (unfold len in *; rewrite ?length_le_split; lia).
    rewrite H; [| lia | lia
      | unfold len in *; rewrite !length_app, length_firstn, length_skipn,
          length_le_split; lia].
    f_equal.
    rewrite (skipn_nth float32Array (Z.to_nat i) 0%Q) by (unfold len in *; lia).
    cbn [flat_map]. fold (get float32Array i).
    replace (S (Z.to_nat i)) with (Z.to_nat (i + 1)) by lia.
    set (F := firstn (Z.to_nat offset) buffer).
    set (E := le_split 2 (pcm16 (get float32Array i))).
    assert (HF : List.length F = Z.to_nat offset)
      by (unfold F, len in *; rewrite length_firstn; lia).
    assert (HE : List.length E = 2%nat) by apply length_le_split.
    rewrite (app_assoc F E), firstn_app, length_app.
    rewrite (firstn_all2 (F ++ E)) by (rewrite length_app; lia).
    replace (Z.to_nat (offset + 2) - (List.length F + List.length E))%nat
      with 0%nat by lia.
    cbn [firstn]. rewrite app_nil_r, <- app_assoc. reflexivity.
  - assert (i = len float32Array) as -> by lia.
    unfold len in *. rewrite skipn_all2 by lia. cbn [flat_map].
    rewrite app_nil_r. rewrite firstn_all2 by lia. reflexivity.
Qed.

End Pcm16.

(** C6. [floatTo16BitPCM] returns, sample after sample, the two bytes
    (least significant first) of the integer [pcm16 x], the truncation of
    the sample clamped to [-1, 1] and scaled by 32768 when negative and
    by 32767 otherwise; that integer lies in the signed 16-bit range, so
    the two bytes read back as it. In particular 1 gives 32767, -1 gives
    -32768 and 0 gives 0. *)
Theorem floatTo16BitPCM_clamp_scale (float32Array : list Q) :
  floatTo16BitPCM float32Array
  = Normal (flat_map (fun x => le_split 2 (pcm16 x)) float32Array)
  /\ (forall x : Q,
        pcm16 x = Qtrunc (if Qlt_bool (clamp x) 0 then clamp x * 32768
                          else clamp x * 32767)%Q
        /\ (-1 <= clamp x <= 1)%Q
        /\ ((-1 <= x <= 1)%Q -> (clamp x == x)%Q)
        /\ -32768 <= pcm16 x <= 32767
        /\ getInt16 (le_split 2 (pcm16 x)) 0 = pcm16 x)
  /\ pcm16 1 = 32767 /\ pcm16 (-1) = -32768 /\ pcm16 0 = 0
  /\ floatTo16BitPCM [1; -1; 0]%Q
     = Normal [Byte.xff; Byte.x7f; Byte.x00; Byte.x80; Byte.x00; Byte.x00].
Proof.
  split; [|split; [|repeat split]].
  - unfold floatTo16BitPCM.
    rewrite floatTo16BitPCM_loop_closed.
    + reflexivity.
    + pose proof (len_nonneg float32Array). lia.
    + reflexivity.
    + unfold zeros, len. rewrite repeat_length. lia.
  - intros x. repeat split.
    + apply clamp_range.
    + apply clamp_range.
    + apply clamp_inside.
    + apply pcm16_range.
    + apply pcm16_range.
    + apply getInt16_le_split, pcm16_range.
Qed.

Lemma floatTo16BitPCM_clamp_scale_witness :
  floatTo16BitPCM [1 # 2; 3]%Q
  = Normal (flat_map (fun x => le_split 2 (pcm16 x)) [1 # 2; 3]%Q)
  /\ (clamp (1 # 2) == 1 # 2)%Q.
Proof.
  destruct (floatTo16BitPCM_clamp_scale [1 # 2; 3]%Q) as (Hrun & Hall & _).
  split; [exact Hrun|].
  destruct (Hall (1 # 2)) as (_ & _ & Hin & _).
  apply Hin. unfold Qle; simpl; lia.
Defined.

(** ** The chunker *)

Section ChunkerFacts.

Lemma queued_bytes_concat (q : list (list byte)) : queued_bytes q = len (concat q).
Proof.
  induction q as [|b q IH]; [reflexivity|].
  cbn [queued_bytes fold_right concat]. fold (queued_bytes q). rewrite IH.
  unfold len. rewrite length_app. lia.
Qed.

Lemma splice_nil (out : list byte) (o : nat) : splice out [] o = out.
Proof. unfold splice. cbn [app List.length]. rewrite Nat.add_0_r. apply firstn_skipn. Qed.

Lemma splice_length (out src : list byte) (o : nat) :
  (o + List.length src <= List.length out)%nat ->
  List.length (splice out src o) = List.length out.
Proof.
  intros H. unfold splice. rewrite !length_app, length_firstn, length_skipn. lia.
Qed.

Lemma splice_splice (out s1 s2 : list byte) (o : nat) :
  (o + List.length s1 <= List.length out)%nat ->
  splice (splice out s1 o) s2 (o + List.length s1) = splice out (s1 ++ s2) o.
Proof.
  intros H. unfold splice at 1 3.
  set (F := firstn o out).
  assert (HF : List.length F = o) by (unfold F; rewrite length_firstn; lia).
  assert (H1 : firstn (o + List.length s1) (splice out s1 o) = F ++ s1).
  { unfold splice. fold F. rewrite app_assoc, firstn_app, length_app.
    rewrite (firstn_all2 (F ++ s1)) by (rewrite length_app; lia).
    replace (o + List.length s1 - (List.length F + List.length s1))%nat with 0%nat by lia.
    cbn [firstn]. apply app_nil_r. }
  assert (H2 : skipn (o + List.length s1 + List.length s2) (splice out s1 o)
               = skipn (o + List.length (s1 ++ s2)) out).
  { unfold splice. fold F. rewrite app_assoc, skipn_app, length_app.
    rewrite (skipn_all2 (F ++ s1)) by (rewrite length_app; lia).
    rewrite skipn_skipn, length_app. cbn [app]. f_equal. lia. }
  rewrite H1, H2, <- !app_assoc. reflexivity.
Qed.

Lemma Uint8Array_set_splice (out src : list byte) (offset : Z) :
  0 <= offset -> offset + len src <= len out ->
  Uint8Array_set out src offset = Normal (splice out src (Z.to_nat offset)).
Proof.
  intros H0 H1. rewrite Uint8Array_set_fits by assumption.
  unfold splice, len. do 4 f_equal. lia.
Qed.

(** The inner loop moves the first [toSend] queued bytes (or all of
    them, if fewer are queued) into [out] at [offset], in order, and
    leaves the others queued. It never writes outside [out]. *)
Lemma fill_chunk_spec (toSend offset : Z) (out : list byte) (q : list (list byte)) :
  0 <= toSend -> 0 <= offset -> offset + toSend <= len out ->
  exists q',
    fill_chunk toSend offset out q
    = (Normal (splice out (firstn (Z.to_nat toSend) (concat q)) (Z.to_nat offset)), q')
    /\ concat q' = skipn (Z.to_nat toSend) (concat q).
Proof.
  funelim (fill_chunk toSend offset out q); intros HtoSend Hoffset Hfit;
    try rewrite <- Heqcall.
  - exists []. cbn [concat]. rewrite firstn_nil, skipn_nil, splice_nil. auto.
  - exists (head' :: rest). replace (Z.to_nat toSend) with 0%nat by lia.
    cbn [firstn skipn]. rewrite splice_nil. auto.
  - exfalso.
    match goal with H : Uint8Array_set _ _ _ = Throw _ |- _ =>
      rewrite Uint8Array_set_splice in H; [discriminate | lia |] end.
    unfold subarray, len in *. rewrite length_firstn, length_skipn. lia.
  - (* the head range is split: [toSend] bytes of it fill the chunk *)
    assert (Htake : Z.min toSend (len head') = toSend) by lia.
    rewrite Htake in *.
    assert (HT : subarray head' 0 toSend = firstn (Z.to_nat toSend) head')
      by (unfold subarray; cbn [skipn Z.to_nat]; do 2 f_equal; lia).
    assert (HR : subarray head' toSend (len head') = skipn (Z.to_nat toSend) head').
    { unfold subarray, len. apply firstn_all2. rewrite length_skipn. lia. }
    rewrite HT, HR in *.
    assert (HlenT : List.length (firstn (Z.to_nat toSend) head') = Z.to_nat toSend)
      by (unfold len in *; rewrite length_firstn; lia).
    match goal with H : Uint8Array_set _ _ _ = Normal _ |- _ =>
      rewrite Uint8Array_set_splice in H by (unfold len in *; lia);
      injection H as <- end.
    destruct H as (q' & Hrun & Hq');
      [unfold len in *; lia | unfold len in *; lia
      | unfold len in *; rewrite splice_length; lia |].
    exists q'. rewrite Hrun, Hq'. clear Hrun Hq'.
    replace (Z.to_nat (toSend - toSend)) with 0%nat by lia.
    replace (Z.to_nat (offset + toSend))
      with (Z.to_nat offset + List.length (firstn (Z.to_nat toSend) head'))%nat by lia.
    cbn [firstn skipn concat].
    rewrite splice_splice by (unfold len in *; lia).
    rewrite app_nil_r, firstn_app, skipn_app.
    replace (Z.to_nat toSend - List.length head')%nat with 0%nat
      by (unfold len in *; lia).
    cbn [firstn skipn]. rewrite app_nil_r. auto.
  - (* the head range is used up and leaves the queue *)
    assert (Htake : Z.min toSend (len head') = len head') by lia.
    rewrite Htake in *.
    assert (HT : subarray head' 0 (len head') = head')
      by (unfold subarray, len; cbn [skipn Z.to_nat]; apply firstn_all2; lia).
    rewrite HT in *.
    match goal with H : Uint8Array_set _ _ _ = Normal _ |- _ =>
      rewrite Uint8Array_set_splice in H by (unfold len in *; lia);
      injection H as <- end.
    destruct H as (q' & Hrun & Hq');
      [unfold len in *; lia | unfold len in *; lia
      | unfold len in *; rewrite splice_length; lia |].
    exists q'. rewrite Hrun, Hq'. clear Hrun Hq'.
    replace (Z.to_nat (offset + len head'))
      with (Z.to_nat offset + List.length head')%nat by (unfold len; lia).
    rewrite splice_splice by (unfold len in *; lia).
    cbn [concat]. rewrite firstn_app, skipn_app.
    rewrite (firstn_all2 head'), (skipn_all2 head') by (unfold len in *; lia).
    replace (Z.to_nat (toSend - len head'))
      with (Z.to_nat toSend - List.length head')%nat by (unfold len; lia).
    auto.
Qed.

Lemma send_if_open_same (out : list byte) (w : World) :
  same_session w (send_if_open out w)
  /\ pcmQueue (send_if_open out w) = pcmQueue w
  /\ pcmBytesPending (send_if_open out w) = pcmBytesPending w
  /\ trace (send_if_open out w)
     = trace w ++ (if is_open w then [ws_send out] else []).
Proof.
  unfold send_if_open, same_session. destruct (is_open w); cbn;
    rewrite ?app_nil_r; repeat split; reflexivity.
Qed.

(** One round of the outer loop never throws; on a consistent world
    with a full chunk pending it sends exactly the first 3200 queued
    bytes and leaves the others queued. *)
Lemma send_chunk_spec (w : World) :
  exists out q,
    send_chunk w
    = Returned (send_if_open out
                  (set_pcmBytesPending (pcmBytesPending w - PCM_TARGET_CHUNK_BYTES)
                     (set_pcmQueue q w)))
    /\ len out = PCM_TARGET_CHUNK_BYTES
    /\ concat q = skipn (Z.to_nat PCM_TARGET_CHUNK_BYTES) (concat (pcmQueue w))
    /\ (PCM_TARGET_CHUNK_BYTES <= queued_bytes (pcmQueue w) ->
        out = firstn (Z.to_nat PCM_TARGET_CHUNK_BYTES) (concat (pcmQueue w))).
Proof.
  unfold send_chunk. cbv zeta.
  destruct (fill_chunk_spec PCM_TARGET_CHUNK_BYTES 0 (zeros PCM_TARGET_CHUNK_BYTES)
              (pcmQueue w)) as (q & -> & Hq).
  { unfold PCM_TARGET_CHUNK_BYTES; lia. }
  { lia. }
  { unfold zeros, len, PCM_TARGET_CHUNK_BYTES. rewrite repeat_length. lia. }
  eexists _, q. split; [reflexivity|].
  assert (Hz : List.length (zeros PCM_TARGET_CHUNK_BYTES) = 3200%nat)
    by (unfold zeros; now rewrite repeat_length).
  assert (Hf : (List.length (firstn (Z.to_nat PCM_TARGET_CHUNK_BYTES)
                               (concat (pcmQueue w))) <= 3200)%nat).
  { rewrite length_firstn. unfold PCM_TARGET_CHUNK_BYTES. lia. }
  split; [|split; [exact Hq|]].
  - unfold len. rewrite splice_length; [rewrite Hz; reflexivity|].
    cbn [Z.to_nat Nat.add]. lia.
  - intros Hfull. rewrite queued_bytes_concat in Hfull. unfold len in Hfull.
    unfold splice. cbn [Z.to_nat firstn app Nat.add].
    rewrite skipn_all2; [apply app_nil_r|].
    rewrite Hz, length_firstn. unfold PCM_TARGET_CHUNK_BYTES in *. lia.
Qed.

Lemma same_session_refl (w : World) : same_session w w.
Proof. unfold same_session. repeat split; reflexivity. Qed.

Lemma same_session_trans (w1 w2 w3 : World) :
  same_session w1 w2 -> same_session w2 w3 -> same_session w1 w3.
Proof.
  unfold same_session. intros (a1 & a2 & a3 & a4 & a5 & a6 & a7 & a8)
                              (b1 & b2 & b3 & b4 & b5 & b6 & b7 & b8).
  repeat split; congruence.
Qed.

Lemma same_session_open (w w' : World) : same_session w w' -> is_open w' = is_open w.
Proof. unfold same_session, is_open. intros (-> & _). reflexivity. Qed.

(** The outer loop on a consistent world: it returns, having cut the
    queued bytes into chunks of 3200 bytes from the front, each handed
    to [ws.send] when the socket is open and dropped otherwise. *)
Lemma drain_spec (w : World) :
  consistent w ->
  exists chunks w',
    drain w = Returned w'
    /\ Forall (fun c => len c = PCM_TARGET_CHUNK_BYTES) chunks
    /\ concat chunks ++ concat (pcmQueue w') = concat (pcmQueue w)
    /\ consistent w'
    /\ pcmBytesPending w' < PCM_TARGET_CHUNK_BYTES
    /\ same_session w w'
    /\ trace w' = trace w ++ (if is_open w then map ws_send chunks else []).
Proof.
  funelim (drain w); intros Hc; try rewrite <- Heqcall.
  - exists [], w. cbn [concat app map]. destruct (is_open w); rewrite app_nil_r.
    all: repeat split; auto using same_session_refl; lia.
  - destruct (send_chunk_spec w) as (out & q & Hrun & Hout & Hq & Hfirst).
    pose proof E as E'. rewrite Hrun in E'. injection E' as Ew. subst w'.
    set (w0 := set_pcmBytesPending _ _) in *.
    destruct (send_if_open_same out w0) as (Hs1 & Hq1 & Hp1 & Ht1).
    unfold consistent in Hc.
    assert (Hfull : PCM_TARGET_CHUNK_BYTES <= queued_bytes (pcmQueue w)) by lia.
    specialize (Hfirst Hfull).
    assert (Hbytes : out ++ concat q = concat (pcmQueue w))
      by (rewrite Hfirst, Hq; apply firstn_skipn).
    destruct H as (chunks & w' & Hd & Hall & Hcat & Hc' & Hlt & Hs & Ht).
    { unfold consistent. rewrite Hq1, Hp1. cbn. rewrite Hc.
      rewrite !queued_bytes_concat, <- Hbytes. unfold len in *.
      rewrite length_app. lia. }
    exists (out :: chunks), w'. rewrite Hd.
    split; [reflexivity|]. split; [constructor; assumption|].
    split; [|split; [exact Hc'|split; [exact Hlt|split]]].
    + cbn [concat]. rewrite <- app_assoc, Hcat, Hq1. exact Hbytes.
    + eapply same_session_trans; [|exact Hs].
      eapply same_session_trans; [|exact Hs1].
      unfold same_session. cbn. repeat split; reflexivity.
    + rewrite Ht, Ht1. rewrite (same_session_open _ _ Hs1).
      change (is_open w0) with (is_open w). change (trace w0) with (trace w).
      destruct (is_open w); cbn [map app]; rewrite <- ?app_assoc; reflexivity.
  - destruct (send_chunk_spec w) as (out & q & Hrun & _). congruence.
Qed.

Lemma enqueuePcm_spec (arrayBuffer : list byte) (w : World) :
  consistent w ->
  exists chunks w',
    enqueuePcm arrayBuffer w = Returned w'
    /\ Forall (fun c => len c = PCM_TARGET_CHUNK_BYTES) chunks
    /\ concat chunks ++ concat (pcmQueue w') = concat (pcmQueue w) ++ arrayBuffer
    /\ consistent w'
    /\ pcmBytesPending w' < PCM_TARGET_CHUNK_BYTES
    /\ same_session w w'
    /\ trace w' = trace w ++ (if is_open w then map ws_send chunks else []).
Proof.
  intros Hc. unfold enqueuePcm. cbv zeta.
  set (w1 := set_pcmBytesPending _ _).
  destruct (drain_spec w1) as (chunks & w' & Hd & Hall & Hcat & Hc' & Hlt & Hs & Ht).
  { unfold consistent in *. cbn. rewrite Hc, !queued_bytes_concat, concat_app.
    cbn [concat]. unfold len. rewrite !length_app. cbn [List.length]. lia. }
  exists chunks, w'.
  split; [exact Hd|]. split; [exact Hall|].
  split; [|split; [exact Hc'|split; [exact Hlt|split; [|exact Ht]]]].
  - rewrite Hcat. cbn. rewrite concat_app. cbn [concat]. now rewrite app_nil_r.
  - eapply same_session_trans; [|exact Hs].
    unfold same_session. cbn. repeat split; reflexivity.
Qed.

Lemma enqueue_all_spec (ranges : list (list byte)) (w : World) :
  consistent w ->
  exists chunks w',
    enqueue_all ranges w = Returned w'
    /\ Forall (fun c => len c = PCM_TARGET_CHUNK_BYTES) chunks
    /\ concat chunks ++ concat (pcmQueue w') = concat (pcmQueue w) ++ concat ranges
    /\ consistent w'
    /\ (ranges <> [] -> pcmBytesPending w' < PCM_TARGET_CHUNK_BYTES)
    /\ same_session w w'
    /\ trace w' = trace w ++ (if is_open w then map ws_send chunks else []).
Proof.
  revert w. induction ranges as [|r ranges IH]; intros w Hc.
  - exists [], w. cbn [enqueue_all concat app map].
    destruct (is_open w); rewrite !app_nil_r;
      repeat split; auto using same_session_refl; congruence.
  - destruct (enqueuePcm_spec r w Hc)
      as (c1 & w1 & Hrun1 & Hall1 & Hcat1 & Hc1 & Hlt1 & Hs1 & Ht1).
    destruct (IH w1 Hc1) as (c2 & w2 & Hrun2 & Hall2 & Hcat2 & Hc2 & Hlt2 & Hs2 & Ht2).
    exists (c1 ++ c2), w2. cbn [enqueue_all]. rewrite Hrun1.
    split; [exact Hrun2|].
    split; [|split; [|split; [exact Hc2|split; [|split]]]].
    + apply Forall_app. auto.
    + rewrite concat_app, <- app_assoc, Hcat2, app_assoc, Hcat1.
      cbn [concat]. now rewrite app_assoc.
    + intros _. destruct ranges as [|r' ranges'].
      * cbn [enqueue_all] in Hrun2. injection Hrun2 as <-. exact Hlt1.
      * apply Hlt2. discriminate.
    + eapply same_session_trans; eassumption.
    + rewrite Ht2, Ht1, (same_session_open _ _ Hs1).
      destruct (is_open w); rewrite ?map_app, ?app_nil_r, <- ?app_assoc; reflexivity.
Qed.

End ChunkerFacts.

Section SessionInvariant.

Lemma concat_chunks_len (chunks : list (list byte)) :
  Forall (fun c => len c = PCM_TARGET_CHUNK_BYTES) chunks ->
  len (concat chunks) = PCM_TARGET_CHUNK_BYTES * len chunks.
Proof.
  induction 1 as [|c chunks Hc _ IH]; [reflexivity|].
  cbn [concat]. unfold len in *. rewrite length_app. cbn [List.length]. lia.
Qed.

Lemma worklet_onmessage_consistent (input : option (list Q)) (w : World) :
  consistent w -> pcmBytesPending w < PCM_TARGET_CHUNK_BYTES ->
  consistent (world_of (worklet_onmessage input w))
  /\ pcmBytesPending (world_of (worklet_onmessage input w)) < PCM_TARGET_CHUNK_BYTES.
Proof.
  intros Hc Hlt. unfold worklet_onmessage.
  destruct input as [input|]; [|now split].
  destruct (negb (is_open w)); [now split|].
  destruct (currentMode w); [|now split].
  destruct (downsampleBuffer _ _ _) as [down|e]; [|now split].
  destruct (floatTo16BitPCM down) as [pcmBuffer|e]; [|now split].
  destruct (enqueuePcm_spec pcmBuffer w Hc) as (chunks & w' & -> & _ & _ & Hc' & Hlt' & _).
  now split.
Qed.

(** Every handler keeps the counter in step with the queue, and below
    one chunk. *)
Lemma step_consistent (w : World) (e : Event) :
  consistent w -> pcmBytesPending w < PCM_TARGET_CHUNK_BYTES ->
  consistent (step w e) /\ pcmBytesPending (step w e) < PCM_TARGET_CHUNK_BYTES.
Proof.
  intros Hc Hlt. destruct e; cbn [step].
  - now split.
  - unfold consistent in *. unfold stopAll.
    destruct (ws w); cbn; destruct (keepAliveTimer w); cbn;
      destruct (mediaRecorder w); cbn; now split.
  - destruct (ws w); now split.
  - now split.
  - unfold ws_onmessage. destruct data as [msg|]; [|now split].
    destruct (if is_Results msg then _ else _) as [alt|].
    + destruct (negb _); [now split|].
      destruct (resolve_language alt) as [dl l]. unfold connectBg.
      destruct (bgPort w) eqn:Hbg; cbn; rewrite ?Hbg; now split.
    + destruct (type msg) as [t|]; [|now split].
      destruct (_ && _); now split.
  - now split.
  - unfold consistent in *. unfold ws_onclose, startOpusFallback, postStatus.
    destruct (keepAliveTimer w); cbn; destruct (currentMode w); cbn;
      destruct (triedOpusFallback w); cbn; destruct (ws w); cbn;
      destruct (opusSupported w); cbn; destruct (mediaRecorder w); cbn; now split.
  - now apply worklet_onmessage_consistent.
  - unfold keepAlive_tick. destruct (keepAliveTimer w); [|now split].
    destruct (is_open w); now split.
Qed.

Lemma run_consistent (events : list Event) (w : World) :
  consistent w -> pcmBytesPending w < PCM_TARGET_CHUNK_BYTES ->
  consistent (run events w) /\ pcmBytesPending (run events w) < PCM_TARGET_CHUNK_BYTES.
Proof.
  revert w. induction events as [|e events IH]; intros w Hc Hlt; [now split|].
  cbn [run fold_left]. destruct (step_consistent w e Hc Hlt). now apply IH.
Qed.

Lemma consistent_nonneg (w : World) : consistent w -> 0 <= pcmBytesPending w.
Proof.
  unfold consistent. intros ->. rewrite queued_bytes_concat. apply len_nonneg.
Qed.

End SessionInvariant.

(** C1. Starting from an empty queue with the socket open, after any
    sequence of ranges has been passed to [enqueuePcm] the only effects
    are the sends of chunks of exactly 3200 bytes whose concatenation is
    the concatenation of the ranges cut at the largest multiple of 3200
    not above its length; the bytes after the cut are what stays queued. *)
Theorem enqueuePcm_chunks (ranges : list (list byte)) (w : World) :
  is_open w = true -> pcmQueue w = [] -> pcmBytesPending w = 0 ->
  let bytes := concat ranges in
  let cut := Z.to_nat (PCM_TARGET_CHUNK_BYTES * (len bytes / PCM_TARGET_CHUNK_BYTES)) in
  exists chunks w',
    enqueue_all ranges w = Returned w'
    /\ trace w' = trace w ++ map ws_send chunks
    /\ Forall (fun c => len c = PCM_TARGET_CHUNK_BYTES) chunks
    /\ concat chunks = firstn cut bytes
    /\ concat (pcmQueue w') = skipn cut bytes.
Proof.
  intros Hopen Hq Hp bytes cut.
  assert (Hc : consistent w) by (unfold consistent; rewrite Hq, Hp; reflexivity).
  destruct (enqueue_all_spec ranges w Hc)
    as (chunks & w' & Hrun & Hall & Hcat & Hc' & Hlt & _ & Ht).
  rewrite Hopen in Ht. rewrite Hq in Hcat. cbn [concat app] in Hcat. fold bytes in Hcat.
  exists chunks, w'. split; [exact Hrun|]. split; [exact Ht|]. split; [exact Hall|].
  assert (Hrest : len (concat (pcmQueue w')) < PCM_TARGET_CHUNK_BYTES).
  { destruct ranges as [|r ranges'].
    - destruct (concat chunks); [|discriminate]. cbn [app] in Hcat.
      rewrite Hcat. cbn. unfold PCM_TARGET_CHUNK_BYTES. lia.
    - rewrite <- queued_bytes_concat, <- Hc'. apply Hlt. discriminate. }
  pose proof (concat_chunks_len chunks Hall) as Hlen.
  assert (Hcut : cut = List.length (concat chunks)).
  { unfold cut. rewrite <- Hcat. unfold len in *. rewrite length_app.
    unfold PCM_TARGET_CHUNK_BYTES in *.
    rewrite <- (Z.div_unique (Z.of_nat (List.length (concat chunks)
                                        + List.length (concat (pcmQueue w'))))
                  3200 (Z.of_nat (List.length chunks))
                  (Z.of_nat (List.length (concat (pcmQueue w'))))); lia. }
  rewrite Hcut, <- Hcat. split.
  - rewrite firstn_app, Nat.sub_diag, firstn_all. cbn [firstn]. now rewrite app_nil_r.
  - rewrite skipn_app, Nat.sub_diag, skipn_all. reflexivity.
Qed.

Lemma enqueuePcm_chunks_witness :
  exists chunks w',
    enqueue_all three_ranges open_world = Returned w'
    /\ trace w' = trace open_world ++ map ws_send chunks
    /\ Forall (fun c => len c = PCM_TARGET_CHUNK_BYTES) chunks
    /\ concat chunks = firstn (Z.to_nat 6400) (concat three_ranges)
    /\ concat (pcmQueue w') = skipn (Z.to_nat 6400) (concat three_ranges).
Proof.
  apply (enqueuePcm_chunks three_ranges open_world); reflexivity.
Defined.

(** C9. [pcmBytesPending] is the sum of the byte lengths of the ranges in
    [pcmQueue] in every state a session reaches, and there it is below
    3200; every call of [enqueuePcm] on such a state returns to such a
    state, and so does every round of its draining loop that finds a full
    chunk pending, so more than a chunk is pending only inside a call. *)
Theorem pending_audio_invariant :
  (forall (rate : Q) (supported : bool) (events : list Event),
     let w := run events (initial rate supported) in
     pcmBytesPending w = queued_bytes (pcmQueue w)
     /\ 0 <= pcmBytesPending w < PCM_TARGET_CHUNK_BYTES)
  /\ (forall (arrayBuffer : list byte) (w : World),
        pcmBytesPending w = queued_bytes (pcmQueue w) ->
        exists w',
          enqueuePcm arrayBuffer w = Returned w'
          /\ pcmBytesPending w' = queued_bytes (pcmQueue w')
          /\ 0 <= pcmBytesPending w' < PCM_TARGET_CHUNK_BYTES)
  /\ (forall w : World,
        pcmBytesPending w = queued_bytes (pcmQueue w) ->
        PCM_TARGET_CHUNK_BYTES <= pcmBytesPending w ->
        exists w',
          send_chunk w = Returned w'
          /\ pcmBytesPending w' = queued_bytes (pcmQueue w')
          /\ pcmBytesPending w' = pcmBytesPending w - PCM_TARGET_CHUNK_BYTES).
Proof.
  split; [|split].
  - intros rate supported events w.
    destruct (run_consistent events (initial rate supported)) as [Hc Hlt].
    + reflexivity.
    + reflexivity.
    + fold w in Hc, Hlt. pose proof (consistent_nonneg w Hc). auto.
  - intros arrayBuffer w Hc.
    destruct (enqueuePcm_spec arrayBuffer w Hc) as (chunks & w' & Hrun & _ & _ & Hc' & Hlt & _).
    exists w'. pose proof (consistent_nonneg w' Hc'). auto.
  - intros w Hc Hfull.
    destruct (send_chunk_spec w) as (out & q & Hrun & Hout & Hq & Hfirst).
    eexists. split; [exact Hrun|].
    destruct (send_if_open_same out
                (set_pcmBytesPending (pcmBytesPending w - PCM_TARGET_CHUNK_BYTES)
                   (set_pcmQueue q w))) as (_ & Hq1 & Hp1 & _).
    rewrite Hq1, Hp1. cbn. split; [|reflexivity].
    rewrite Hc in *. rewrite !queued_bytes_concat in *. rewrite Hq.
    unfold len in *. rewrite length_skipn. lia.
Qed.

Lemma pending_audio_invariant_witness :
  exists w',
    enqueuePcm [Byte.x01; Byte.x01] closed_world = Returned w'
    /\ pcmBytesPending w' = queued_bytes (pcmQueue w')
    /\ 0 <= pcmBytesPending w' < PCM_TARGET_CHUNK_BYTES.
Proof.
  apply (proj1 (proj2 pending_audio_invariant) [Byte.x01; Byte.x01] closed_world).
  vm_compute. reflexivity.
Defined.

(** C8. While the socket is not open, a send attempt changes nothing: an
    audio block delivered to the worklet handler leaves the whole state
    as it was (nothing queued, sent or reported), and [enqueuePcm]
    returns with no effect on the trace, the chunks it drained being
    removed from the queue and gone. *)
Theorem send_while_not_open_is_dropped (w : World) :
  is_open w = false ->
  (forall out : list byte, send_if_open out w = w)
  /\ (forall input : option (list Q), worklet_onmessage input w = Returned w)
  /\ (forall arrayBuffer : list byte,
        pcmBytesPending w = queued_bytes (pcmQueue w) ->
        exists dropped w',
          enqueuePcm arrayBuffer w = Returned w'
          /\ trace w' = trace w
          /\ same_session w w'
          /\ Forall (fun c => len c = PCM_TARGET_CHUNK_BYTES) dropped
          /\ concat dropped ++ concat (pcmQueue w') = concat (pcmQueue w) ++ arrayBuffer
          /\ pcmBytesPending w' = queued_bytes (pcmQueue w')
          /\ pcmBytesPending w' < PCM_TARGET_CHUNK_BYTES).
Proof.
  intros Hclosed. split; [|split].
  - intros out. unfold send_if_open. now rewrite Hclosed.
  - intros [input|]; cbn [worklet_onmessage]; [|reflexivity].
    now rewrite Hclosed.
  - intros arrayBuffer Hc.
    destruct (enqueuePcm_spec arrayBuffer w Hc)
      as (chunks & w' & Hrun & Hall & Hcat & Hc' & Hlt & Hs & Ht).
    rewrite Hclosed, app_nil_r in Ht.
    exists chunks, w'. auto 10.
Qed.

Lemma send_while_not_open_is_dropped_witness :
  send_if_open [Byte.x01] closed_world = closed_world
  /\ worklet_onmessage (Some [1 # 2; 1 # 3]%Q) closed_world = Returned closed_world
  /\ exists dropped w',
       enqueuePcm [Byte.x01; Byte.x01] closed_world = Returned w'
       /\ trace w' = trace closed_world
       /\ same_session closed_world w'
       /\ Forall (fun c => len c = PCM_TARGET_CHUNK_BYTES) dropped
       /\ concat dropped ++ concat (pcmQueue w')
          = concat (pcmQueue closed_world) ++ [Byte.x01; Byte.x01]
       /\ pcmBytesPending w' = queued_bytes (pcmQueue w')
       /\ pcmBytesPending w' < PCM_TARGET_CHUNK_BYTES.
Proof.
  destruct (send_while_not_open_is_dropped closed_world eq_refl)
    as (Hsend & Hworklet & Henqueue).
  split; [apply Hsend|]. split; [apply Hworklet|].
  apply Henqueue. vm_compute. reflexivity.
Defined.

(** ** Counter tables and the reduction that picks the dominant tag *)

Section Tally.

Lemma eqb_false_neq (a b : string) : a <> b -> String.eqb a b = false.
Proof. intros H. now apply String.eqb_neq. Qed.

Lemma object_get_set (o : object) (k : string) (v : Z) (k' : string) :
  object_get (object_set o k v) k'
  = if String.eqb k' k then Some v else object_get o k'.
Proof.
  induction o as [|[k0 v0] o IH]; cbn [object_set object_get].
  - reflexivity.
  - destruct (String.eqb_spec k k0) as [->|Hk]; cbn [object_get].
    + destruct (String.eqb_spec k' k0); reflexivity.
    + rewrite IH. destruct (String.eqb_spec k' k0) as [->|Hk'].
      * now rewrite eqb_false_neq by congruence.
      * reflexivity.
Qed.

Lemma object_get_keys (o : object) (k : string) :
  object_get o k = None <-> ~ In k (own_keys o).
Proof.
  induction o as [|[k0 v0] o IH]; cbn [object_get own_keys map fst In].
  - tauto.
  - destruct (String.eqb_spec k k0) as [->|Hk].
    + split; [discriminate | tauto].
    + rewrite IH. unfold own_keys. split; intros H.
      * intros [E|E]; [congruence | auto].
      * auto.
Qed.

Lemma own_keys_set (o : object) (k : string) (v : Z) :
  own_keys (object_set o k v)
  = if in_dec string_dec k (own_keys o) then own_keys o
    else own_keys o ++ [k].
Proof.
  induction o as [|[k0 v0] o IH].
  - reflexivity.
  - cbn [object_set]. destruct (String.eqb_spec k k0) as [E|Hk].
    + change (own_keys ((k0, v) :: o)) with (k0 :: own_keys o).
      change (own_keys ((k0, v0) :: o)) with (k0 :: own_keys o).
      destruct (in_dec string_dec k (k0 :: own_keys o)) as [_|n]; [reflexivity|].
      exfalso. apply n. left. congruence.
    + change (own_keys ((k0, v0) :: object_set o k v))
        with (k0 :: own_keys (object_set o k v)).
      change (own_keys ((k0, v0) :: o)) with (k0 :: own_keys o).
      rewrite IH.
      destruct (in_dec string_dec k (own_keys o)) as [i|n];
        destruct (in_dec string_dec k (k0 :: own_keys o)) as [i'|n'];
        try reflexivity.
      * exfalso. apply n'. now right.
      * exfalso. destruct i' as [E|E]; [congruence | contradiction].
Qed.

Lemma tally_snoc (tags : list string) (x : string) :
  tally (tags ++ [x]) = increment (tally tags) x.
Proof. unfold tally. now rewrite fold_left_app. Qed.

Lemma occurrences_snoc (k x : string) (tags : list string) :
  occurrences k (tags ++ [x])
  = occurrences k tags + (if String.eqb k x then 1 else 0).
Proof.
  unfold occurrences. rewrite count_occ_app. cbn [count_occ].
  destruct (string_dec x k) as [->|Hne].
  - rewrite String.eqb_refl. lia.
  - rewrite eqb_false_neq by congruence. lia.
Qed.

Lemma occurrences_pos (k : string) (tags : list string) :
  In k tags <-> 0 < occurrences k tags.
Proof.
  unfold occurrences. rewrite (count_occ_In string_dec). lia.
Qed.

Lemma occurrences_nonneg (k : string) (tags : list string) : 0 <= occurrences k tags.
Proof. unfold occurrences. lia. Qed.

(** The table holds, for every tag met, the number of times it was
    met, and no other key. *)
Lemma tally_get (tags : list string) (k : string) :
  object_get (tally tags) k
  = if occurrences k tags =? 0 then None else Some (occurrences k tags).
Proof.
  induction tags as [|x tags IH] using rev_ind; [reflexivity|].
  rewrite tally_snoc, occurrences_snoc. unfold increment.
  rewrite object_get_set.
  pose proof (occurrences_nonneg k tags) as Hk.
  destruct (String.eqb_spec k x) as [->|Hne].
  - rewrite IH. destruct (occurrences x tags =? 0) eqn:E.
    + apply Z.eqb_eq in E. rewrite E. reflexivity.
    + rewrite E. apply Z.eqb_neq in E.
      replace (occurrences x tags + 1 =? 0) with false
        by (symmetry; apply Z.eqb_neq; lia).
      reflexivity.
  - rewrite IH, Z.add_0_r. reflexivity.
Qed.

Lemma tally_keys_In (tags : list string) (k : string) :
  In k (own_keys (tally tags)) <-> In k tags.
Proof.
  rewrite (occurrences_pos k tags).
  destruct (in_dec string_dec k (own_keys (tally tags))) as [i|n].
  - split; [intros _|auto].
    destruct (object_get (tally tags) k) eqn:E.
    + rewrite tally_get in E. destruct (occurrences k tags =? 0) eqn:E0; [discriminate|].
      apply Z.eqb_neq in E0. pose proof (occurrences_nonneg k tags). lia.
    + apply object_get_keys in E. contradiction.
  - split; [contradiction|]. intros Hpos. exfalso.
    apply object_get_keys in n. rewrite tally_get in n.
    destruct (occurrences k tags =? 0) eqn:E0; [|discriminate].
    apply Z.eqb_eq in E0. lia.
Qed.

Lemma tally_keys_snoc (tags : list string) (x : string) :
  own_keys (tally (tags ++ [x]))
  = if in_dec string_dec x tags then own_keys (tally tags)
    else own_keys (tally tags) ++ [x].
Proof.
  rewrite tally_snoc. unfold increment. rewrite own_keys_set.
  destruct (in_dec string_dec x (own_keys (tally tags))) as [i|n];
    destruct (in_dec string_dec x tags) as [i'|n']; try reflexivity.
  - exfalso. apply n'. now apply tally_keys_In.
  - exfalso. apply n. now apply tally_keys_In.
Qed.

Lemma snoc_eq_split {A} (l : list A) (x : A) (p : list A) (d : A) (s : list A) :
  l ++ [x] = p ++ d :: s ->
  (s = [] /\ d = x /\ p = l) \/ (exists s', s = s' ++ [x] /\ l = p ++ d :: s').
Proof.
  intros H. destruct s as [|y s] using rev_ind.
  - left. apply app_inj_tail in H as [-> ->]. auto.
  - right. clear IHs. exists s.
    change (p ++ d :: s ++ [y]) with (p ++ (d :: s) ++ [y]) in H.
    rewrite app_assoc in H. apply app_inj_tail in H as [-> ->]. auto.
Qed.

(** Keys are listed in the order in which the tags were first met. *)
Lemma tally_keys_order (tags p : list string) (d : string) (s : list string) :
  own_keys (tally tags) = p ++ d :: s ->
  exists before after,
    tags = before ++ d :: after /\ ~ In d before
    /\ (forall k, In k p -> In k before).
Proof.
  revert p d s. induction tags as [|x tags IH] using rev_ind; intros p d s H.
  - destruct p; discriminate.
  - rewrite tally_keys_snoc in H.
    destruct (in_dec string_dec x tags) as [i|n].
    + destruct (IH _ _ _ H) as (b & a & -> & Hd & Hp).
      exists b, (a ++ [x]). rewrite <- app_assoc. auto.
    + apply snoc_eq_split in H as [(-> & -> & ->) | (s' & -> & H)].
      * exists tags, []. split; [reflexivity|]. split; [exact n|].
        intros k Hk. now apply tally_keys_In.
      * destruct (IH _ _ _ H) as (b & a & -> & Hd & Hp).
        exists b, (a ++ [x]). rewrite <- app_assoc. auto.
Qed.

Lemma fold_left_Some (o : object) (ks : list string) (a : string) :
  fold_left (fun a b => if count_gt o a (Some b) then a else Some b) ks (Some a)
  = Some (reduce_language o a ks).
Proof.
  unfold reduce_language. revert a. induction ks as [|b ks IH]; intros a; [reflexivity|].
  cbn [fold_left]. destruct (count_gt o (Some a) (Some b)); apply IH.
Qed.

(** The speaker reduction starts from the first key and meets it again:
    it is the language reduction on the same keys. *)
Lemma dominantSpeaker_reduce (o : object) :
  dominantSpeaker o
  = match Object_keys o with
    | [] => None
    | first :: others => Some (reduce_language o first others)
    end.
Proof.
  unfold dominantSpeaker. destruct (Object_keys o) as [|k0 ks]; [reflexivity|].
  cbn [hd_error fold_left].
  replace (if count_gt o (Some k0) (Some k0) then Some k0 else Some k0) with (Some k0)
    by (destruct (count_gt _ _ _); reflexivity).
  apply fold_left_Some.
Qed.

Lemma count_gt_tally (tags : list string) (a b : string) :
  In a tags -> In b tags ->
  count_gt (tally tags) (Some a) (Some b) = (occurrences a tags >? occurrences b tags).
Proof.
  intros Ha Hb. unfold count_gt. rewrite !tally_get.
  apply occurrences_pos in Ha, Hb.
  replace (occurrences a tags =? 0) with false by (symmetry; apply Z.eqb_neq; lia).
  replace (occurrences b tags =? 0) with false by (symmetry; apply Z.eqb_neq; lia).
  reflexivity.
Qed.

(** The reduction keeps the last of the keys with the highest count. *)
Lemma reduce_language_split (tags ks : list string) (a0 : string) :
  (forall k, In k (a0 :: ks) -> In k tags) ->
  exists p s,
    a0 :: ks = p ++ reduce_language (tally tags) a0 ks :: s
    /\ (forall k, In k p ->
          occurrences k tags <= occurrences (reduce_language (tally tags) a0 ks) tags)
    /\ (forall k, In k s ->
          occurrences k tags < occurrences (reduce_language (tally tags) a0 ks) tags).
Proof.
  unfold reduce_language.
  induction ks as [|b ks IH] using rev_ind; intros Hin.
  - exists [], []. cbn. repeat split; intros k [].
  - destruct IH as (p & s & Hsplit & Hp & Hs).
    { intros k Hk. apply Hin. cbn in *. rewrite in_app_iff. tauto. }
    rewrite fold_left_app. cbn [fold_left].
    set (r := fold_left _ ks a0) in *.
    assert (Hr : In r tags).
    { apply Hin. change (a0 :: ks ++ [b]) with ((a0 :: ks) ++ [b]).
      rewrite Hsplit, !in_app_iff. cbn. tauto. }
    assert (Hb : In b tags).
    { apply Hin. cbn. rewrite in_app_iff. cbn. tauto. }
    rewrite count_gt_tally by assumption.
    destruct (occurrences r tags >? occurrences b tags) eqn:E.
    + exists p, (s ++ [b]).
      change (a0 :: ks ++ [b]) with ((a0 :: ks) ++ [b]).
      rewrite Hsplit, <- app_assoc. split; [reflexivity|]. split; [exact Hp|].
      intros k Hk. apply in_app_iff in Hk as [Hk|[<-|[]]]; [now apply Hs|].
      apply Z.gtb_lt in E. lia.
    + exists (a0 :: ks), [].
      split; [reflexivity|]. split; [|intros k []].
      assert (Hle : occurrences r tags <= occurrences b tags).
      { rewrite Z.gtb_ltb in E. apply Z.ltb_ge in E. exact E. }
      intros k Hk. rewrite Hsplit in Hk.
      apply in_app_iff in Hk as [Hk|[<-|Hk]].
      * specialize (Hp k Hk). lia.
      * exact Hle.
      * specialize (Hs k Hk). lia.
Qed.

(** On the table built from a sequence of tags, the reduction picks the
    tag with the highest count that was encountered last. *)
Lemma reduce_language_last_max (tags : list string) (first : string)
      (others : list string) :
  own_keys (tally tags) = first :: others ->
  last_encountered_max tags (reduce_language (tally tags) first others).
Proof.
  intros Hkeys.
  assert (Hin : forall k, In k (first :: others) <-> In k tags)
    by (intros k; rewrite <- Hkeys; apply tally_keys_In).
  destruct (reduce_language_split tags others first) as (p & s & Hsplit & Hp & Hs).
  { intros k. apply Hin. }
  set (r := reduce_language (tally tags) first others) in *.
  rewrite <- Hkeys in Hsplit.
  destruct (tally_keys_order tags p r s Hsplit) as (before & after & Htags & Hr & Hbefore).
  assert (Hkey : forall k, In k tags -> In k p \/ k = r \/ In k s).
  { intros k Hk. apply Hin in Hk. rewrite <- Hkeys, Hsplit in Hk.
    apply in_app_iff in Hk as [Hk|[Hk|Hk]]; auto. }
  assert (Hrpos : 0 < occurrences r tags).
  { apply occurrences_pos. rewrite Htags, in_app_iff. cbn. tauto. }
  exists before, after. split; [exact Htags|]. split; [exact Hr|]. split.
  - intros k. destruct (in_dec string_dec k tags) as [i|n].
    + destruct (Hkey k i) as [Hk|[->|Hk]].
      * now apply Hp.
      * lia.
      * specialize (Hs k Hk). lia.
    + pose proof (occurrences_nonneg k tags) as H0.
      destruct (Z.eq_dec (occurrences k tags) 0) as [->|Hne]; [lia|].
      exfalso. apply n. apply occurrences_pos. lia.
  - intros k Hne Heq.
    assert (Hk : In k tags) by (apply occurrences_pos; lia).
    destruct (Hkey k Hk) as [Hk'|[->|Hk']].
    + now apply Hbefore.
    + congruence.
    + specialize (Hs k Hk'). lia.
Qed.

Lemma speakerCounts_tally (ws : list Word) :
  speakerCounts ws = tally (map speaker_label (speaker_tags ws)).
Proof.
  unfold speakerCounts, tally. generalize (@nil (string * Z)).
  induction ws as [|w ws IH]; intros acc; [reflexivity|].
  cbn [fold_left speaker_tags flat_map]. fold (speaker_tags ws).
  rewrite IH. destruct (speaker w); reflexivity.
Qed.

Lemma languageCounts_tally (ws : list Word) :
  languageCounts ws = tally (language_tags ws).
Proof.
  unfold languageCounts, tally. generalize (@nil (string * Z)).
  induction ws as [|w ws IH]; intros acc; [reflexivity|].
  cbn [fold_left language_tags flat_map]. fold (language_tags ws).
  rewrite IH. destruct (language w) as [l|]; [|reflexivity].
  destruct (truthy l); reflexivity.
Qed.

Lemma tally_keys_nil (tags : list string) :
  own_keys (tally tags) = [] <-> tags = [].
Proof.
  split.
  - intros H. destruct tags as [|t tags]; [reflexivity|]. exfalso.
    assert (Hin : In t (own_keys (tally (t :: tags)))) by (apply tally_keys_In; now left).
    now rewrite H in Hin.
  - intros ->. reflexivity.
Qed.

(** Where no key is an array index, [Object.keys] lists the keys in the
    order of their creation. *)
Lemma Object_keys_own_keys (o : object) :
  Forall (fun k => array_index k = None) (own_keys o) -> Object_keys o = own_keys o.
Proof.
  unfold Object_keys. cbv zeta. generalize (own_keys o) as ks.
  intros ks H.
  assert (E : filter (fun k => match array_index k with
                               | Some _ => true | None => false end) ks = []
              /\ filter (fun k => negb match array_index k with
                                       | Some _ => true | None => false end) ks = ks).
  { induction H as [|k ks Hk _ [IH1 IH2]]; [now split|].
    cbn [filter]. rewrite Hk. cbn [negb]. rewrite IH1, IH2. now split. }
  destruct E as [-> ->]. reflexivity.
Qed.

Lemma tally_Object_keys (tags : list string) :
  Forall (fun k => array_index k = None) tags ->
  Object_keys (tally tags) = own_keys (tally tags).
Proof.
  intros H. apply Object_keys_own_keys. apply Forall_forall.
  intros k Hk. rewrite Forall_forall in H. apply H.
  exact (proj1 (tally_keys_In tags k) Hk).
Qed.

Lemma speaker_labels_not_index (ids : list Z) :
  Forall (fun k => array_index k = None) (map speaker_label ids).
Proof. apply Forall_forall. intros k Hk. apply in_map_iff in Hk as (id & <- & _). reflexivity. Qed.

Lemma string_of_Z_inj (a b : Z) : string_of_Z a = string_of_Z b -> a = b.
Proof.
  unfold string_of_Z. intros H.
  assert (Hn : forall z, Z.to_int z <> Decimal.Pos Decimal.Nil
                         /\ Z.to_int z <> Decimal.Neg Decimal.Nil).
  { intros [|p|p]; cbn; split; try discriminate; intros [= E];
      now apply (DecimalPos.Unsigned.to_uint_nonnil p). }
  apply (f_equal NilZero.int_of_string) in H.
  rewrite !NilZero.isi in H by apply Hn.
  injection H as H. apply (f_equal Z.of_int) in H.
  now rewrite !DecimalZ.of_to in H.
Qed.

Lemma speaker_label_inj (a b : Z) : speaker_label a = speaker_label b -> a = b.
Proof.
  unfold speaker_label. intros H. apply string_of_Z_inj.
  cbn in H. now injection H.
Qed.

End Tally.

Section Reconciler.

Lemma resolve_speaker_cases (alt : Alternative) :
  let tags := map speaker_label (speaker_tags (words_of alt)) in
  match Object_keys (tally tags) with
  | [] => resolve_speaker alt = "Unknown Speaker"%string
  | first :: others => resolve_speaker alt = reduce_language (tally tags) first others
  end.
Proof.
  unfold resolve_speaker, words_of.
  destruct (words alt) as [[|word ws]|]; try reflexivity.
  cbv zeta. rewrite speakerCounts_tally, dominantSpeaker_reduce.
  set (tags := map speaker_label (speaker_tags (word :: ws))).
  destruct (Object_keys (tally tags)) as [|first others] eqn:Hkeys; [reflexivity|].
  rewrite tally_Object_keys in Hkeys by apply speaker_labels_not_index.
  destruct (reduce_language_last_max tags first others Hkeys)
    as (before & after & Htags & _).
  assert (Hin : In (reduce_language (tally tags) first others) tags)
    by (rewrite Htags at 2; rewrite in_app_iff; cbn; tauto).
  unfold tags in Hin at 2. apply in_map_iff in Hin as (id & <- & _).
  reflexivity.
Qed.

Lemma resolve_language_cases (alt : Alternative) :
  let tags := language_tags (words_of alt) in
  match Object_keys (tally tags) with
  | [] =>
      resolve_language alt
      = match languages alt with
        | Some ls => (ls, or_else (hd_error ls) "en")
        | None => ([], "en"%string)
        end
  | first :: others =>
      resolve_language alt
      = (match languages alt with Some ls => ls | None => [] end,
         reduce_language (tally tags) first others)
  end.
Proof.
  unfold resolve_language, words_of. cbv zeta.
  destruct (words alt) as [[|word ws]|].
  - cbn. destruct (languages alt); reflexivity.
  - rewrite languageCounts_tally.
    destruct (Object_keys (tally (language_tags (word :: ws)))) as [|first others];
      destruct (languages alt); reflexivity.
  - cbn. destruct (languages alt); reflexivity.
Qed.

End Reconciler.

(** C4, as the code has it. When some word of the event carries a speaker
    tag, the reported speaker is the label of the tag with the highest
    occurrence count over the event's words, a tie going to the tied tag
    that was encountered last; labels stand for tags one to one. Words
    [{speaker:0},{speaker:0},{speaker:1}] give "Speaker 0". When no word
    carries a speaker tag, the speaker is "Unknown Speaker". *)
Theorem resolve_speaker_last_max (alt : Alternative) :
  let tags := map speaker_label (speaker_tags (words_of alt)) in
  (tags <> [] -> last_encountered_max tags (resolve_speaker alt))
  /\ (tags = [] -> resolve_speaker alt = "Unknown Speaker"%string)
  /\ (forall a b : Z, speaker_label a = speaker_label b -> a = b)
  /\ resolve_speaker
       (alternative_of
          (Some [word_of_speaker 0; word_of_speaker 0; word_of_speaker 1]) None)
     = "Speaker 0"%string.
Proof.
  intros tags. pose proof (resolve_speaker_cases alt) as H. cbv zeta in H. fold tags in H.
  rewrite tally_Object_keys in H by apply speaker_labels_not_index.
  split; [|split; [|split; [apply speaker_label_inj | reflexivity]]].
  - intros Hne. destruct (own_keys (tally tags)) as [|first others] eqn:Hkeys.
    + exfalso. exact (Hne (proj1 (tally_keys_nil tags) Hkeys)).
    + rewrite H. now apply reduce_language_last_max.
  - intros E. rewrite E in H. exact H.
Qed.

Lemma resolve_speaker_last_max_witness :
  last_encountered_max ["Speaker 0"; "Speaker 1"; "Speaker 1"; "Speaker 0"]%string
    (resolve_speaker
       (alternative_of
          (Some [word_of_speaker 0; word_of_speaker 1; word_of_speaker 1;
                 word_of_speaker 0]) None))
  /\ resolve_speaker (alternative_of (Some [word_of_language "en"]) None)
     = "Unknown Speaker"%string.
Proof.
  split.
  - apply (resolve_speaker_last_max
             (alternative_of
                (Some [word_of_speaker 0; word_of_speaker 1; word_of_speaker 1;
                       word_of_speaker 0]) None)).
    discriminate.
  - apply (resolve_speaker_last_max
             (alternative_of (Some [word_of_language "en"]) None)).
    reflexivity.
Defined.

(** C4, as stated, fails: with words [{speaker:0},{speaker:1}] both tags
    have count one, the first one encountered is "Speaker 0", and the
    code reports "Speaker 1". *)
Lemma resolve_speaker_first_encountered_counterexample :
  first_encountered_max
    (map speaker_label (speaker_tags [word_of_speaker 0; word_of_speaker 1]))
  = Some "Speaker 0"%string
  /\ resolve_speaker (alternative_of (Some [word_of_speaker 0; word_of_speaker 1]) None)
     = "Speaker 1"%string
  /\ Some (resolve_speaker
             (alternative_of (Some [word_of_speaker 0; word_of_speaker 1]) None))
     <> first_encountered_max
          (map speaker_label (speaker_tags [word_of_speaker 0; word_of_speaker 1])).
Proof.
  split; [reflexivity|]. split; [reflexivity|]. discriminate.
Qed.

(** C5, as the code has it. With a detected-languages sequence and no
    word-level language tag, the dominant language is the first element
    of the sequence (a language code, so a non-empty string). With
    word-level language tags, whatever the sequence, it is the word tag
    with the highest occurrence count, a tie going to the tied tag that
    was encountered last. This is stated for tags that are language
    codes: none is an array-index numeral, which [Object.keys] would
    list first, and none is a name that an object literal inherits, for
    which the count would not start from zero. Sequence ["es","en"]
    alone gives "es"; with word tags en, en, es it gives "en"; with
    word tags en, es it gives "es". *)
Theorem resolve_language_word_level_overrides (alt : Alternative) :
  let tags := language_tags (words_of alt) in
  (forall (l : string) (ls : list string),
     languages alt = Some (l :: ls) -> truthy l = true -> tags = [] ->
     resolve_language alt = (l :: ls, l))
  /\ (tags <> [] ->
      Forall (fun t => array_index t = None) tags ->
      Forall (fun t => Observed.inherited t = false) tags ->
      fst (resolve_language alt)
      = match languages alt with Some ls => ls | None => [] end
      /\ last_encountered_max tags (snd (resolve_language alt)))
  /\ resolve_language (alternative_of None (Some ["es"; "en"]%string))
     = (["es"; "en"]%string, "es"%string)
  /\ resolve_language
       (alternative_of
          (Some [word_of_language "en"; word_of_language "en"; word_of_language "es"])
          (Some ["es"; "en"]%string))
     = (["es"; "en"]%string, "en"%string)
  /\ resolve_language
       (alternative_of
          (Some [word_of_language "en"; word_of_language "es"])
          (Some ["en"; "es"]%string))
     = (["en"; "es"]%string, "es"%string).
Proof.
  intros tags. pose proof (resolve_language_cases alt) as H. cbv zeta in H. fold tags in H.
  split; [|split; [|split; [|split]; reflexivity]].
  - intros l ls Hl Ht E. rewrite E in H. cbn in H. rewrite H, Hl. cbn. now rewrite Ht.
  - intros Hne Hcodes _. rewrite tally_Object_keys in H by exact Hcodes.
    destruct (own_keys (tally tags)) as [|first others] eqn:Hkeys.
    + exfalso. exact (Hne (proj1 (tally_keys_nil tags) Hkeys)).
    + rewrite H. cbn [fst snd]. split; [reflexivity|].
      now apply reduce_language_last_max.
Qed.

Lemma resolve_language_word_level_overrides_witness :
  resolve_language (alternative_of (Some [word_of_speaker 0]) (Some ["fr"; "en"]%string))
  = (["fr"; "en"]%string, "fr"%string)
  /\ last_encountered_max ["en"; "es"; "es"; "en"]%string
       (snd (resolve_language
               (alternative_of
                  (Some [word_of_language "en"; word_of_language "es";
                         word_of_language "es"; word_of_language "en"])
                  (Some ["fr"]%string)))).
Proof.
  split.
  - apply (resolve_language_word_level_overrides
             (alternative_of (Some [word_of_speaker 0]) (Some ["fr"; "en"]%string)));
      reflexivity.
  - apply (resolve_language_word_level_overrides
             (alternative_of
                (Some [word_of_language "en"; word_of_language "es";
                       word_of_language "es"; word_of_language "en"])
                (Some ["fr"]%string))).
    + discriminate.
    + repeat constructor.
    + repeat constructor.
Defined.

(** C5, as stated, fails when ties are broken by the order of encounter
    in favour of the tag met first: with word tags en, es both have
    count one, the first one encountered is "en", and the code reports
    "es". *)
Lemma resolve_language_first_encountered_counterexample :
  first_encountered_max
    (language_tags [word_of_language "en"; word_of_language "es"])
  = Some "en"%string
  /\ snd (resolve_language
            (alternative_of (Some [word_of_language "en"; word_of_language "es"]) None))
     = "es"%string
  /\ Some (snd (resolve_language
                  (alternative_of
                     (Some [word_of_language "en"; word_of_language "es"]) None)))
     <> first_encountered_max
          (language_tags [word_of_language "en"; word_of_language "es"]).
Proof.
  split; [reflexivity|]. split; [reflexivity|]. discriminate.
Qed.

(** C10. A Results message whose first alternative has a non-empty
    transcript makes [ws.onmessage] post exactly one utterance record; its
    language is the resolved dominant language, always a string, and when
    the alternative has neither a languages sequence nor a word-level
    language tag that language is "en" and the detected-languages list is
    empty. *)
Theorem utterance_language_defaults_to_en
        (msg : Message) (alt : Alternative) (rest : list Alternative) (w : World) :
  type msg = Some "Results"%string ->
  alternatives msg = alt :: rest ->
  truthy (or_else (transcript alt) "") = true ->
  exists u,
    trace (ws_onmessage (Some msg) w) = trace (connectBg w) ++ [bgPort_postMessage u]
    /\ post_text u = or_else (transcript alt) ""
    /\ post_language u = snd (resolve_language alt)
    /\ post_detectedLanguages u = fst (resolve_language alt)
    /\ (languages alt = None -> language_tags (words_of alt) = [] ->
        post_language u = "en"%string /\ post_detectedLanguages u = []).
Proof.
  intros Htype Halt Htext. unfold ws_onmessage, is_Results.
  rewrite Htype, Halt. cbn [String.eqb Ascii.eqb Bool.eqb hd_error].
  rewrite Htext. cbn [negb].
  destruct (resolve_language alt) as [detected dominant] eqn:Hres.
  assert (Hbg : bgPort (connectBg w) = true)
    by (unfold connectBg; destruct (bgPort w) eqn:E; [exact E | reflexivity]).
  rewrite Hbg. eexists. split; [reflexivity|]. cbn.
  split; [reflexivity|]. split; [reflexivity|]. split; [reflexivity|].
  intros Hnone Htags.
  pose proof (resolve_language_cases alt) as H. cbv zeta in H.
  rewrite Htags, Hnone in H. cbn in H. rewrite Hres in H. now injection H as -> ->.
Qed.

Lemma utterance_language_defaults_to_en_witness :
  exists u,
    trace (ws_onmessage
             (Some (results_message (alternative_of (Some [word_of_speaker 0]) None)))
             open_world)
    = trace (connectBg open_world) ++ [bgPort_postMessage u]
    /\ post_text u = "hola"%string
    /\ post_language u = "en"%string
    /\ post_detectedLanguages u = [].
Proof.
  destruct (utterance_language_defaults_to_en
              (results_message (alternative_of (Some [word_of_speaker 0]) None))
              (alternative_of (Some [word_of_speaker 0]) None) [] open_world
              eq_refl eq_refl eq_refl)
    as (u & Htrace & Htext & _ & _ & Hdefault).
  exists u. split; [exact Htrace|]. split; [exact Htext|].
  apply Hdefault; reflexivity.
Defined.

(** ** The one-shot fallback *)

Arguments fallback_connections : simpl never.

Section Fallback.

Lemma fallback_connections_app (t1 t2 : list Effect) :
  fallback_connections (t1 ++ t2)
  = (fallback_connections t1 + fallback_connections t2)%nat.
Proof. unfold fallback_connections. now rewrite filter_app, length_app. Qed.

Lemma fallback_connections_sends (chunks : list (list byte)) :
  fallback_connections (map ws_send chunks) = 0%nat.
Proof. induction chunks as [|c chunks IH]; [reflexivity | exact IH]. Qed.

Lemma fallback_connections_one (e : Effect) :
  fallback_connections [e]
  = match e with WebSocket_new opus => 1%nat | _ => 0%nat end.
Proof. destruct e as [[]| | | | | | | |]; reflexivity. Qed.

Ltac count_connections :=
  cbn;
  rewrite ?fallback_connections_app, ?fallback_connections_sends,
    ?fallback_connections_one;
  change (fallback_connections []) with 0%nat in *;
  cbn.

(** The chunker neither touches the session's flags nor connects,
    whatever state it is called in. *)
Lemma drain_effects (w : World) :
  exists chunks w',
    drain w = Returned w'
    /\ same_session w w'
    /\ trace w' = trace w ++ (if is_open w then map ws_send chunks else []).
Proof.
  funelim (drain w); try rewrite <- Heqcall.
  - exists [], w. split; [reflexivity|]. split; [apply same_session_refl|].
    destruct (is_open w); cbn [map]; now rewrite app_nil_r.
  - destruct (send_chunk_spec w) as (out & q & Hrun & _).
    pose proof E as E'. rewrite Hrun in E'. injection E' as Ew. subst w'.
    set (w0 := set_pcmBytesPending _ _) in *.
    destruct (send_if_open_same out w0) as (Hs1 & _ & _ & Ht1).
    destruct H as (chunks & w' & Hd & Hs & Ht).
    exists (out :: chunks), w'. split; [exact Hd|]. split.
    + eapply same_session_trans; [|exact Hs].
      eapply same_session_trans; [|exact Hs1].
      unfold same_session. cbn. repeat split; reflexivity.
    + rewrite Ht, Ht1, (same_session_open _ _ Hs1).
      change (is_open w0) with (is_open w). change (trace w0) with (trace w).
      destruct (is_open w); cbn [map app]; rewrite <- ?app_assoc; reflexivity.
  - destruct (send_chunk_spec w) as (out & q & Hrun & _). congruence.
Qed.

Lemma worklet_onmessage_effects (input : option (list Q)) (w : World) :
  triedOpusFallback (world_of (worklet_onmessage input w)) = triedOpusFallback w
  /\ fallback_connections (trace (world_of (worklet_onmessage input w)))
     = fallback_connections (trace w).
Proof.
  unfold worklet_onmessage.
  destruct input as [input|]; [|now split].
  destruct (negb (is_open w)); [now split|].
  destruct (currentMode w); [|now split].
  destruct (downsampleBuffer _ _ _) as [down|e]; [|now split].
  destruct (floatTo16BitPCM down) as [pcmBuffer|e]; [|now split].
  unfold enqueuePcm. cbv zeta.
  set (w1 := set_pcmBytesPending _ _).
  destruct (drain_effects w1) as (chunks & w' & -> & Hs & Ht).
  cbn [world_of]. split.
  - destruct Hs as (_ & _ & _ & -> & _). reflexivity.
  - rewrite Ht. change (trace w1) with (trace w).
    destruct (is_open w1); count_connections; lia.
Qed.

Lemma ws_onmessage_effects (data : option Message) (w : World) :
  triedOpusFallback (ws_onmessage data w) = triedOpusFallback w
  /\ fallback_connections (trace (ws_onmessage data w))
     = fallback_connections (trace w).
Proof.
  unfold ws_onmessage. destruct data as [msg|]; [|now split].
  destruct (if is_Results msg then _ else _) as [alt|].
  - destruct (negb _); [now split|].
    destruct (resolve_language alt) as [dl l]. unfold connectBg.
    destruct (bgPort w) eqn:Hbg; cbn; rewrite ?Hbg; count_connections;
      split; reflexivity || lia.
  - destruct (type msg) as [t|]; [|now split].
    destruct (_ && _); [|now split].
    count_connections. split; reflexivity || lia.
Qed.

(** A close that finds the session in PCM mode with the fallback
    unused starts the fallback, once. *)
Lemma ws_onclose_first (code : Z) (reason : string) (w : World) :
  currentMode w = pcm -> triedOpusFallback w = false ->
  triedOpusFallback (ws_onclose code reason w) = true
  /\ currentMode (ws_onclose code reason w) = opus
  /\ ws (ws_onclose code reason w) = Some CONNECTING
  /\ fallback_connections (trace (ws_onclose code reason w))
     = S (fallback_connections (trace w)).
Proof.
  intros Hm Ht. unfold ws_onclose, startOpusFallback, postStatus.
  destruct (keepAliveTimer w); cbn; rewrite Hm, Ht; cbn;
    destruct (ws w); cbn; destruct (opusSupported w); cbn;
    destruct (mediaRecorder w); count_connections; repeat split; lia.
Qed.

(** Any other close is only reported. *)
Lemma ws_onclose_later (code : Z) (reason : string) (w : World) :
  triedOpusFallback w = true \/ currentMode w = opus ->
  ws_onclose code reason w
  = postStatus ("Deepgram socket closed (" ++ string_of_Z code ++ ") " ++ reason)
               (set_keepAliveTimer false w).
Proof.
  intros H. unfold ws_onclose, postStatus.
  destruct w as [s b k t m r q p sr os tr]. cbn in *.
  destruct k, m, t; cbn; try reflexivity; destruct H; discriminate.
Qed.

Lemma step_fallback (w : World) (e : Event) :
  (triedOpusFallback w = true ->
   triedOpusFallback (step w e) = true
   /\ fallback_connections (trace (step w e)) = fallback_connections (trace w))
  /\ (triedOpusFallback w = false ->
      (triedOpusFallback (step w e) = false
       /\ fallback_connections (trace (step w e)) = fallback_connections (trace w))
      \/ (triedOpusFallback (step w e) = true
          /\ fallback_connections (trace (step w e))
             = S (fallback_connections (trace w)))).
Proof.
  assert (Hsame : forall w', triedOpusFallback w' = triedOpusFallback w ->
            fallback_connections (trace w') = fallback_connections (trace w) ->
            (triedOpusFallback w = true ->
             triedOpusFallback w' = true
             /\ fallback_connections (trace w') = fallback_connections (trace w))
            /\ (triedOpusFallback w = false ->
                (triedOpusFallback w' = false
                 /\ fallback_connections (trace w') = fallback_connections (trace w))
                \/ (triedOpusFallback w' = true
                    /\ fallback_connections (trace w')
                       = S (fallback_connections (trace w))))).
  { intros w' -> ->. split; intros E; [|left]; now split. }
  destruct e as [| |r| |data| |code rsn|input|]; cbn [step].
  - apply Hsame; count_connections; reflexivity || lia.
  - apply Hsame; unfold stopAll;
      destruct (ws w); cbn; destruct (keepAliveTimer w); cbn;
      destruct (mediaRecorder w); count_connections; reflexivity || lia.
  - apply Hsame; destruct (ws w); reflexivity.
  - apply Hsame; count_connections; reflexivity || lia.
  - apply Hsame; apply ws_onmessage_effects.
  - apply Hsame; count_connections; reflexivity || lia.
  - destruct (triedOpusFallback w) eqn:Ht.
    + rewrite ws_onclose_later by (left; exact Ht). count_connections.
      split; [intros _; split; [exact Ht | lia] | discriminate].
    + split; [discriminate|]. intros _.
      destruct (currentMode w) eqn:Hm.
      * right. destruct (ws_onclose_first code rsn w Hm Ht) as (H1 & _ & _ & H2).
        now split.
      * left. rewrite ws_onclose_later by (right; exact Hm). count_connections.
        split; [exact Ht | lia].
  - apply Hsame; apply worklet_onmessage_effects.
  - apply Hsame; unfold keepAlive_tick;
      destruct (keepAliveTimer w); try reflexivity;
      destruct (is_open w); count_connections; reflexivity || lia.
Qed.

Lemma run_fallback (events : list Event) (w : World) :
  (fallback_connections (trace (run events w))
   <= fallback_connections (trace w) + (if triedOpusFallback w then 0 else 1))%nat.
Proof.
  revert w. induction events as [|e events IH]; intros w.
  - cbn. lia.
  - unfold run in *. cbn [fold_left]. specialize (IH (step w e)).
    destruct (step_fallback w e) as [Htrue Hfalse].
    destruct (triedOpusFallback w).
    + destruct (Htrue eq_refl) as [E1 E2]. rewrite E1 in IH. lia.
    + destruct (Hfalse eq_refl) as [[E1 E2]|[E1 E2]]; rewrite E1 in IH; lia.
Qed.

End Fallback.

(** C3. A close that finds the session in PCM mode with the fallback not
    yet consumed opens one connection in opus mode, switches to opus
    mode and marks the fallback consumed; any close after that, or in
    opus mode, only clears the keep-alive timer and reports the close;
    hence whatever happens (closes, other handler runs, stops and
    restarts), at most one fallback connection is ever opened, none once
    the flag is set, and two consecutive closes give one fallback
    followed by a mere report. *)
Theorem fallback_at_most_once :
  (forall (w : World) (code : Z) (reason : string),
     currentMode w = pcm -> triedOpusFallback w = false ->
     triedOpusFallback (ws_onclose code reason w) = true
     /\ currentMode (ws_onclose code reason w) = opus
     /\ ws (ws_onclose code reason w) = Some CONNECTING
     /\ fallback_connections (trace (ws_onclose code reason w))
        = S (fallback_connections (trace w)))
  /\ (forall (w : World) (code : Z) (reason : string),
        triedOpusFallback w = true \/ currentMode w = opus ->
        ws_onclose code reason w
        = postStatus ("Deepgram socket closed (" ++ string_of_Z code ++ ") " ++ reason)
                     (set_keepAliveTimer false w))
  /\ (forall (w : World) (events : list Event),
        (fallback_connections (trace (run events w))
         <= fallback_connections (trace w)
            + (if triedOpusFallback w then 0 else 1))%nat)
  /\ (forall (w : World) (code1 code2 : Z) (reason1 reason2 : string),
        currentMode w = pcm -> triedOpusFallback w = false ->
        let w1 := ws_onclose code1 reason1 w in
        let w2 := ws_onclose code2 reason2 w1 in
        fallback_connections (trace w2) = S (fallback_connections (trace w))
        /\ trace w2
           = trace w1 ++ [STATUS_UPDATE ("Deepgram socket closed ("
                                           ++ string_of_Z code2 ++ ") " ++ reason2)]).
Proof.
  split; [|split; [|split]].
  - intros w code reason. apply ws_onclose_first.
  - intros w code reason. apply ws_onclose_later.
  - intros w events. apply run_fallback.
  - intros w code1 code2 reason1 reason2 Hm Ht w1 w2.
    destruct (ws_onclose_first code1 reason1 w Hm Ht) as (H1 & _ & _ & H2).
    fold w1 in H1, H2. unfold w2.
    rewrite ws_onclose_later by (left; exact H1). cbn.
    rewrite fallback_connections_app, H2, fallback_connections_one.
    split; [lia | reflexivity].
Qed.

Lemma fallback_at_most_once_witness :
  (triedOpusFallback (ws_onclose 1006 "" open_world) = true
   /\ currentMode (ws_onclose 1006 "" open_world) = opus
   /\ ws (ws_onclose 1006 "" open_world) = Some CONNECTING
   /\ fallback_connections (trace (ws_onclose 1006 "" open_world))
      = S (fallback_connections (trace open_world)))
  /\ ws_onclose 1000 "bye" (ws_onclose 1006 "" open_world)
     = postStatus "Deepgram socket closed (1000) bye"
         (set_keepAliveTimer false (ws_onclose 1006 "" open_world))
  /\ fallback_connections
       (trace (ws_onclose 1000 "bye" (ws_onclose 1006 "" open_world)))
     = S (fallback_connections (trace open_world)).
Proof.
  destruct fallback_at_most_once as (Hfirst & Hlater & _ & Htwo).
  split; [apply (Hfirst open_world 1006 ""%string); reflexivity|].
  split; [apply (Hlater (ws_onclose 1006 "" open_world) 1000 "bye"%string);
          left; reflexivity|].
  apply (Htwo open_world 1006 1000 ""%string "bye"%string); reflexivity.
Defined.

(** * Further properties of the code *)

Import Observed.

(** ** The resampler: size, range and coverage of its output *)

Section ResamplerBounds.







End ResamplerBounds.





(** ** Conversion to 16-bit PCM: what a reader of the bytes gets *)

Section Pcm16Readback.

Lemma Qtrunc_Qfloor (x : Q) : (0 <= x)%Q -> Qtrunc x = Qfloor x.
Proof.
  destruct x as [n d]. unfold Qle, Qtrunc, Qfloor. cbn [Qnum Qden].
  intros H. apply Z.quot_div_nonneg; lia.
Qed.

Lemma Qtrunc_opp (x : Q) : Qtrunc (- x) = - Qtrunc x.
Proof. destruct x as [n d]. unfold Qtrunc. cbn [Qopp Qnum Qden]. apply Z.quot_opp_l. lia. Qed.

(** Truncation moves a number towards zero by less than one. *)
Lemma Qtrunc_nonneg (x : Q) :
  (0 <= x)%Q -> (inject_Z (Qtrunc x) <= x)%Q /\ (x < inject_Z (Qtrunc x) + 1)%Q.
Proof.
  intros H. rewrite Qtrunc_Qfloor by exact H.
  pose proof (Qfloor_le x). pose proof (Qlt_floor x) as U.
  rewrite inject_Z_plus in U. change (inject_Z 1) with 1%Q in U. split; lra.
Qed.

Lemma Qtrunc_nonpos (x : Q) :
  (x <= 0)%Q -> (x <= inject_Z (Qtrunc x))%Q /\ (inject_Z (Qtrunc x) < x + 1)%Q.
Proof.
  intros H. assert (Hn : (0 <= - x)%Q) by lra.
  destruct (Qtrunc_nonneg (- x) Hn) as [L U].
  rewrite Qtrunc_opp, inject_Z_opp in L, U. split; lra.
Qed.

Lemma Qtrunc_le (x y : Q) : (x <= y)%Q -> Qtrunc x <= Qtrunc y.
Proof.
  intros H. destruct (Qlt_le_dec x 0) as [Hx|Hx]; destruct (Qlt_le_dec y 0) as [Hy|Hy].
  - assert (Hx' : (0 <= - x)%Q) by lra. assert (Hy' : (0 <= - y)%Q) by lra.
    pose proof (Qtrunc_Qfloor _ Hx') as Ex. pose proof (Qtrunc_Qfloor _ Hy') as Ey.
    rewrite Qtrunc_opp in Ex, Ey.
    assert (Hf : Qfloor (- y) <= Qfloor (- x)) by (apply Qfloor_resp_le; lra).
    lia.
  - assert (Hx' : (x <= 0)%Q) by lra.
    destruct (Qtrunc_nonpos x Hx') as [_ U]. destruct (Qtrunc_nonneg y Hy) as [_ U'].
    assert (A : (inject_Z (Qtrunc x) < inject_Z 1)%Q)
      by (change (inject_Z 1) with 1%Q; lra).
    assert (B : (inject_Z (-1) < inject_Z (Qtrunc y))%Q)
      by (change (inject_Z (-1)) with (-1)%Q; lra).
    rewrite <- Zlt_Qlt in A, B. lia.
  - lra.
  - rewrite !Qtrunc_Qfloor by lra. now apply Qfloor_resp_le.
Qed.

Lemma clamp_cases (x : Q) :
  ((1 <= x)%Q /\ clamp x = 1%Q)
  \/ ((-1 <= x)%Q /\ (x < 1)%Q /\ clamp x = x)
  \/ ((x < -1)%Q /\ clamp x = (-1)%Q).
Proof.
  unfold clamp. destruct (Qle_bool 1 x) eqn:E1.
  - left. apply Qle_bool_iff in E1. now split.
  - assert (H1 : ~ (1 <= x)%Q) by (rewrite <- Qle_bool_iff; congruence).
    destruct (Qle_bool (-1) x) eqn:E2.
    + right; left. apply Qle_bool_iff in E2. repeat split; [exact E2 | lra].
    + right; right.
      assert (H2 : ~ (-1 <= x)%Q) by (rewrite <- Qle_bool_iff; congruence).
      split; [lra | reflexivity].
Qed.

Lemma scale_cases (s : Q) :
  ((s < 0)%Q /\ scale s = (s * 32768)%Q) \/ ((0 <= s)%Q /\ scale s = (s * 32767)%Q).
Proof.
  unfold scale, Qlt_bool. destruct (Qle_bool 0 s) eqn:E; cbn [negb].
  - right. apply Qle_bool_iff in E. now split.
  - left. assert (H : ~ (0 <= s)%Q) by (rewrite <- Qle_bool_iff; congruence).
    split; [lra | reflexivity].
Qed.

Lemma scale_clamp_le (x y : Q) : (x <= y)%Q -> (scale (clamp x) <= scale (clamp y))%Q.
Proof.
  intros H.
  destruct (clamp_cases x) as [[Hx ->]|[(Hx & Hx' & ->)|[Hx ->]]];
    destruct (clamp_cases y) as [[Hy ->]|[(Hy & Hy' & ->)|[Hy ->]]];
    match goal with
    | |- (scale ?a <= scale ?b)%Q =>
        destruct (scale_cases a) as [[Ha Ea]|[Ha Ea]];
        destruct (scale_cases b) as [[Hb Eb]|[Hb Eb]];
        rewrite ?Ea, ?Eb
    end; lra.
Qed.

Lemma pcm16_le (x y : Q) : (x <= y)%Q -> pcm16 x <= pcm16 y.
Proof. intros H. unfold pcm16. now apply Qtrunc_le, scale_clamp_le. Qed.

Lemma pcm16_high (x : Q) : (1 <= x)%Q -> pcm16 x = 32767.
Proof.
  intros H. unfold pcm16.
  destruct (clamp_cases x) as [[_ ->]|[(_ & Hx & _)|[Hx _]]]; [reflexivity | lra | lra].
Qed.

Lemma pcm16_low (x : Q) : (x <= -1)%Q -> pcm16 x = -32768.
Proof.
  intros H. unfold pcm16.
  destruct (clamp_cases x) as [[Hx _]|[(Hx & Hx' & E)|[_ ->]]]; [lra | | reflexivity].
  rewrite E. destruct (scale_cases x) as [[_ ->]|[Hs _]]; [|lra].
  assert (L : -32768 <= Qtrunc (x * 32768)).
  { apply Qtrunc_bounds with (b := 0);
      [change (inject_Z (-32768)) with (-32768)%Q | change (inject_Z 0) with 0%Q]; lra. }
  assert (U : Qtrunc (x * 32768) <= -32768).
  { apply Qtrunc_bounds with (a := -32768);
      change (inject_Z (-32768)) with (-32768)%Q; lra. }
  lia.
Qed.

(** The integer stored for a sample of the nominal range is the scaled
    sample, moved towards zero by less than one unit. *)
Lemma pcm16_error (x : Q) :
  (-1 <= x <= 1)%Q ->
  ((0 <= x)%Q ->
   (32767 * x - 1 < inject_Z (pcm16 x))%Q /\ (inject_Z (pcm16 x) <= 32767 * x)%Q)
  /\ ((x <= 0)%Q ->
      (32768 * x <= inject_Z (pcm16 x))%Q /\ (inject_Z (pcm16 x) < 32768 * x + 1)%Q).
Proof.
  intros [Hlo Hhi]. unfold pcm16.
  assert (E : (clamp x == x)%Q) by (apply clamp_inside; now split).
  destruct (scale_cases (clamp x)) as [[Hs ->]|[Hs ->]]; split; intros Hx.
  - lra.
  - assert (Hn : (clamp x * 32768 <= 0)%Q) by lra.
    destruct (Qtrunc_nonpos _ Hn). split; lra.
  - assert (Hn : (0 <= clamp x * 32767)%Q) by lra.
    destruct (Qtrunc_nonneg _ Hn). split; lra.
  - assert (Hn : (clamp x * 32767 <= 0)%Q) by lra.
    destruct (Qtrunc_nonpos _ Hn). split; lra.
Qed.

Lemma flat_map_pairs_length {A} (g : A -> list byte) (a : list A) :
  (forall x, List.length (g x) = 2%nat) ->
  List.length (flat_map g a) = (2 * List.length a)%nat.
Proof.
  intros Hg. induction a as [|x a IH]; [reflexivity|].
  cbn [flat_map List.length]. rewrite length_app, Hg, IH. lia.
Qed.

Lemma flat_map_pair_at {A} (g : A -> list byte) (a : list A) (n : nat) (d : A) :
  (forall x, List.length (g x) = 2%nat) -> (n < List.length a)%nat ->
  firstn 2 (skipn (2 * n) (flat_map g a)) = g (nth n a d).
Proof.
  intros Hg. revert n. induction a as [|x a IH]; intros n Hn; [cbn in Hn; lia|].
  cbn [flat_map]. destruct n as [|n].
  - change (2 * 0)%nat with 0%nat. cbn [skipn nth]. rewrite firstn_app, Hg.
    replace (2 - 2)%nat with 0%nat by lia. rewrite firstn_O, app_nil_r.
    apply firstn_all2. rewrite Hg. lia.
  - cbn [nth]. rewrite skipn_app, Hg.
    rewrite skipn_all2 by (rewrite Hg; lia). cbn [app].
    replace (2 * S n - 2)%nat with (2 * n)%nat by lia.
    apply IH. cbn in Hn. lia.
Qed.

Lemma floatTo16BitPCM_bytes (a : list Q) :
  floatTo16BitPCM a = Normal (flat_map (fun x => le_split 2 (pcm16 x)) a).
Proof.
  unfold floatTo16BitPCM. rewrite floatTo16BitPCM_loop_closed.
  - reflexivity.
  - pose proof (len_nonneg a). lia.
  - reflexivity.
  - unfold zeros, len. rewrite repeat_length. lia.
Qed.

(** Two bytes per sample, and the pair at byte offset [2 * i] reads
    back as the integer stored for sample [i]. *)
Lemma floatTo16BitPCM_samples (a : list Q) :
  exists bytes,
    floatTo16BitPCM a = Normal bytes
    /\ len bytes = 2 * len a
    /\ forall i, 0 <= i < len a -> getInt16 bytes (2 * i) = pcm16 (get a i).
Proof.
  eexists. split; [apply floatTo16BitPCM_bytes|]. split.
  - unfold len. rewrite flat_map_pairs_length by (intros; apply length_le_split). lia.
  - intros i Hi. unfold len in Hi.
    pose proof (getInt16_le_split (pcm16 (get a i)) (pcm16_range _)) as R.
    unfold getInt16, subarray in *.
    replace (Z.to_nat (2 * i + 2 - 2 * i)) with 2%nat by lia.
    replace (Z.to_nat (2 * i)) with (2 * Z.to_nat i)%nat by lia.
    rewrite (flat_map_pair_at (fun x => le_split 2 (pcm16 x)) a (Z.to_nat i) 0%Q)
      by (intros; apply length_le_split || lia).
    fold (get a i).
    replace (firstn (Z.to_nat (0 + 2 - 0)) (skipn (Z.to_nat 0) (le_split 2 (pcm16 (get a i)))))
      with (le_split 2 (pcm16 (get a i))) in R by reflexivity.
    exact R.
Qed.

End Pcm16Readback.

(** X4. [floatTo16BitPCM] never throws and writes two bytes per sample;
    for a sample [x] of the nominal range [-1, 1], the signed
    little-endian integer at byte offset [2 * i] is the scaled sample
    moved towards zero by less than one unit: it lies in
    [(32767 x - 1, 32767 x]] for [x >= 0] and in [[32768 x, 32768 x + 1)]
    for [x <= 0]. *)
Theorem floatTo16BitPCM_quantisation (float32Array : list Q) (i : Z) :
  0 <= i < len float32Array ->
  (-1 <= get float32Array i <= 1)%Q ->
  exists bytes,
    floatTo16BitPCM float32Array = Normal bytes
    /\ len bytes = 2 * len float32Array
    /\ ((0 <= get float32Array i)%Q ->
        (32767 * get float32Array i - 1 < inject_Z (getInt16 bytes (2 * i)))%Q
        /\ (inject_Z (getInt16 bytes (2 * i)) <= 32767 * get float32Array i)%Q)
    /\ ((get float32Array i <= 0)%Q ->
        (32768 * get float32Array i <= inject_Z (getInt16 bytes (2 * i)))%Q
        /\ (inject_Z (getInt16 bytes (2 * i)) < 32768 * get float32Array i + 1)%Q).
Proof.
  intros Hi Hx.
  destruct (floatTo16BitPCM_samples float32Array) as (bytes & Hrun & Hlen & Hget).
  exists bytes. split; [exact Hrun|]. split; [exact Hlen|].
  rewrite (Hget i Hi). apply pcm16_error. exact Hx.
Qed.

Lemma floatTo16BitPCM_quantisation_witness :
  exists bytes,
    floatTo16BitPCM [1 # 3; -(1 # 3)]%Q = Normal bytes
    /\ len bytes = 2 * len [1 # 3; -(1 # 3)]%Q
    /\ ((0 <= get [1 # 3; -(1 # 3)]%Q 1)%Q ->
        (32767 * get [1 # 3; -(1 # 3)]%Q 1 - 1 < inject_Z (getInt16 bytes (2 * 1)))%Q
        /\ (inject_Z (getInt16 bytes (2 * 1)) <= 32767 * get [1 # 3; -(1 # 3)]%Q 1)%Q)
    /\ ((get [1 # 3; -(1 # 3)]%Q 1 <= 0)%Q ->
        (32768 * get [1 # 3; -(1 # 3)]%Q 1 <= inject_Z (getInt16 bytes (2 * 1)))%Q
        /\ (inject_Z (getInt16 bytes (2 * 1)) < 32768 * get [1 # 3; -(1 # 3)]%Q 1 + 1)%Q).
Proof.
  apply (floatTo16BitPCM_quantisation [1 # 3; -(1 # 3)]%Q 1).
  - vm_compute. split; [discriminate | reflexivity].
  - split; unfold Qle; simpl; lia.
Defined.

(** X5. The conversion preserves the order of samples and saturates
    outside the nominal range: a sample that is not smaller than
    another is stored as an integer that is not smaller; every sample
    [>= 1] is stored as 32767 and every sample [<= -1] as -32768. *)
Theorem floatTo16BitPCM_monotone_saturating (float32Array : list Q) :
  exists bytes,
    floatTo16BitPCM float32Array = Normal bytes
    /\ (forall i j,
          0 <= i < len float32Array -> 0 <= j < len float32Array ->
          (get float32Array i <= get float32Array j)%Q ->
          getInt16 bytes (2 * i) <= getInt16 bytes (2 * j))
    /\ (forall i, 0 <= i < len float32Array ->
          (1 <= get float32Array i)%Q -> getInt16 bytes (2 * i) = 32767)
    /\ (forall i, 0 <= i < len float32Array ->
          (get float32Array i <= -1)%Q -> getInt16 bytes (2 * i) = -32768).
Proof.
  destruct (floatTo16BitPCM_samples float32Array) as (bytes & Hrun & Hlen & Hget).
  exists bytes. split; [exact Hrun|]. split; [|split].
  - intros i j Hi Hj H. rewrite (Hget i Hi), (Hget j Hj). now apply pcm16_le.
  - intros i Hi H. rewrite (Hget i Hi). now apply pcm16_high.
  - intros i Hi H. rewrite (Hget i Hi). now apply pcm16_low.
Qed.

Lemma floatTo16BitPCM_monotone_saturating_witness :
  exists bytes,
    floatTo16BitPCM [1 # 3; 5 # 2; -4]%Q = Normal bytes
    /\ getInt16 bytes (2 * 0) <= getInt16 bytes (2 * 1)
    /\ getInt16 bytes (2 * 1) = 32767
    /\ getInt16 bytes (2 * 2) = -32768.
Proof.
  destruct (floatTo16BitPCM_monotone_saturating [1 # 3; 5 # 2; -4]%Q)
    as (bytes & Hrun & Hmono & Hhigh & Hlow).
  exists bytes. split; [exact Hrun|]. split; [|split].
  - apply Hmono; [vm_compute; split; [discriminate | reflexivity] ..
                 | unfold Qle; simpl; lia].
  - apply Hhigh; [vm_compute; split; [discriminate | reflexivity]
                 | unfold Qle; simpl; lia].
  - apply Hlow; [vm_compute; split; [discriminate | reflexivity]
                | unfold Qle; simpl; lia].
Defined.

(** ** The chunker and the handlers: what is sent, and when *)

Section Emissions.

(** The draining loop in any state: it returns, every chunk it cuts has
    3200 bytes, and the chunks are sent exactly when the socket is open. *)
Lemma drain_frames (w : World) :
  exists chunks w',
    drain w = Returned w'
    /\ Forall (fun c => len c = PCM_TARGET_CHUNK_BYTES) chunks
    /\ same_session w w'
    /\ trace w' = trace w ++ (if is_open w then map ws_send chunks else []).
Proof.
  funelim (drain w); try rewrite <- Heqcall.
  - exists [], w. split; [reflexivity|]. split; [constructor|].
    split; [apply same_session_refl|].
    destruct (is_open w); cbn [map]; now rewrite app_nil_r.
  - destruct (send_chunk_spec w) as (out & q & Hrun & Hout & _).
    pose proof E as E'. rewrite Hrun in E'. injection E' as Ew. subst w'.
    set (w0 := set_pcmBytesPending _ _) in *.
    destruct (send_if_open_same out w0) as (Hs1 & _ & _ & Ht1).
    destruct H as (chunks & w' & Hd & Hall & Hs & Ht).
    exists (out :: chunks), w'. split; [exact Hd|].
    split; [constructor; assumption|]. split.
    + eapply same_session_trans; [|exact Hs].
      eapply same_session_trans; [|exact Hs1].
      unfold same_session. cbn. repeat split; reflexivity.
    + rewrite Ht, Ht1, (same_session_open _ _ Hs1).
      change (is_open w0) with (is_open w). change (trace w0) with (trace w).
      destruct (is_open w); cbn [map app]; rewrite <- ?app_assoc; reflexivity.
  - destruct (send_chunk_spec w) as (out & q & Hrun & _). congruence.
Qed.

Lemma downsampleBuffer_Normal_rate (buffer result : list Q) (sr osr : Q) :
  downsampleBuffer buffer sr osr = Normal result -> (osr <= sr)%Q.
Proof.
  unfold downsampleBuffer. destruct (Qeq_bool osr sr) eqn:E.
  - intros _. apply Qeq_bool_eq in E. lra.
  - unfold Qlt_bool. destruct (Qle_bool osr sr) eqn:E'; cbn [negb]; [|discriminate].
    intros _. now apply Qle_bool_iff.
Qed.

(** What one run of the worklet handler adds to the trace. *)
Lemma worklet_onmessage_delta (input : option (list Q)) (w : World) :
  exists chunks,
    Forall (fun c => len c = PCM_TARGET_CHUNK_BYTES) chunks
    /\ same_session w (world_of (worklet_onmessage input w))
    /\ trace (world_of (worklet_onmessage input w)) = trace w ++ map ws_send chunks
    /\ (chunks <> [] ->
        is_open w = true /\ currentMode w = pcm
        /\ (TARGET_SAMPLE_RATE <= sampleRate w)%Q).
Proof.
  assert (Hnone : exists chunks : list (list byte),
            Forall (fun c => len c = PCM_TARGET_CHUNK_BYTES) chunks
            /\ same_session w w
            /\ trace w = trace w ++ map ws_send chunks
            /\ (chunks <> [] ->
                is_open w = true /\ currentMode w = pcm
                /\ (TARGET_SAMPLE_RATE <= sampleRate w)%Q)).
  { exists []. split; [constructor|]. split; [apply same_session_refl|].
    split; [cbn [map]; now rewrite app_nil_r | congruence]. }
  unfold worklet_onmessage.
  destruct input as [input|]; [|exact Hnone].
  destruct (is_open w) eqn:Hopen; cbn [negb]; [|exact Hnone].
  destruct (currentMode w) eqn:Hmode; [|exact Hnone].
  destruct (downsampleBuffer _ _ _) as [down|e] eqn:Hdown; [|exact Hnone].
  destruct (floatTo16BitPCM down) as [pcmBuffer|e]; [|exact Hnone].
  unfold enqueuePcm. cbv zeta.
  set (w1 := set_pcmBytesPending _ _).
  destruct (drain_frames w1) as (chunks & w' & -> & Hall & Hs & Ht).
  exists chunks. cbn [world_of]. split; [exact Hall|]. split; [|split].
  - eapply same_session_trans; [|exact Hs].
    unfold same_session. cbn. repeat split; reflexivity.
  - rewrite Ht. change (is_open w1) with (is_open w). rewrite Hopen. reflexivity.
  - intros _. split; [reflexivity|]. split; [reflexivity|].
    eapply downsampleBuffer_Normal_rate. exact Hdown.
Qed.

(** What [ws.onmessage] changes: the port to the background page and
    the trace, where it adds the opening of the port, one record, or
    one status. *)
Lemma ws_onmessage_delta (data : option Message) (w : World) :
  exists extra,
    trace (ws_onmessage data w) = trace w ++ extra
    /\ Forall (guarded w (onmessage data)) extra
    /\ ws (ws_onmessage data w) = ws w
    /\ keepAliveTimer (ws_onmessage data w) = keepAliveTimer w
    /\ triedOpusFallback (ws_onmessage data w) = triedOpusFallback w
    /\ currentMode (ws_onmessage data w) = currentMode w
    /\ mediaRecorder (ws_onmessage data w) = mediaRecorder w
    /\ pcmQueue (ws_onmessage data w) = pcmQueue w
    /\ pcmBytesPending (ws_onmessage data w) = pcmBytesPending w
    /\ (bgPort w = true -> bgPort (ws_onmessage data w) = true).
Proof.
  assert (Hnone : exists extra,
            trace w = trace w ++ extra
            /\ Forall (guarded w (onmessage data)) extra
            /\ ws w = ws w /\ keepAliveTimer w = keepAliveTimer w
            /\ triedOpusFallback w = triedOpusFallback w
            /\ currentMode w = currentMode w /\ mediaRecorder w = mediaRecorder w
            /\ pcmQueue w = pcmQueue w /\ pcmBytesPending w = pcmBytesPending w
            /\ (bgPort w = true -> bgPort w = true)).
  { exists []. rewrite app_nil_r. repeat split; auto. }
  unfold ws_onmessage. destruct data as [msg|]; [|exact Hnone].
  destruct (is_Results msg) eqn:Hres.
  - destruct (hd_error (alternatives msg)) as [alt|] eqn:Halt.
    + destruct (truthy (or_else (transcript alt) "")) eqn:Htext; cbn [negb];
        [|exact Hnone].
      destruct (resolve_language alt) as [dl l] eqn:Hlang.
      assert (Hpost : forall u,
                u = {| post_type := if is_final msg then "DG_TRANSCRIPT_FINAL"
                                    else "DG_TRANSCRIPT_INTERIM";
                       post_text := or_else (transcript alt) "";
                       post_speaker := resolve_speaker alt;
                       post_language := l;
                       post_detectedLanguages := dl;
                       post_words := words alt |} ->
                guarded w (onmessage (Some msg)) (bgPort_postMessage u)).
      { intros u ->. exists msg, alt. cbn. rewrite Hlang. repeat split; auto. }
      unfold connectBg. destruct (bgPort w) eqn:Hbg; cbn; rewrite ?Hbg; cbn.
      * eexists. split; [reflexivity|]. split; [|repeat split; auto].
        constructor; [|constructor]. now apply Hpost.
      * eexists. split; [rewrite <- app_assoc; reflexivity|].
        split; [|repeat split; auto].
        constructor; [|constructor; [|constructor]].
        -- cbn. split; [exact Hbg|]. exists msg. now split.
        -- now apply Hpost.
    + destruct (type msg) as [t|] eqn:Ht; [|exact Hnone].
      destruct (truthy t && includes (toLowerCase t) "error") eqn:Herr; [|exact Hnone].
      apply andb_prop in Herr as [_ Herr].
      eexists. split; [reflexivity|]. split; [|repeat split; auto].
      constructor; [|constructor]. cbn. exists t. now split.
  - destruct (type msg) as [t|] eqn:Ht; [|exact Hnone].
    destruct (truthy t && includes (toLowerCase t) "error") eqn:Herr; [|exact Hnone].
    apply andb_prop in Herr as [_ Herr].
    eexists. split; [reflexivity|]. split; [|repeat split; auto].
    constructor; [|constructor]. cbn. exists t. now split.
Qed.

Ltac emitted :=
  eexists; split;
  [ cbn; rewrite <- ?app_assoc; cbn [app];
    first [reflexivity | symmetry; apply app_nil_r]
  | repeat (apply Forall_cons || apply Forall_nil);
    cbn; unfold starts_fallback; cbn; intuition (auto; congruence) ].

(** Every effect of a handler run is one its guard allows. *)
Lemma step_emits (w : World) (e : Event) :
  exists extra,
    trace (step w e) = trace w ++ extra /\ Forall (guarded w e) extra.
Proof.
  destruct e as [| |r| |data| |code rsn|input|]; cbn [step].
  - emitted.
  - unfold stopAll. destruct w as [s b k t m r q p sr os tr].
    destruct s, k, r; emitted.
  - destruct (ws w); emitted.
  - emitted.
  - destruct (ws_onmessage_delta data w) as (extra & Ht & Hall & _).
    exists extra. now split.
  - emitted.
  - unfold ws_onclose, startOpusFallback, postStatus.
    destruct w as [s b k t m r q p sr os tr].
    destruct s, k, t, m, r, os; emitted.
  - destruct (worklet_onmessage_delta input w) as (chunks & Hall & _ & Ht & Hguard).
    exists (map ws_send chunks). split; [exact Ht|].
    apply Forall_map. destruct chunks as [|c chunks]; [constructor|].
    destruct Hguard as (Ho & Hm & Hr); [discriminate|].
    eapply Forall_impl; [|exact Hall]. intros d Hd. cbn. auto.
  - unfold keepAlive_tick. destruct (keepAliveTimer w) eqn:Hk; [|emitted].
    destruct (is_open w) eqn:Ho; emitted.
Qed.

(** Effects accumulate: a property of the effects that every handler
    run keeps, along the events of a given kind and under an invariant
    of the state, holds for everything a sequence of events adds. *)
Lemma run_emits (E : Event -> Prop) (I : World -> Prop) (P : Effect -> Prop) :
  (forall w e, E e -> I w -> I (step w e)) ->
  (forall w e eff, E e -> I w -> guarded w e eff -> P eff) ->
  forall events w, Forall E events -> I w ->
    I (run events w)
    /\ exists extra, trace (run events w) = trace w ++ extra /\ Forall P extra.
Proof.
  intros Hinv Hp. induction events as [|e events IH]; intros w HE HI.
  - split; [exact HI|]. exists []. cbn. rewrite app_nil_r. now split.
  - apply Forall_cons_iff in HE as [He HE].
    destruct (step_emits w e) as (extra1 & Ht1 & Hall1).
    destruct (IH (step w e) HE (Hinv w e He HI)) as (HI' & extra2 & Ht2 & Hall2).
    split; [exact HI'|].
    exists (extra1 ++ extra2). unfold run in *. cbn [fold_left].
    rewrite Ht2, Ht1, <- app_assoc. split; [reflexivity|].
    apply Forall_app. split; [|exact Hall2].
    eapply Forall_impl; [|exact Hall1]. intros eff Hg. now apply (Hp w e).
Qed.

Lemma frames_app (t1 t2 : list Effect) : frames (t1 ++ t2) = frames t1 ++ frames t2.
Proof. unfold frames. apply flat_map_app. Qed.

Lemma keepAlives_app (t1 t2 : list Effect) :
  keepAlives (t1 ++ t2) = (keepAlives t1 + keepAlives t2)%nat.
Proof. unfold keepAlives. now rewrite filter_app, length_app. Qed.

Lemma posts_app (t1 t2 : list Effect) : posts (t1 ++ t2) = posts t1 ++ posts t2.
Proof. unfold posts. apply flat_map_app. Qed.

Lemma connects_app (t1 t2 : list Effect) :
  connects (t1 ++ t2) = (connects t1 + connects t2)%nat.
Proof. unfold connects. now rewrite filter_app, length_app. Qed.

Lemma socket_effects_app (t1 t2 : list Effect) :
  socket_effects (t1 ++ t2) = socket_effects t1 ++ socket_effects t2.
Proof. unfold socket_effects. apply filter_app. Qed.

End Emissions.

Section SessionFacts.

Lemma forallb_Forall {A} (f : A -> bool) (l : list A) :
  forallb f l = true -> Forall (fun x => f x = true) l.
Proof. intros H. apply Forall_forall. now apply forallb_forall. Qed.

(** Only the worklet handler touches the pending audio. *)
Lemma step_pending (w : World) (e : Event) :
  delivers_audio e = false ->
  pcmQueue (step w e) = pcmQueue w /\ pcmBytesPending (step w e) = pcmBytesPending w.
Proof.
  destruct e as [| |r| |data| |code rsn|input|]; cbn [step delivers_audio];
    intros He; try discriminate.
  - now split.
  - unfold stopAll. destruct w as [s b k t m r q p sr os tr].
    destruct s, k, r; now split.
  - destruct (ws w); now split.
  - now split.
  - destruct (ws_onmessage_delta data w) as (_ & _ & _ & _ & _ & _ & _ & _ & Hq & Hp & _).
    now split.
  - now split.
  - unfold ws_onclose, startOpusFallback, postStatus.
    destruct w as [s b k t m r q p sr os tr].
    destruct s, k, t, m, r, os; now split.
  - unfold keepAlive_tick. destruct (keepAliveTimer w); [|now split].
    destruct (is_open w); now split.
Qed.

Lemma run_pending (events : list Event) (w : World) :
  Forall (fun e => delivers_audio e = false) events ->
  pcmQueue (run events w) = pcmQueue w
  /\ pcmBytesPending (run events w) = pcmBytesPending w.
Proof.
  revert w. induction events as [|e events IH]; intros w H; [now split|].
  apply Forall_cons_iff in H as [He H].
  destruct (step_pending w e He) as [Hq Hp].
  destruct (IH (step w e) H) as [Hq' Hp'].
  unfold run in *. cbn [fold_left]. split; congruence.
Qed.

(** The state of the transport after a handler that is neither a start
    nor a first close. *)
Lemma step_transport (w : World) (e : Event) :
  starts_session e = false ->
  triedOpusFallback w = true \/ currentMode w = opus ->
  currentMode (step w e) = currentMode w
  /\ triedOpusFallback (step w e) = triedOpusFallback w
  /\ (ws w = None -> ws (step w e) = None).
Proof.
  destruct e as [| |r| |data| |code rsn|input|]; cbn [step starts_session];
    intros He Hused; try discriminate.
  - unfold stopAll. destruct w as [s b k t m r q p sr os tr].
    destruct s, k, r; cbn; auto.
  - destruct (ws w) eqn:Hws; cbn; auto. repeat split; auto. discriminate.
  - cbn. auto.
  - destruct (ws_onmessage_delta data w) as (_ & _ & _ & Hws & _ & Ht & Hm & _).
    rewrite Hws, Ht, Hm. auto.
  - cbn. auto.
  - rewrite ws_onclose_later by exact Hused. cbn. auto.
  - destruct (worklet_onmessage_delta input w)
      as (_ & _ & (Hws & _ & _ & Ht & Hm & _) & _).
    rewrite Hws, Ht, Hm. auto.
  - unfold keepAlive_tick. destruct (keepAliveTimer w); [|auto].
    destruct (is_open w); cbn; auto.
Qed.

Lemma step_keepAliveTimer (w : World) (e : Event) :
  opens_socket e = false -> keepAliveTimer w = false ->
  keepAliveTimer (step w e) = false.
Proof.
  destruct e as [| |r| |data| |code rsn|input|]; cbn [step opens_socket];
    intros He Hk; try discriminate.
  - exact Hk.
  - unfold stopAll. destruct w as [s b k t m r q p sr os tr].
    destruct s, k, r; cbn in *; auto.
  - destruct (ws w); exact Hk.
  - destruct (ws_onmessage_delta data w) as (_ & _ & _ & _ & -> & _). exact Hk.
  - exact Hk.
  - unfold ws_onclose, startOpusFallback, postStatus.
    destruct w as [s b k t m r q p sr os tr].
    destruct s, k, t, m, r, os; cbn in *; auto.
  - destruct (worklet_onmessage_delta input w) as (_ & _ & (_ & _ & -> & _) & _).
    exact Hk.
  - rewrite Hk. exact Hk.
Qed.

Lemma frames_guarded (extra : list Effect) :
  Forall (fun eff => match eff with
                     | ws_send data => len data = PCM_TARGET_CHUNK_BYTES
                     | _ => True
                     end) extra ->
  Forall (fun c => len c = PCM_TARGET_CHUNK_BYTES) (frames extra).
Proof.
  induction 1 as [|eff extra H _ IH]; [constructor|].
  destruct eff; cbn; auto.
Qed.

Lemma socket_effects_none (extra : list Effect) :
  Forall (fun eff => socket_effects [eff] = []) extra -> socket_effects extra = [].
Proof.
  induction 1 as [|eff extra H _ IH]; [reflexivity|].
  change (eff :: extra) with ([eff] ++ extra).
  now rewrite socket_effects_app, H, IH.
Qed.

Lemma keepAlives_none (extra : list Effect) :
  Forall (fun eff => eff <> ws_send_KeepAlive) extra -> keepAlives extra = 0%nat.
Proof.
  induction 1 as [|eff extra H _ IH]; [reflexivity|].
  change (eff :: extra) with ([eff] ++ extra). rewrite keepAlives_app, IH.
  destruct eff; try reflexivity. congruence.
Qed.

End SessionFacts.

(** X6. One call of [enqueuePcm] in a state whose counter agrees with
    its queue: with [p] bytes pending and [n] bytes passed, it cuts
    [(p + n) / 3200] chunks, which are the first bytes of the pending
    audio followed by the new range, and leaves [(p + n) mod 3200] bytes
    pending; the chunks are sent when the socket is open. *)
Theorem enqueuePcm_accounting (arrayBuffer : list byte) (w : World) :
  pcmBytesPending w = queued_bytes (pcmQueue w) ->
  exists chunks w',
    enqueuePcm arrayBuffer w = Returned w'
    /\ len chunks = (pcmBytesPending w + len arrayBuffer) / PCM_TARGET_CHUNK_BYTES
    /\ pcmBytesPending w'
       = (pcmBytesPending w + len arrayBuffer) mod PCM_TARGET_CHUNK_BYTES
    /\ concat chunks
       = firstn (Z.to_nat (PCM_TARGET_CHUNK_BYTES * len chunks))
                (concat (pcmQueue w) ++ arrayBuffer)
    /\ trace w' = trace w ++ (if is_open w then map ws_send chunks else []).
Proof.
  intros Hc.
  destruct (enqueuePcm_spec arrayBuffer w Hc)
    as (chunks & w' & Hrun & Hall & Hcat & Hc' & Hlt & _ & Ht).
  exists chunks, w'. split; [exact Hrun|].
  pose proof (concat_chunks_len chunks Hall) as Hlen.
  pose proof (consistent_nonneg w' Hc') as Hnn.
  assert (Hsum : pcmBytesPending w + len arrayBuffer
                 = PCM_TARGET_CHUNK_BYTES * len chunks + pcmBytesPending w').
  { unfold consistent in Hc'. rewrite Hc, Hc', !queued_bytes_concat.
    rewrite <- Hlen. unfold len. rewrite <- !Nat2Z.inj_add, <- !length_app.
    now rewrite Hcat. }
  unfold PCM_TARGET_CHUNK_BYTES in *.
  split; [|split; [|split; [|exact Ht]]].
  - apply (Z.div_unique _ 3200 _ (pcmBytesPending w')); lia.
  - apply (Z.mod_unique _ 3200 (len chunks)); lia.
  - rewrite <- Hcat, <- Hlen. unfold len. rewrite Nat2Z.id.
    rewrite firstn_app, Nat.sub_diag, firstn_all. cbn [firstn]. now rewrite app_nil_r.
Qed.

Lemma enqueuePcm_accounting_witness :
  exists chunks w',
    enqueuePcm (repeat Byte.x01 5) (set_ws (Some OPEN) closed_world) = Returned w'
    /\ len chunks
       = (pcmBytesPending (set_ws (Some OPEN) closed_world) + len (repeat Byte.x01 5))
         / PCM_TARGET_CHUNK_BYTES
    /\ pcmBytesPending w'
       = (pcmBytesPending (set_ws (Some OPEN) closed_world) + len (repeat Byte.x01 5))
         mod PCM_TARGET_CHUNK_BYTES
    /\ concat chunks
       = firstn (Z.to_nat (PCM_TARGET_CHUNK_BYTES * len chunks))
                (concat (pcmQueue (set_ws (Some OPEN) closed_world)) ++ repeat Byte.x01 5)
    /\ trace w'
       = trace (set_ws (Some OPEN) closed_world)
         ++ (if is_open (set_ws (Some OPEN) closed_world)
             then map ws_send chunks else []).
Proof.
  apply (enqueuePcm_accounting (repeat Byte.x01 5) (set_ws (Some OPEN) closed_world)).
  vm_compute. reflexivity.
Defined.

(** X7. Pending audio outlives the session: no handler other than the
    worklet's touches [pcmQueue] or [pcmBytesPending], neither a stop
    nor a restart nor the fallback clears them; so when audio arrives
    again on an open socket, the first chunk sent starts with the bytes
    that were pending before. *)
Theorem pending_audio_outlives_the_session
        (w : World) (events : list Event) (arrayBuffer : list byte) :
  forallb (fun e => negb (delivers_audio e)) events = true ->
  pcmBytesPending w = queued_bytes (pcmQueue w) ->
  pcmQueue (run events w) = pcmQueue w
  /\ pcmBytesPending (run events w) = pcmBytesPending w
  /\ (is_open (run events w) = true ->
      PCM_TARGET_CHUNK_BYTES <= pcmBytesPending w + len arrayBuffer ->
      exists chunk chunks w',
        enqueuePcm arrayBuffer (run events w) = Returned w'
        /\ trace w' = trace (run events w) ++ ws_send chunk :: map ws_send chunks
        /\ chunk = firstn (Z.to_nat PCM_TARGET_CHUNK_BYTES)
                          (concat (pcmQueue w) ++ arrayBuffer)).
Proof.
  intros Hev Hc.
  assert (Hev' : Forall (fun e => delivers_audio e = false) events).
  { apply forallb_Forall in Hev. eapply Forall_impl; [|exact Hev].
    intros e He. now apply negb_true_iff in He. }
  destruct (run_pending events w Hev') as [Hq Hp].
  split; [exact Hq|]. split; [exact Hp|].
  intros Hopen Hfull.
  assert (Hc1 : consistent (run events w)) by (unfold consistent; congruence).
  destruct (enqueuePcm_spec arrayBuffer (run events w) Hc1)
    as (chunks & w' & Hrun & Hall & Hcat & Hc' & Hlt & _ & Ht).
  rewrite Hopen in Ht. rewrite Hq in Hcat.
  destruct chunks as [|chunk chunks].
  - exfalso. cbn [concat app] in Hcat. unfold consistent in Hc'.
    rewrite queued_bytes_concat, Hcat in Hc'.
    rewrite Hc, queued_bytes_concat in Hfull.
    unfold len in *. rewrite length_app in Hc'. lia.
  - exists chunk, chunks, w'. split; [exact Hrun|]. split; [exact Ht|].
    apply Forall_cons_iff in Hall as [Hlen _].
    rewrite <- Hcat. cbn [concat]. rewrite <- app_assoc.
    rewrite firstn_app. unfold len in Hlen. rewrite <- Hlen, Nat2Z.id.
    rewrite Nat.sub_diag, firstn_all. cbn [firstn]. now rewrite app_nil_r.
Qed.

Lemma pending_audio_outlives_the_session_witness :
  pcmQueue (run [OFFSCREEN_STOP; OFFSCREEN_START; readyState_becomes OPEN; onopen]
                closed_world)
  = pcmQueue closed_world
  /\ exists chunk chunks w',
       enqueuePcm [Byte.x01; Byte.x01]
         (run [OFFSCREEN_STOP; OFFSCREEN_START; readyState_becomes OPEN; onopen]
              closed_world) = Returned w'
       /\ trace w'
          = trace (run [OFFSCREEN_STOP; OFFSCREEN_START; readyState_becomes OPEN; onopen]
                       closed_world)
            ++ ws_send chunk :: map ws_send chunks
       /\ chunk = firstn (Z.to_nat PCM_TARGET_CHUNK_BYTES)
                         (concat (pcmQueue closed_world) ++ [Byte.x01; Byte.x01]).
Proof.
  destruct (pending_audio_outlives_the_session closed_world
              [OFFSCREEN_STOP; OFFSCREEN_START; readyState_becomes OPEN; onopen]
              [Byte.x01; Byte.x01])
    as (Hq & _ & Hfirst); [reflexivity | vm_compute; reflexivity |].
  split; [exact Hq|]. apply Hfirst; [reflexivity | vm_compute; discriminate].
Defined.

(** X8. Every effect has its guard. Whatever the state, a run of a
    handler (a start, a stop, the open, message, error and close
    handlers of a socket, the worklet handler, the keep-alive callback)
    only adds effects that its guard allows: a PCM connection is only
    opened by a start and an opus connection only by a close that finds
    PCM mode with the fallback unused; a socket is only closed by a
    stop or by that first close, and only when there is one; of these
    handlers only the worklet handler sends a binary frame, on an open
    socket, in PCM mode, at a capture rate of at least 16 kHz, and the
    frame has 3200 bytes; a keep-alive is only sent by the timer
    callback while the timer is set and the socket open; the port to
    the background page is only opened by [ws.onmessage] when there is
    none, and a record is only posted for a Results message with a
    non-empty transcript. Along a sequence of these events this holds
    run after run, each guard read in the state its run starts from.
    The one other sender of binary frames is the recorder's
    [ondataavailable], which is not one of these events: it sends the
    blob it is given, as it is and whatever the mode, when the blob is
    not empty and the socket is open as the handler starts, and does
    nothing otherwise. *)
Theorem effects_are_guarded :
  (forall (w : World) (e : Event),
     exists extra,
       trace (step w e) = trace w ++ extra /\ Forall (guarded w e) extra)
  /\ (forall (events : list Event) (w : World),
        exists extra,
          trace (run events w) = trace w ++ extra /\ guarded_along w events extra)
  /\ (forall (blob : list byte) (w later : World),
        0 < len blob -> is_open w = true ->
        Recorder.ondataavailable (Some blob) w later = emit (ws_send blob) later)
  /\ (forall (data : option (list byte)) (w later : World),
        data = None \/ data = Some [] \/ is_open w = false ->
        Recorder.ondataavailable data w later = w).
Proof.
  split; [exact step_emits|]. split; [|split].
  - induction events as [|e events IH]; intros w.
    + exists []. cbn. rewrite app_nil_r. now split.
    + destruct (step_emits w e) as (first & Ht1 & Hall1).
      destruct (IH (step w e)) as (rest & Ht2 & Hall2).
      exists (first ++ rest). unfold run in *. cbn [fold_left].
      rewrite Ht2, Ht1, <- app_assoc. split; [reflexivity|].
      cbn [guarded_along]. exists first, rest. auto.
  - intros blob w later Hlen Ho. unfold Recorder.ondataavailable, Recorder.proceeds.
    rewrite Ho. replace (len blob =? 0) with false by (symmetry; apply Z.eqb_neq; lia).
    reflexivity.
  - intros data w later [->|[->|Ho]]; [reflexivity | reflexivity |].
    unfold Recorder.ondataavailable, Recorder.proceeds. destruct data; [|reflexivity].
    now rewrite Ho, andb_false_r.
Qed.

Lemma effects_are_guarded_witness :
  Recorder.ondataavailable (Some [Byte.x01; Byte.x02]) open_world (stopAll open_world)
  = emit (ws_send [Byte.x01; Byte.x02]) (stopAll open_world)
  /\ Recorder.ondataavailable (Some [Byte.x01]) closed_world open_world = closed_world.
Proof.
  destruct effects_are_guarded as (_ & _ & Hsend & Hskip). split.
  - apply Hsend; [reflexivity | reflexivity].
  - apply Hskip. right. right. reflexivity.
Defined.

(** X9. Every audio frame the chunker sends has exactly 3200 bytes,
    in every state and over every sequence of events: there is no short
    last frame, a remainder stays queued instead. *)
Theorem frames_have_chunk_size :
  (forall (w : World) (events : list Event),
     exists sent,
       frames (trace (run events w)) = frames (trace w) ++ sent
       /\ Forall (fun c => len c = PCM_TARGET_CHUNK_BYTES) sent)
  /\ (forall (rate : Q) (supported : bool) (events : list Event),
        Forall (fun c => len c = PCM_TARGET_CHUNK_BYTES)
               (frames (trace (run events (initial rate supported))))).
Proof.
  assert (Hany : forall (w : World) (events : list Event),
            exists sent,
              frames (trace (run events w)) = frames (trace w) ++ sent
              /\ Forall (fun c => len c = PCM_TARGET_CHUNK_BYTES) sent).
  { intros w events.
    destruct (run_emits (fun _ => True) (fun _ => True)
                (fun eff => match eff with
                            | ws_send data => len data = PCM_TARGET_CHUNK_BYTES
                            | _ => True
                            end)) with (events := events) (w := w)
      as (_ & extra & Ht & Hall); auto.
    - intros w0 e eff _ _ Hg. destruct eff; auto. apply Hg.
    - apply Forall_forall. auto.
    - exists (frames extra). rewrite Ht, frames_app. split; [reflexivity|].
      now apply frames_guarded. }
  split; [exact Hany|].
  intros rate supported events.
  destruct (Hany (initial rate supported) events) as (sent & -> & Hall). exact Hall.
Qed.

(** X10. Keep-alive messages are only sent between an open and the next
    close or stop: a close and a stop both leave the timer cleared, and
    from a state with the timer cleared no sequence of events without an
    [onopen] sets it again or sends a keep-alive. *)
Theorem keepAlive_stops_with_the_socket :
  (forall (w : World) (code : Z) (reason : string),
     keepAliveTimer (ws_onclose code reason w) = false)
  /\ (forall w : World, keepAliveTimer (stopAll w) = false)
  /\ (forall (w : World) (events : list Event),
        keepAliveTimer w = false ->
        forallb (fun e => negb (opens_socket e)) events = true ->
        keepAliveTimer (run events w) = false
        /\ keepAlives (trace (run events w)) = keepAlives (trace w)).
Proof.
  split; [|split].
  - intros w code reason. unfold ws_onclose, startOpusFallback, postStatus.
    destruct w as [s b k t m r q p sr os tr].
    destruct s, k, t, m, r, os; reflexivity.
  - intros w. unfold stopAll. destruct w as [s b k t m r q p sr os tr].
    destruct s, k, r; reflexivity.
  - intros w events Hk Hev.
    destruct (run_emits (fun e => opens_socket e = false)
                (fun w => keepAliveTimer w = false)
                (fun eff => eff <> ws_send_KeepAlive)) with (events := events) (w := w)
      as (Hk' & extra & Ht & Hall).
    + intros w0 e He Hk0. now apply step_keepAliveTimer.
    + intros w0 e eff _ Hk0 Hg ->. destruct Hg as (_ & Hk1 & _). congruence.
    + apply forallb_Forall in Hev. eapply Forall_impl; [|exact Hev].
      intros e He. now apply negb_true_iff in He.
    + exact Hk.
    + split; [exact Hk'|].
      rewrite Ht, keepAlives_app, (keepAlives_none extra Hall). lia.
Qed.

Lemma keepAlive_stops_with_the_socket_witness :
  keepAliveTimer (run [keepAlive_interval; OFFSCREEN_START; readyState_becomes OPEN;
                       keepAlive_interval]
                      (ws_onclose 1006 "" open_world)) = false
  /\ keepAlives (trace (run [keepAlive_interval; OFFSCREEN_START;
                             readyState_becomes OPEN; keepAlive_interval]
                            (ws_onclose 1006 "" open_world)))
     = keepAlives (trace (ws_onclose 1006 "" open_world)).
Proof.
  destruct keepAlive_stops_with_the_socket as (Hclose & _ & Hrun).
  apply (Hrun (ws_onclose 1006 "" open_world)
              [keepAlive_interval; OFFSCREEN_START; readyState_becomes OPEN;
               keepAlive_interval]).
  - apply Hclose.
  - reflexivity.
Defined.

(** X11. A stopped session stays silent once the fallback is out of the
    way: when there is no socket and the fallback has been used (or the
    mode is opus), no sequence of handler runs without a new start
    creates a socket, closes one or sends anything on one. *)
Theorem stopped_session_stays_silent (w : World) (events : list Event) :
  ws w = None ->
  triedOpusFallback w = true \/ currentMode w = opus ->
  forallb (fun e => negb (starts_session e)) events = true ->
  ws (run events w) = None
  /\ socket_effects (trace (run events w)) = socket_effects (trace w).
Proof.
  intros Hws Hused Hev.
  destruct (run_emits (fun e => starts_session e = false)
              (fun w => ws w = None
                        /\ (triedOpusFallback w = true \/ currentMode w = opus))
              (fun eff => socket_effects [eff] = [])) with (events := events) (w := w)
    as ((Hws' & _) & extra & Ht & Hall).
  - intros w0 e He [Hws0 Hused0].
    destruct (step_transport w0 e He Hused0) as (Hm & Htr & Hnone).
    rewrite Hm, Htr. auto.
  - intros w0 e eff He [Hws0 Hused0] Hg.
    destruct eff as [[]| | | | | | | |]; try reflexivity; exfalso; cbn in Hg.
    + subst e. discriminate.
    + destruct Hg as (_ & Hm & Htr). destruct Hused0; congruence.
    + destruct Hg as [Hg _]. congruence.
    + destruct Hg as (_ & Ho & _). unfold is_open in Ho. rewrite Hws0 in Ho. discriminate.
    + destruct Hg as (_ & _ & Ho). unfold is_open in Ho. rewrite Hws0 in Ho. discriminate.
  - apply forallb_Forall in Hev. eapply Forall_impl; [|exact Hev].
    intros e He. now apply negb_true_iff in He.
  - now split.
  - split; [exact Hws'|].
    rewrite Ht, socket_effects_app, (socket_effects_none extra Hall).
    apply app_nil_r.
Qed.

Lemma stopped_session_stays_silent_witness :
  ws (run [onclose 1000 ""; keepAlive_interval; worklet_message (Some [1 # 2]%Q); onopen]
          (stopAll (ws_onclose 1006 "" open_world))) = None
  /\ socket_effects
       (trace (run [onclose 1000 ""; keepAlive_interval;
                    worklet_message (Some [1 # 2]%Q); onopen]
                   (stopAll (ws_onclose 1006 "" open_world))))
     = socket_effects (trace (stopAll (ws_onclose 1006 "" open_world))).
Proof.
  apply (stopped_session_stays_silent (stopAll (ws_onclose 1006 "" open_world))
           [onclose 1000 ""%string; keepAlive_interval;
            worklet_message (Some [1 # 2]%Q); onopen]).
  - reflexivity.
  - left. reflexivity.
  - reflexivity.
Defined.

(** X12. Stopping a session that is in PCM mode with the fallback unused
    does not end it: the close of the socket that the stop closed finds
    PCM mode and the flag unset, so it opens a connection in opus mode
    and consumes the one fallback of the document. *)
Theorem close_after_stop_starts_the_fallback (w : World) (code : Z) (reason : string) :
  currentMode w = pcm -> triedOpusFallback w = false ->
  ws (stopAll w) = None
  /\ ws (run [OFFSCREEN_STOP; onclose code reason] w) = Some CONNECTING
  /\ currentMode (run [OFFSCREEN_STOP; onclose code reason] w) = opus
  /\ triedOpusFallback (run [OFFSCREEN_STOP; onclose code reason] w) = true
  /\ fallback_connections (trace (run [OFFSCREEN_STOP; onclose code reason] w))
     = S (fallback_connections (trace w)).
Proof.
  intros Hm Ht.
  assert (Hstop : ws (stopAll w) = None /\ currentMode (stopAll w) = pcm
                  /\ triedOpusFallback (stopAll w) = false
                  /\ fallback_connections (trace (stopAll w))
                     = fallback_connections (trace w)).
  { unfold stopAll. destruct w as [s b k t m r q p sr os tr]. cbn in Hm, Ht. subst.
    destruct s, k, r; cbn;
      rewrite ?fallback_connections_app, ?fallback_connections_one;
      repeat split; lia. }
  destruct Hstop as (Hws & Hm' & Ht' & Hn).
  split; [exact Hws|].
  change (run [OFFSCREEN_STOP; onclose code reason] w)
    with (ws_onclose code reason (stopAll w)).
  destruct (ws_onclose_first code reason (stopAll w) Hm' Ht') as (H1 & H2 & H3 & H4).
  rewrite H4, Hn. auto.
Qed.

Lemma close_after_stop_starts_the_fallback_witness :
  ws (stopAll open_world) = None
  /\ ws (run [OFFSCREEN_STOP; onclose 1005 ""] open_world) = Some CONNECTING
  /\ currentMode (run [OFFSCREEN_STOP; onclose 1005 ""] open_world) = opus
  /\ triedOpusFallback (run [OFFSCREEN_STOP; onclose 1005 ""] open_world) = true
  /\ fallback_connections (trace (run [OFFSCREEN_STOP; onclose 1005 ""] open_world))
     = S (fallback_connections (trace open_world)).
Proof.
  apply (close_after_stop_starts_the_fallback open_world 1005 ""%string); reflexivity.
Defined.

(** X13. Opus mode switches the PCM path off for good: without a new
    start the mode stays opus whatever happens, the pending audio is
    never touched, and every audio block that reaches the worklet
    handler is ignored. *)
Theorem opus_mode_ignores_the_worklet (w : World) (events : list Event) :
  currentMode w = opus ->
  forallb (fun e => negb (starts_session e)) events = true ->
  currentMode (run events w) = opus
  /\ pcmQueue (run events w) = pcmQueue w
  /\ pcmBytesPending (run events w) = pcmBytesPending w
  /\ forall input, worklet_onmessage input (run events w) = Returned (run events w).
Proof.
  intros Hm Hev.
  assert (Hignore : forall w0 input,
            currentMode w0 = opus -> worklet_onmessage input w0 = Returned w0).
  { intros w0 input H0. unfold worklet_onmessage. rewrite H0.
    destruct input; [|reflexivity]. destruct (negb (is_open w0)); reflexivity. }
  apply forallb_Forall in Hev.
  revert w Hm. induction Hev as [|e events He _ IH]; intros w Hm.
  - cbn. auto.
  - apply negb_true_iff in He.
    assert (Hstep : currentMode (step w e) = opus
                    /\ pcmQueue (step w e) = pcmQueue w
                    /\ pcmBytesPending (step w e) = pcmBytesPending w).
    { destruct (step_transport w e He (or_intror Hm)) as (Hm' & _).
      split; [congruence|].
      destruct (delivers_audio e) eqn:Ha.
      - destruct e; try discriminate. cbn [step]. rewrite Hignore by exact Hm. now split.
      - now apply step_pending. }
    destruct Hstep as (Hm' & Hq & Hp).
    destruct (IH (step w e) Hm') as (H1 & H2 & H3 & H4).
    unfold run in *. cbn [fold_left]. rewrite H2, H3. auto.
Qed.

Lemma opus_mode_ignores_the_worklet_witness :
  currentMode (run [readyState_becomes OPEN; onopen; worklet_message (Some [1 # 2]%Q);
                    onclose 1000 ""; OFFSCREEN_STOP]
                   (ws_onclose 1006 "" open_world)) = opus
  /\ worklet_onmessage (Some [1 # 2]%Q)
       (run [readyState_becomes OPEN; onopen; worklet_message (Some [1 # 2]%Q);
             onclose 1000 ""; OFFSCREEN_STOP]
            (ws_onclose 1006 "" open_world))
     = Returned (run [readyState_becomes OPEN; onopen; worklet_message (Some [1 # 2]%Q);
                      onclose 1000 ""; OFFSCREEN_STOP]
                     (ws_onclose 1006 "" open_world)).
Proof.
  destruct (opus_mode_ignores_the_worklet (ws_onclose 1006 "" open_world)
              [readyState_becomes OPEN; onopen; worklet_message (Some [1 # 2]%Q);
               onclose 1000 ""%string; OFFSCREEN_STOP])
    as (Hm & _ & _ & Hw); [reflexivity | reflexivity |].
  split; [exact Hm | apply Hw].
Defined.

(** X14. No inbound message changes the transport: whatever the server
    sends (a result, an error report, something else, something that
    does not parse), [ws.onmessage] leaves the socket, the mode, the
    fallback flag, the keep-alive timer, the recorder and the pending
    audio as they are and adds no socket effect; an error report is
    only passed on as a status. *)
Theorem ws_onmessage_keeps_the_transport (data : option Message) (w : World) :
  ws (ws_onmessage data w) = ws w
  /\ keepAliveTimer (ws_onmessage data w) = keepAliveTimer w
  /\ triedOpusFallback (ws_onmessage data w) = triedOpusFallback w
  /\ currentMode (ws_onmessage data w) = currentMode w
  /\ mediaRecorder (ws_onmessage data w) = mediaRecorder w
  /\ pcmQueue (ws_onmessage data w) = pcmQueue w
  /\ pcmBytesPending (ws_onmessage data w) = pcmBytesPending w
  /\ socket_effects (trace (ws_onmessage data w)) = socket_effects (trace w).
Proof.
  destruct (ws_onmessage_delta data w)
    as (extra & Ht & Hall & H1 & H2 & H3 & H4 & H5 & H6 & H7 & _).
  repeat (split; [assumption|]).
  assert (Hn : socket_effects extra = []);
    [|rewrite Ht, socket_effects_app, Hn; apply app_nil_r].
  apply socket_effects_none.
  eapply Forall_impl; [|exact Hall]. intros eff Hg.
  destruct eff as [[]| | | | | | | |]; try reflexivity; exfalso; cbn in Hg.
  - discriminate.
  - destruct Hg as [Hg _]. discriminate.
  - destruct Hg as [_ [Hg|[Hg _]]]; discriminate.
  - destruct Hg as [Hg _]. discriminate.
  - destruct Hg as [Hg _]. discriminate.
Qed.

(** X15. Below the target rate the worklet handler fails: on an open
    socket in PCM mode, with a capture rate under 16 kHz, every audio
    block makes the handler throw the resampler's error, and nothing is
    queued, sent or reported. *)
Theorem worklet_onmessage_low_rate_throws (input : list Q) (w : World) :
  is_open w = true -> currentMode w = pcm ->
  (sampleRate w < TARGET_SAMPLE_RATE)%Q ->
  worklet_onmessage (Some input) w
  = Thrown "Downsampling rate should be smaller than original" w.
Proof.
  intros Ho Hm Hr. unfold worklet_onmessage, downsampleBuffer.
  rewrite Ho, Hm. cbn [negb].
  destruct (rates_up _ _ Hr) as [-> ->]. reflexivity.
Qed.

Lemma worklet_onmessage_low_rate_throws_witness :
  worklet_onmessage (Some [1 # 2; 1 # 3]%Q)
    (run [OFFSCREEN_START; readyState_becomes OPEN; onopen] (initial 8000 true))
  = Thrown "Downsampling rate should be smaller than original"
      (run [OFFSCREEN_START; readyState_becomes OPEN; onopen] (initial 8000 true)).
Proof.
  apply (worklet_onmessage_low_rate_throws [1 # 2; 1 # 3]%Q
           (run [OFFSCREEN_START; readyState_becomes OPEN; onopen] (initial 8000 true)));
    reflexivity.
Defined.



(** X17. What a stop does and does not do. [stopAll] leaves no socket,
    no keep-alive timer and no running recorder; it resets neither the
    mode nor the fallback flag nor the pending audio, which the next
    session inherits; and a second stop changes nothing and has no
    effect. *)
Theorem stopAll_idempotent (w : World) :
  stopAll (stopAll w) = stopAll w
  /\ ws (stopAll w) = None
  /\ keepAliveTimer (stopAll w) = false
  /\ mediaRecorder (stopAll w) = false
  /\ currentMode (stopAll w) = currentMode w
  /\ triedOpusFallback (stopAll w) = triedOpusFallback w
  /\ pcmQueue (stopAll w) = pcmQueue w
  /\ pcmBytesPending (stopAll w) = pcmBytesPending w.
Proof.
  unfold stopAll. destruct w as [s b k t m r q p sr os tr].
  destruct s, k, r; cbn; repeat split; reflexivity.
Qed.

(** ** The records posted to the background page *)

Section PostedRecords.

Lemma or_else_truthy (a : option string) (b : string) :
  truthy b = true -> truthy (or_else a b) = true.
Proof.
  intros Hb. unfold or_else. destruct a as [s|]; [|exact Hb].
  destruct (truthy s) eqn:Hs; [exact Hs | exact Hb].
Qed.

Lemma reduce_language_In (o : object) (a : string) (ks : list string) :
  In (reduce_language o a ks) (a :: ks).
Proof.
  unfold reduce_language. revert a. induction ks as [|b ks IH]; intros a.
  - now left.
  - cbn [fold_left]. destruct (count_gt o (Some a) (Some b)).
    + destruct (IH a) as [H|H]; [now left | right; now right].
    + right. apply IH.
Qed.

Lemma insert_index_In (k x : string) (l : list string) :
  In x (insert_index k l) -> x = k \/ In x l.
Proof.
  induction l as [|y l IH]; cbn [insert_index].
  - intros [H|[]]. now left.
  - destruct (index_value k <=? index_value y).
    + intros [H|H]; [now left | now right].
    + intros [H|H]; [right; now left|].
      destruct (IH H) as [H'|H']; [now left | right; now right].
Qed.

(** [Object.keys] lists own keys only. *)
Lemma Object_keys_In (o : object) (k : string) :
  In k (Object_keys o) -> In k (own_keys o).
Proof.
  unfold Object_keys. cbv zeta. rewrite in_app_iff. intros [H|H].
  - revert H. generalize (own_keys o). intros l.
    induction l as [|y l IH]; cbn [filter fold_right]; [tauto|].
    destruct (array_index y); cbn [fold_right].
    + intros H. apply insert_index_In in H as [->|H]; [now left | right; auto].
    + intros H. right. auto.
  - apply filter_In in H. tauto.
Qed.

Lemma language_tags_truthy (ws : list Word) (l : string) :
  In l (language_tags ws) -> truthy l = true.
Proof.
  unfold language_tags. rewrite in_flat_map. intros (word & _ & H).
  destruct (language word) as [l'|]; [|contradiction].
  destruct (truthy l') eqn:E; [|contradiction].
  destruct H as [<-|[]]. exact E.
Qed.

Lemma resolve_language_truthy (alt : Alternative) :
  truthy (snd (resolve_language alt)) = true.
Proof.
  pose proof (resolve_language_cases alt) as H. cbv zeta in H.
  destruct (Object_keys (tally (language_tags (words_of alt)))) as [|first others] eqn:Hk.
  - rewrite H. destruct (languages alt); [|reflexivity].
    cbn [snd]. now apply or_else_truthy.
  - rewrite H. cbn [snd].
    apply (language_tags_truthy (words_of alt)), tally_keys_In, Object_keys_In.
    rewrite Hk. apply reduce_language_In.
Qed.

(** The reported speaker is the unresolved label or the label of a tag
    that some word carries. *)
Lemma resolve_speaker_label (alt : Alternative) :
  resolve_speaker alt = "Unknown Speaker"%string
  \/ exists id, In id (speaker_tags (words_of alt))
                /\ resolve_speaker alt = speaker_label id.
Proof.
  pose proof (resolve_speaker_cases alt) as H. cbv zeta in H.
  destruct (Object_keys (tally (map speaker_label (speaker_tags (words_of alt)))))
    as [|first others] eqn:Hk; [now left|].
  right. rewrite H.
  assert (Hin : In (reduce_language
                      (tally (map speaker_label (speaker_tags (words_of alt))))
                      first others)
                   (map speaker_label (speaker_tags (words_of alt)))).
  { apply tally_keys_In, Object_keys_In. rewrite Hk. apply reduce_language_In. }
  apply in_map_iff in Hin as (id & E & Hid). exists id. now split.
Qed.

Lemma resolve_speaker_truthy (alt : Alternative) :
  truthy (resolve_speaker alt) = true
  /\ resolve_speaker alt <> "Speaker"%string.
Proof.
  destruct (resolve_speaker_label alt) as [->|(id & _ & ->)].
  - split; [reflexivity | discriminate].
  - split; [reflexivity|]. unfold speaker_label. cbn. discriminate.
Qed.

Lemma posts_guarded (P : Utterance -> Prop) (extra : list Effect) :
  Forall (fun eff => match eff with bgPort_postMessage u => P u | _ => True end) extra ->
  Forall P (posts extra).
Proof.
  induction 1 as [|eff extra H _ IH]; [constructor|].
  destruct eff; cbn; auto.
Qed.

Lemma connects_one (e : Effect) :
  connects [e] = match e with runtime_connect => 1%nat | _ => 0%nat end.
Proof. destruct e; reflexivity. Qed.

Lemma posts_one (e : Effect) :
  posts [e] = match e with bgPort_postMessage u => [u] | _ => [] end.
Proof. destruct e; reflexivity. Qed.

Lemma connects_sends (chunks : list (list byte)) : connects (map ws_send chunks) = 0%nat.
Proof. induction chunks as [|c chunks IH]; [reflexivity | exact IH]. Qed.

Lemma posts_sends (chunks : list (list byte)) : posts (map ws_send chunks) = [].
Proof. induction chunks as [|c chunks IH]; [reflexivity | exact IH]. Qed.

Local Arguments connects : simpl never.
Local Arguments posts : simpl never.

Ltac count_ports :=
  cbn; rewrite ?connects_app, ?posts_app, ?connects_one, ?posts_one; cbn;
  rewrite ?app_nil_r.

Lemma port_invariant_emit (w : World) (eff : Effect) :
  match eff with runtime_connect | bgPort_postMessage _ => False | _ => True end ->
  port_invariant w -> port_invariant (emit eff w).
Proof.
  unfold port_invariant. intros He [Hc Hp].
  destruct eff; try contradiction; count_ports; (split; [lia | exact Hp]).
Qed.

Lemma port_invariant_same (w w' : World) :
  bgPort w' = bgPort w -> trace w' = trace w -> port_invariant w -> port_invariant w'.
Proof. unfold port_invariant. intros -> ->. auto. Qed.

Lemma ws_onmessage_port (data : option Message) (w : World) :
  port_invariant w -> port_invariant (ws_onmessage data w).
Proof.
  intros HJ. unfold ws_onmessage. destruct data as [msg|]; [|exact HJ].
  destruct (if is_Results msg then hd_error (alternatives msg) else None) as [alt|].
  - destruct (negb (truthy (or_else (transcript alt) ""))); [exact HJ|].
    destruct (resolve_language alt) as [dl l]. unfold connectBg.
    destruct HJ as [Hc Hp]. unfold port_invariant.
    destruct (bgPort w) eqn:Hbg; cbn; rewrite ?Hbg; count_ports; rewrite ?Hbg;
      (split; [lia | discriminate]).
  - destruct (type msg) as [t|]; [|exact HJ].
    destruct (truthy t && includes (toLowerCase t) "error"); [|exact HJ].
    now apply port_invariant_emit.
Qed.

Lemma step_port (w : World) (e : Event) : port_invariant w -> port_invariant (step w e).
Proof.
  intros HJ. destruct e as [| |r| |data| |code rsn|input|]; cbn [step].
  - unfold openDeepgramPCM.
    apply (port_invariant_same (emit (WebSocket_new pcm) w)); try reflexivity.
    now apply port_invariant_emit.
  - unfold stopAll. destruct w as [s b k t m r q p sr os tr].
    unfold port_invariant in *. cbn in *.
    destruct s, k, r; count_ports; (split; [lia | tauto]).
  - destruct (ws w); [|exact HJ]. now apply (port_invariant_same w).
  - unfold ws_onopen, postStatus.
    apply (port_invariant_same (emit (STATUS_UPDATE "Connected to Deepgram") w));
      try reflexivity.
    now apply port_invariant_emit.
  - now apply ws_onmessage_port.
  - now apply port_invariant_emit.
  - unfold ws_onclose, startOpusFallback, postStatus.
    destruct w as [s b k t m r q p sr os tr].
    unfold port_invariant in *. cbn in *.
    destruct s, k, t, m, r, os; count_ports; (split; [lia | tauto]).
  - destruct (worklet_onmessage_delta input w)
      as (chunks & _ & (_ & Hbg & _) & Ht & _).
    unfold port_invariant in *. rewrite Hbg, Ht, connects_app, posts_app.
    rewrite connects_sends, posts_sends, app_nil_r.
    destruct HJ. split; [lia | assumption].
  - unfold keepAlive_tick. destruct (keepAliveTimer w); [|exact HJ].
    destruct (is_open w); [|exact HJ]. now apply port_invariant_emit.
Qed.

End PostedRecords.

(** X18. Every record posted to the background page is complete: over
    every sequence of events, each record posted has a non-empty text, a
    non-empty speaker other than the bare word Speaker, a non-empty
    language, and the type DG_TRANSCRIPT_FINAL or DG_TRANSCRIPT_INTERIM. *)
Theorem posted_records_are_complete (w : World) (events : list Event) :
  exists posted,
    posts (trace (run events w)) = posts (trace w) ++ posted
    /\ Forall (fun u =>
                 truthy (post_text u) = true
                 /\ truthy (post_speaker u) = true
                 /\ post_speaker u <> "Speaker"%string
                 /\ truthy (post_language u) = true
                 /\ (post_type u = "DG_TRANSCRIPT_FINAL"%string
                     \/ post_type u = "DG_TRANSCRIPT_INTERIM"%string)) posted.
Proof.
  destruct (run_emits (fun _ => True) (fun _ => True)
              (fun eff =>
                 match eff with
                 | bgPort_postMessage u =>
                     truthy (post_text u) = true
                     /\ truthy (post_speaker u) = true
                     /\ post_speaker u <> "Speaker"%string
                     /\ truthy (post_language u) = true
                     /\ (post_type u = "DG_TRANSCRIPT_FINAL"%string
                         \/ post_type u = "DG_TRANSCRIPT_INTERIM"%string)
                 | _ => True
                 end)) with (events := events) (w := w)
    as (_ & extra & Ht & Hall); auto.
  - intros w0 e eff _ _ Hg. destruct eff; auto.
    destruct Hg as (msg & alt & _ & _ & _ & _ & Htext & -> & -> & ->).
    destruct (resolve_speaker_truthy alt) as [Hs Hne].
    repeat split; auto using resolve_language_truthy.
    destruct (is_final msg); auto.
  - apply Forall_forall. auto.
  - exists (posts extra). rewrite Ht, posts_app. split; [reflexivity|].
    now apply posts_guarded.
Qed.

(** X19. The port to the background page is opened lazily and once:
    in every state a document reaches, at most one port has been
    opened, and if a record has been posted, the port was opened. *)
Theorem background_port_opened_once (rate : Q) (supported : bool) (events : list Event) :
  (connects (trace (run events (initial rate supported))) <= 1)%nat
  /\ (posts (trace (run events (initial rate supported))) <> [] ->
      connects (trace (run events (initial rate supported))) = 1%nat
      /\ bgPort (run events (initial rate supported)) = true).
Proof.
  assert (HJ : port_invariant (run events (initial rate supported))).
  { assert (H0 : port_invariant (initial rate supported)) by (split; reflexivity).
    revert H0. generalize (initial rate supported).
    induction events as [|e events IH]; intros w Hw; [exact Hw|].
    unfold run in *. cbn [fold_left]. apply IH. now apply step_port. }
  destruct HJ as [Hc Hp].
  destruct (bgPort (run events (initial rate supported))).
  - split; [lia|]. intros _. now split.
  - split; [lia|]. intros Hposts. exfalso. apply Hposts. now apply Hp.
Qed.

(** ** The content script: who is speaking *)

Import Content.

Section SpeakerDetection.

Lemma Map_get_In (m : Tracks) (k : string) (info : TrackInfo) :
  Map_get m k = Some info -> In (k, info) m.
Proof.
  induction m as [|[k' v] m IH]; cbn [Map_get]; [discriminate|].
  destruct (String.eqb k k') eqn:E.
  - apply String.eqb_eq in E. intros [= ->]. subst. now left.
  - intros H. right. auto.
Qed.

Lemma Map_keys_In (m : Tracks) (k : string) (info : TrackInfo) :
  In (k, info) m -> In k (Map_keys m).
Proof. intros H. unfold Map_keys. apply in_map_iff. now exists (k, info). Qed.

(** A map holds one entry per key. *)
Lemma Map_entry_unique (m : Tracks) (k : string) (i i' : TrackInfo) :
  NoDup (Map_keys m) -> In (k, i) m -> In (k, i') m -> i = i'.
Proof.
  induction m as [|[k0 i0] m IH]; [intros _ []|].
  cbn [Map_keys map fst]. intros Hnd. apply NoDup_cons_iff in Hnd as [Hnot Hnd].
  intros [E|Hin] [E'|Hin'].
  - congruence.
  - exfalso. apply Hnot. injection E as -> _. eapply Map_keys_In. exact Hin'.
  - exfalso. apply Hnot. injection E' as -> _. eapply Map_keys_In. exact Hin.
  - now apply IH.
Qed.

Lemma Qlt_bool_true (x y : Q) : Qlt_bool x y = true <-> (x < y)%Q.
Proof.
  unfold Qlt_bool. rewrite negb_true_iff. split.
  - intros H. destruct (Qlt_le_dec x y) as [Hlt|Hle]; [exact Hlt|].
    apply Qle_bool_iff in Hle. congruence.
  - intros H. destruct (Qle_bool y x) eqn:E; [|reflexivity].
    apply Qle_bool_iff in E. lra.
Qed.

(** The loop that looks for the loudest active track either keeps its
    state, no active track being louder than [maxVolume], or ends on
    the first of the loudest active tracks. *)
Lemma loudest_spec (m : Tracks) (maxVolume : Q) (loudestSpeaker : option string) :
  (fold_left loudest_step m (maxVolume, loudestSpeaker) = (maxVolume, loudestSpeaker)
   /\ forall k i, In (k, i) m -> isActive i = true -> (volume i <= maxVolume)%Q)
  \/ (exists before k info after,
        m = before ++ (k, info) :: after
        /\ fold_left loudest_step m (maxVolume, loudestSpeaker) = (volume info, Some k)
        /\ isActive info = true
        /\ (maxVolume < volume info)%Q
        /\ (forall k' i', In (k', i') before -> isActive i' = true ->
              (volume i' < volume info)%Q)
        /\ (forall k' i', In (k', i') after -> isActive i' = true ->
              (volume i' <= volume info)%Q)).
Proof.
  revert maxVolume loudestSpeaker.
  induction m as [|[k i] m IH]; intros maxVolume loudestSpeaker.
  - left. split; [reflexivity|]. intros k i [].
  - cbn [fold_left loudest_step].
    destruct (isActive i && Qlt_bool maxVolume (volume i)) eqn:E.
    + apply andb_prop in E as [Ha Hv]. apply Qlt_bool_true in Hv.
      right. destruct (IH (volume i) (Some k))
        as [[Hrun Hall]|(before & k2 & i2 & after & -> & Hrun & Ha2 & Hv2 & Hb & Haf)].
      * exists [], k, i, m. repeat split; auto. intros k' i' [].
      * exists ((k, i) :: before), k2, i2, after.
        split; [reflexivity|]. split; [exact Hrun|]. split; [exact Ha2|].
        split; [lra|]. split; [|exact Haf].
        intros k' i' [[= <- <-]|Hin] Hact; [exact Hv2 | now apply (Hb k')].
    + assert (Hhead : isActive i = true -> (volume i <= maxVolume)%Q).
      { intros Ha. rewrite Ha in E. cbn in E.
        destruct (Qlt_le_dec maxVolume (volume i)) as [Hlt|Hle]; [|exact Hle].
        apply Qlt_bool_true in Hlt. congruence. }
      destruct (IH maxVolume loudestSpeaker)
        as [[Hrun Hall]|(before & k2 & i2 & after & -> & Hrun & Ha2 & Hv2 & Hb & Haf)].
      * left. split; [exact Hrun|].
        intros k' i' [[= <- <-]|Hin] Hact; [now apply Hhead | now apply (Hall k')].
      * right. exists ((k, i) :: before), k2, i2, after.
        split; [reflexivity|]. split; [exact Hrun|]. split; [exact Ha2|].
        split; [exact Hv2|]. split; [|exact Haf].
        intros k' i' [[= <- <-]|Hin] Hact; [|now apply (Hb k')].
        specialize (Hhead Hact). lra.
Qed.

(** The two ways [getCurrentSpeaker] answers. *)
Lemma getCurrentSpeaker_cases (now : Z) (d : Detector) :
  (exists c info,
     currentSpeaker d = Some c /\ truthy c = true
     /\ Map_get (participantTracks d) c = Some info
     /\ (isActive info = true \/ now - lastActivity info < 2000)
     /\ getCurrentSpeaker now d = Some c)
  \/ ((forall c info,
         currentSpeaker d = Some c -> truthy c = true ->
         Map_get (participantTracks d) c = Some info ->
         isActive info = false /\ 2000 <= now - lastActivity info)
      /\ getCurrentSpeaker now d
         = snd (fold_left loudest_step (participantTracks d) (0%Q, None))).
Proof.
  unfold getCurrentSpeaker. cbv zeta.
  destruct (currentSpeaker d) as [c|] eqn:Hc.
  2: { right. split; [intros c info [=]|reflexivity]. }
  destruct (truthy c) eqn:Ht.
  2: { right. split; [|reflexivity]. intros c' info [= <-]. congruence. }
  destruct (Map_get (participantTracks d) c) as [info|] eqn:Hg.
  2: { right. split; [|reflexivity]. intros c' info [= <-] _. congruence. }
  destruct (isActive info || (now - lastActivity info <? 2000)) eqn:E.
  - left. exists c, info. repeat split; auto.
    apply orb_prop in E as [E|E]; [now left | right; now apply Z.ltb_lt].
  - right. split; [|reflexivity].
    intros c' info' [= <-] _ Hg'. rewrite Hg in Hg'. injection Hg' as <-.
    apply orb_false_elim in E as [E1 E2]. apply Z.ltb_ge in E2. now split.
Qed.

Lemma getCurrentSpeaker_tracked (now : Z) (d : Detector) (k : string) :
  getCurrentSpeaker now d = Some k ->
  exists info, In (k, info) (participantTracks d).
Proof.
  destruct (getCurrentSpeaker_cases now d)
    as [(c & info & _ & _ & Hg & _ & ->)|[_ ->]].
  - intros [= <-]. exists info. now apply Map_get_In.
  - destruct (loudest_spec (participantTracks d) 0 None)
      as [[-> _]|(before & k2 & i2 & after & Hm & -> & _)]; cbn [snd]; [discriminate|].
    intros [= <-]. exists i2. rewrite Hm. apply in_or_app. right. now left.
Qed.

Lemma indexOf_In (arr : list string) (x : string) :
  In x arr ->
  0 <= indexOf arr x < len arr
  /\ nth_error arr (Z.to_nat (indexOf arr x)) = Some x.
Proof.
  induction arr as [|y arr IH]; [intros []|].
  intros Hin. cbn [indexOf]. rewrite len_cons.
  destruct (String.eqb y x) eqn:E.
  - apply String.eqb_eq in E. subst. pose proof (len_nonneg arr).
    split; [lia | reflexivity].
  - destruct Hin as [->|Hin]; [rewrite String.eqb_refl in E; discriminate|].
    destruct (IH Hin) as [Hr Hn]. cbv zeta.
    replace (indexOf arr x <? 0) with false by (symmetry; apply Z.ltb_ge; lia).
    split; [lia|].
    replace (Z.to_nat (indexOf arr x + 1)) with (S (Z.to_nat (indexOf arr x))) by lia.
    exact Hn.
Qed.

Lemma filter_filter {A} (f g : A -> bool) (l : list A) :
  filter f (filter g l) = filter (fun x => g x && f x) l.
Proof.
  induction l as [|x l IH]; [reflexivity|]. cbn [filter].
  destruct (g x); cbn [filter andb]; [destruct (f x)|]; now rewrite IH.
Qed.

Lemma Map_delete_filter (m : Tracks) (k : string) :
  NoDup (Map_keys m) ->
  Map_delete m k = filter (fun entry => negb (String.eqb k (fst entry))) m.
Proof.
  induction m as [|[k' v] m IH]; [reflexivity|].
  cbn [Map_keys map fst]. intros Hnd. apply NoDup_cons_iff in Hnd as [Hnot Hnd].
  cbn [Map_delete filter fst]. destruct (String.eqb k k') eqn:E; cbn [negb].
  - apply String.eqb_eq in E. subst k'.
    symmetry. apply forallb_filter_id. apply forallb_forall. intros [k2 v2] Hin.
    cbn [fst]. apply negb_true_iff, String.eqb_neq. intros ->.
    apply Hnot. eapply Map_keys_In. exact Hin.
  - f_equal. now apply IH.
Qed.

Lemma Map_keys_filter_NoDup (f : string * TrackInfo -> bool) (m : Tracks) :
  NoDup (Map_keys m) -> NoDup (Map_keys (filter f m)).
Proof.
  induction m as [|[k v] m IH]; [auto|].
  cbn [Map_keys map fst]. intros Hnd. apply NoDup_cons_iff in Hnd as [Hnot Hnd].
  cbn [filter]. destruct (f (k, v)); [|now apply IH].
  cbn [Map_keys map fst]. apply NoDup_cons; [|now apply IH].
  intros Hin. apply Hnot. unfold Map_keys in *.
  apply in_map_iff in Hin as (e & He & Hin). apply filter_In in Hin as [Hin _].
  apply in_map_iff. now exists e.
Qed.

(** The loop of [cleanupRemovedTracks] over the entries [visited]
    removes from [m] the keys under which [visited] has an ended track. *)
Lemma cleanup_loop_filter (visited m : Tracks) :
  NoDup (Map_keys m) ->
  fold_left (fun m entry => if ended (snd entry) then Map_delete m (fst entry) else m)
            visited m
  = filter (fun entry =>
              negb (existsb (fun v => ended (snd v) && String.eqb (fst v) (fst entry))
                            visited)) m.
Proof.
  revert m. induction visited as [|[k i] visited IH]; intros m Hnd.
  - cbn. symmetry. apply forallb_filter_id. apply forallb_forall. reflexivity.
  - cbn [fold_left snd fst existsb].
    destruct (ended i) eqn:He; cbn [andb].
    + rewrite IH by (rewrite Map_delete_filter by exact Hnd;
                     now apply Map_keys_filter_NoDup).
      rewrite Map_delete_filter by exact Hnd. rewrite filter_filter.
      apply filter_ext. intros [k' i']. cbn [fst]. now rewrite negb_orb.
    + now apply IH.
Qed.

End SpeakerDetection.

(** X20. Whom [getCurrentSpeaker] names. When the current speaker is a
    track of the map that is active or was last active less than two
    seconds ago, it is the answer. When it is not (there is none, it
    has left the map, or it has been inactive for two seconds or more),
    the answer is the loudest active track of positive volume, the
    first in insertion order when several are equally loud, and nobody
    when no active track has a positive volume. *)
Theorem getCurrentSpeaker_choice (now : Z) (d : Detector) :
  (forall c info,
     currentSpeaker d = Some c -> truthy c = true ->
     Map_get (participantTracks d) c = Some info ->
     isActive info = true \/ now - lastActivity info < 2000 ->
     getCurrentSpeaker now d = Some c)
  /\ ((forall c info,
         currentSpeaker d = Some c -> truthy c = true ->
         Map_get (participantTracks d) c = Some info ->
         isActive info = false /\ 2000 <= now - lastActivity info) ->
      match getCurrentSpeaker now d with
      | Some k =>
          exists before info after,
            participantTracks d = before ++ (k, info) :: after
            /\ isActive info = true
            /\ (0 < volume info)%Q
            /\ (forall k' i', In (k', i') before -> isActive i' = true ->
                  (volume i' < volume info)%Q)
            /\ (forall k' i', In (k', i') after -> isActive i' = true ->
                  (volume i' <= volume info)%Q)
      | None =>
          forall k i, In (k, i) (participantTracks d) -> isActive i = true ->
                      (volume i <= 0)%Q
      end).
Proof.
  split.
  - intros c info Hc Ht Hg Hfresh.
    destruct (getCurrentSpeaker_cases now d)
      as [(c' & info' & Hc' & _ & _ & _ & ->)|[Hstale _]]; [congruence|].
    destruct (Hstale c info Hc Ht Hg) as [Hinactive Hold].
    destruct Hfresh as [Hactive|Hrecent]; [congruence | lia].
  - intros Hstale.
    destruct (getCurrentSpeaker_cases now d)
      as [(c & info & Hc & Ht & Hg & Hfresh & _)|[_ ->]].
    + destruct (Hstale c info Hc Ht Hg) as [Hinactive Hold].
      destruct Hfresh as [Hactive|Hrecent]; [congruence | lia].
    + destruct (loudest_spec (participantTracks d) 0 None)
        as [[-> Hall]|(before & k2 & i2 & after & Hm & -> & Ha & Hv & Hb & Haf)];
        cbn [snd].
      * exact Hall.
      * exists before, i2, after. auto.
Qed.

Lemma getCurrentSpeaker_choice_witness :
  getCurrentSpeaker 10000 three_tracks = Some "b"%string
  /\ exists before info after,
       participantTracks (cleanupRemovedTracks three_tracks)
       = before ++ ("c"%string, info) :: after
       /\ isActive info = true
       /\ (0 < volume info)%Q.
Proof.
  split.
  - apply (getCurrentSpeaker_choice 10000 three_tracks) with (info := track true true (3 # 4) 9000);
      try reflexivity. left. reflexivity.
  - destruct (getCurrentSpeaker_choice 10000 (cleanupRemovedTracks three_tracks))
      as [_ H].
    assert (Hstale : forall c info,
              currentSpeaker (cleanupRemovedTracks three_tracks) = Some c ->
              truthy c = true ->
              Map_get (participantTracks (cleanupRemovedTracks three_tracks)) c
              = Some info ->
              isActive info = false /\ 2000 <= 10000 - lastActivity info).
    { intros c info [= <-] _ Hg. vm_compute in Hg. discriminate. }
    specialize (H Hstale).
    change (getCurrentSpeaker 10000 (cleanupRemovedTracks three_tracks))
      with (Some "c"%string) in H.
    destruct H as (before & info & after & H1 & H2 & H3 & _).
    exists before, info, after. auto.
Defined.

(** X21. The label of a final transcript. When the speaker detection
    names a track, the label is Speaker [n], where [n] counts from one
    the position of that track in the map: never Speaker 0, and never
    beyond the number of tracks. When it names nobody, the label is the
    speaker of the message, or the word Speaker when the message has
    none: the later branch that looks at the message again changes
    nothing. *)
Theorem final_speaker_label (msg_speaker : option string) (now : Z) (d : Detector) :
  (forall k, getCurrentSpeaker now d = Some k -> truthy k = true ->
     exists n,
       1 <= n <= len (participantTracks d)
       /\ final_speaker msg_speaker now d = ("Speaker " ++ string_of_Z n)%string
       /\ nth_error (Map_keys (participantTracks d)) (Z.to_nat (n - 1)) = Some k)
  /\ (getCurrentSpeaker now d = None ->
      final_speaker msg_speaker now d = or_else msg_speaker "Speaker").
Proof.
  split.
  - intros k Hk Ht. unfold final_speaker. cbv zeta. rewrite Hk, Ht.
    destruct (getCurrentSpeaker_tracked now d k Hk) as (info & Hin).
    destruct (indexOf_In (Map_keys (participantTracks d)) k
                (Map_keys_In _ _ _ Hin)) as [Hr Hn].
    exists (indexOf (Map_keys (participantTracks d)) k + 1).
    assert (Hlen : len (Map_keys (participantTracks d)) = len (participantTracks d))
      by (unfold len, Map_keys; now rewrite length_map).
    split; [lia|]. split; [reflexivity|].
    replace (indexOf (Map_keys (participantTracks d)) k + 1 - 1)
      with (indexOf (Map_keys (participantTracks d)) k) by lia.
    exact Hn.
  - intros Hnone. unfold final_speaker. cbv zeta. rewrite Hnone.
    destruct msg_speaker as [s|]; [|reflexivity].
    destruct (truthy s) eqn:Ht; cbn [andb]; [|reflexivity].
    destruct (negb (String.eqb s "Speaker")); [|reflexivity].
    unfold or_else. now rewrite Ht.
Qed.

Lemma final_speaker_label_witness :
  (exists n,
     1 <= n <= len (participantTracks three_tracks)
     /\ final_speaker (Some "Speaker 7"%string) 10000 three_tracks
        = ("Speaker " ++ string_of_Z n)%string
     /\ nth_error (Map_keys (participantTracks three_tracks)) (Z.to_nat (n - 1))
        = Some "b"%string)
  /\ final_speaker (Some "Speaker 7"%string) 10000
       {| participantTracks := []; currentSpeaker := Some "b"%string |}
     = or_else (Some "Speaker 7"%string) "Speaker".
Proof.
  split.
  - apply (final_speaker_label (Some "Speaker 7"%string) 10000 three_tracks);
      reflexivity.
  - apply (final_speaker_label (Some "Speaker 7"%string) 10000
             {| participantTracks := []; currentSpeaker := Some "b"%string |}).
    reflexivity.
Defined.

(** X22. [cleanupRemovedTracks] removes exactly the tracks that have
    ended, keeps the others in their order and leaves [currentSpeaker]
    alone, even when it names a removed track; still, after the cleanup
    [getCurrentSpeaker] never names an ended track. *)
Theorem cleanupRemovedTracks_removes_the_ended (now : Z) (d : Detector) :
  NoDup (Map_keys (participantTracks d)) ->
  participantTracks (cleanupRemovedTracks d)
  = filter (fun entry => negb (ended (snd entry))) (participantTracks d)
  /\ currentSpeaker (cleanupRemovedTracks d) = currentSpeaker d
  /\ forall k, getCurrentSpeaker now (cleanupRemovedTracks d) = Some k ->
       exists info, In (k, info) (participantTracks d) /\ ended info = false.
Proof.
  intros Hnd.
  assert (Hclean : participantTracks (cleanupRemovedTracks d)
                   = filter (fun entry => negb (ended (snd entry))) (participantTracks d)).
  { unfold cleanupRemovedTracks. cbn [participantTracks].
    rewrite cleanup_loop_filter by exact Hnd.
    apply filter_ext_in. intros [k i] Hin. cbn [fst snd]. f_equal.
    destruct (ended i) eqn:He.
    - apply existsb_exists. exists (k, i). cbn [fst snd].
      now rewrite He, String.eqb_refl.
    - destruct (existsb _ _) eqn:Hex; [|reflexivity].
      apply existsb_exists in Hex as ([k' i'] & Hin' & Hk). cbn [fst snd] in Hk.
      apply andb_prop in Hk as [He' Hk]. apply String.eqb_eq in Hk. subst k'.
      rewrite (Map_entry_unique _ _ _ _ Hnd Hin' Hin) in He'. congruence. }
  split; [exact Hclean|]. split; [reflexivity|].
  intros k Hk. destruct (getCurrentSpeaker_tracked _ _ _ Hk) as (info & Hin).
  rewrite Hclean in Hin. apply filter_In in Hin as [Hin He]. cbn [snd] in He.
  exists info. split; [exact Hin | now apply negb_true_iff].
Qed.

Lemma cleanupRemovedTracks_removes_the_ended_witness :
  Map_keys (participantTracks (cleanupRemovedTracks three_tracks)) = ["a"; "c"]%string
  /\ currentSpeaker (cleanupRemovedTracks three_tracks) = Some "b"%string
  /\ exists info,
       In ("c"%string, info) (participantTracks three_tracks) /\ ended info = false.
Proof.
  destruct (cleanupRemovedTracks_removes_the_ended 10000 three_tracks)
    as (Hclean & Hcurrent & Hnames).
  - repeat constructor; simpl; intuition discriminate.
  - split; [rewrite Hclean; reflexivity|]. split; [exact Hcurrent|].
    apply Hnames. reflexivity.
Defined.

(** ** The content script: how the transcript is grouped *)

Section Grouping.

Lemma append_assoc (a b c : string) : ((a ++ b) ++ c = a ++ (b ++ c))%string.
Proof. induction a as [|x a IH]; [reflexivity|]. cbn. now rewrite IH. Qed.

Lemma join_cons (t : string) (texts : list string) :
  texts <> [] -> join (t :: texts) = (t ++ " " ++ join texts)%string.
Proof. intros H. destruct texts; [now contradiction H | reflexivity]. Qed.

Lemma join_snoc (texts : list string) (t : string) :
  texts <> [] -> join (texts ++ [t]) = (join texts ++ " " ++ t)%string.
Proof.
  induction texts as [|x texts IH]; [intros H; now contradiction H|]. intros _.
  destruct texts as [|y texts]; [reflexivity|].
  change ((x :: y :: texts) ++ [t]) with (x :: ((y :: texts) ++ [t])).
  rewrite join_cons by (cbn; discriminate).
  rewrite IH by discriminate.
  rewrite (join_cons x (y :: texts)) by discriminate.
  now rewrite !append_assoc.
Qed.

(** Joining is not changed by joining two neighbours first. *)
Lemma join_merge (before : list string) (a b : string) (after : list string) :
  join (before ++ (a ++ " " ++ b)%string :: after) = join (before ++ a :: b :: after).
Proof.
  induction before as [|x before IH].
  - cbn [app]. destruct after as [|y after]; [reflexivity|].
    rewrite !join_cons by discriminate. now rewrite !append_assoc.
  - cbn [app]. rewrite !join_cons by (destruct before; discriminate). now rewrite IH.
Qed.

Lemma group_loop_texts (rest : list Segment) (groups : list Group) (currentGroup : Group) :
  join (map group_text (group_loop groups currentGroup rest))
  = join (map group_text groups ++ group_text currentGroup :: map text rest).
Proof.
  revert groups currentGroup.
  induction rest as [|segment rest IH]; intros groups currentGroup.
  - cbn [group_loop map]. now rewrite map_app.
  - cbn [group_loop map]. cbv zeta.
    destruct (String.eqb (speaker segment) (group_speaker currentGroup)
              && (timestamp segment - lastTimestamp currentGroup <? 5000)).
    + rewrite IH. cbn [group_text]. apply join_merge.
    + rewrite IH. cbn [group_text]. rewrite map_app. cbn [map].
      now rewrite <- app_assoc.
Qed.

Lemma last_cons {A} (x d : A) (l : list A) : last (x :: l) d = last l x.
Proof.
  revert x d. induction l as [|y l IH]; intros x d; [reflexivity|].
  change (last (x :: y :: l) d) with (last (y :: l) d). now rewrite !IH.
Qed.

Lemma chained_speaker (s : Segment) (l : list Segment) :
  chained (s :: l) -> speaker (last l s) = speaker s.
Proof.
  revert s. induction l as [|s2 l IH]; intros s H; [reflexivity|].
  destruct H as [[Hs _] H]. specialize (IH s2 H).
  rewrite last_cons. congruence.
Qed.

Lemma chained_snoc (s : Segment) (l : list Segment) (next : Segment) :
  chained (s :: l) -> continues (last l s) next -> chained (s :: l ++ [next]).
Proof.
  revert s. induction l as [|s2 l IH]; intros s H Hc.
  - cbn. auto.
  - destruct H as [H12 H]. split; [exact H12|].
    apply IH; [exact H|]. now rewrite last_cons in Hc.
Qed.

Lemma separated_last (blocks : list Block) (b b' : Block) :
  fst b' = fst b -> separated (blocks ++ [b]) -> separated (blocks ++ [b']).
Proof.
  intros Hf. induction blocks as [|b1 blocks IH]; [cbn; auto|].
  destruct blocks as [|b2 blocks].
  - cbn. rewrite Hf. auto.
  - intros [H12 H]. split; [exact H12 | now apply IH].
Qed.

Lemma separated_snoc (blocks : list Block) (b next : Block) :
  separated (blocks ++ [b]) -> ~ continues (block_last b) (fst next) ->
  separated ((blocks ++ [b]) ++ [next]).
Proof.
  intros H Hn. induction blocks as [|b1 blocks IH]; [cbn; auto|].
  destruct blocks as [|b2 blocks].
  - destruct H as [H12 _]. cbn. auto.
  - destruct H as [H12 H]. split; [exact H12 | now apply IH].
Qed.

(** The loop, entered with the groups of the blocks closed so far and
    the group of the block that is still open, ends with the groups of
    a division of all segments into separated blocks. *)
Lemma group_loop_blocks (rest : list Segment) (groups : list Group) (currentGroup : Group)
      (blocks : list Block) (b : Block) :
  Forall2 shows groups blocks -> shows currentGroup b -> separated (blocks ++ [b]) ->
  exists blocks',
    Forall2 shows (group_loop groups currentGroup rest) blocks'
    /\ concat (map block_segments blocks')
       = concat (map block_segments (blocks ++ [b])) ++ rest
    /\ separated blocks'.
Proof.
  revert groups currentGroup blocks b.
  induction rest as [|segment rest IH]; intros groups currentGroup blocks b Hg Hc Hs.
  - exists (blocks ++ [b]). cbn [group_loop]. split; [|split].
    + apply Forall2_app; [exact Hg | constructor; [exact Hc | constructor]].
    + now rewrite app_nil_r.
    + exact Hs.
  - cbn [group_loop]. cbv zeta.
    destruct Hc as (Hch & Hsp & Htx & Hts). destruct b as [s l].
    unfold block_segments, block_last in *. cbn [fst snd] in *.
    pose proof (chained_speaker s l Hch) as Hlast.
    destruct (String.eqb (speaker segment) (group_speaker currentGroup)
              && (timestamp segment - lastTimestamp currentGroup <? 5000)) eqn:E.
    + apply andb_prop in E as [E1 E2].
      apply String.eqb_eq in E1. apply Z.ltb_lt in E2.
      assert (Hcont : continues (last l s) segment)
        by (split; [congruence | rewrite <- Hts; exact E2]).
      destruct (IH groups
                   {| group_speaker := group_speaker currentGroup;
                      group_text := (group_text currentGroup ++ " " ++ text segment)%string;
                      lastTimestamp := timestamp segment |}
                   blocks (s, l ++ [segment])) as (blocks' & H1 & H2 & H3).
      * exact Hg.
      * unfold shows, block_segments, block_last. cbn [fst snd group_speaker
          group_text lastTimestamp].
        split; [now apply chained_snoc|]. split; [exact Hsp|]. split.
        -- change (s :: l ++ [segment]) with ((s :: l) ++ [segment]).
           rewrite map_app. cbn [map]. rewrite join_snoc by discriminate.
           now rewrite Htx.
        -- now rewrite last_last.
      * now apply (separated_last blocks (s, l)).
      * exists blocks'. split; [exact H1|]. split; [|exact H3].
        rewrite H2, !map_app, !concat_app. cbn [map concat block_segments fst snd].
        rewrite !app_nil_r, <- !app_assoc. cbn [app]. now rewrite <- app_assoc.
    + assert (Hcont : ~ continues (last l s) segment).
      { intros [C1 C2]. apply andb_false_iff in E as [E|E].
        - apply String.eqb_neq in E. congruence.
        - apply Z.ltb_ge in E. rewrite Hts in E. lia. }
      destruct (IH (groups ++ [currentGroup])
                   {| group_speaker := speaker segment;
                      group_text := text segment;
                      lastTimestamp := timestamp segment |}
                   (blocks ++ [(s, l)]) (segment, [])) as (blocks' & H1 & H2 & H3).
      * apply Forall2_app; [exact Hg|]. constructor; [|constructor].
        unfold shows, block_segments, block_last. cbn [fst snd]. auto.
      * unfold shows, block_segments, block_last. cbn. auto.
      * now apply separated_snoc.
      * exists blocks'. split; [exact H1|]. split; [|exact H3].
        rewrite H2, !map_app, !concat_app. cbn [map concat block_segments fst snd].
        rewrite !app_nil_r, <- !app_assoc. reflexivity.
Qed.

End Grouping.

Example groupSegmentsBySpeaker_four_segments :
  groupSegmentsBySpeaker four_segments
  = [{| group_speaker := "Speaker 1"; group_text := "hello there"; lastTimestamp := 3000 |};
     {| group_speaker := "Speaker 2"; group_text := "hi"; lastTimestamp := 4000 |};
     {| group_speaker := "Speaker 2"; group_text := "again"; lastTimestamp := 12000 |}].
Proof. reflexivity. Qed.

(** X23. Grouping loses no text: the texts of the groups, joined by
    single spaces, are the texts of the segments joined by single
    spaces, in the same order. *)
Theorem groupSegmentsBySpeaker_keeps_the_text (segments : list Segment) :
  join (map group_text (groupSegmentsBySpeaker segments)) = join (map text segments).
Proof.
  destruct segments as [|first rest]; [reflexivity|].
  unfold groupSegmentsBySpeaker. rewrite group_loop_texts. reflexivity.
Qed.

(** X24. What a group is. [groupSegmentsBySpeaker] cuts the list of
    segments into consecutive non-empty blocks, one group per block in
    the same order: inside a block every segment has the speaker of the
    one before it and comes less than five seconds after it (so a group
    can span any length of time), and no block could have taken the
    first segment of the next; the group carries the speaker of the
    block, its texts joined by spaces and the timestamp of its last
    segment. No segments give no groups. *)
Theorem groupSegmentsBySpeaker_blocks (segments : list Segment) :
  exists blocks,
    Forall2 shows (groupSegmentsBySpeaker segments) blocks
    /\ concat (map block_segments blocks) = segments
    /\ separated blocks
    /\ (segments = [] -> groupSegmentsBySpeaker segments = []).
Proof.
  destruct segments as [|first rest].
  - exists []. repeat split; constructor.
  - unfold groupSegmentsBySpeaker.
    destruct (group_loop_blocks rest []
                {| group_speaker := speaker first; group_text := text first;
                   lastTimestamp := timestamp first |} [] (first, []))
      as (blocks & H1 & H2 & H3).
    + constructor.
    + unfold shows, block_segments, block_last. cbn. auto.
    + exact I.
    + exists blocks. split; [exact H1|]. split; [exact H2|]. split; [exact H3|].
      discriminate.
Qed.

(** X25. The defaults of the content script are dead for what the
    reconciler sends: for the speaker and the language that
    [ws.onmessage] puts in a record, relayed as they are, the content
    script shows that very speaker whenever its own detection names
    nobody, and passes that very language to the translation; the
    words Speaker and auto are never used. *)
Theorem reconciled_record_needs_no_default (alt : Alternative) (now : Z) (d : Detector) :
  (getCurrentSpeaker now d = None ->
   final_speaker (Some (resolve_speaker alt)) now d = resolve_speaker alt)
  /\ sourceLanguage (Some (snd (resolve_language alt))) = snd (resolve_language alt).
Proof.
  split.
  - intros Hnone. unfold final_speaker. cbv zeta. rewrite Hnone.
    destruct (resolve_speaker_truthy alt) as [Ht Hne].
    rewrite Ht. apply String.eqb_neq in Hne. rewrite Hne. reflexivity.
  - unfold sourceLanguage, or_else. now rewrite resolve_language_truthy.
Qed.

Lemma reconciled_record_needs_no_default_witness :
  final_speaker
    (Some (resolve_speaker (alternative_of (Some [word_of_speaker 2]) None)))
    10000 {| participantTracks := []; currentSpeaker := None |}
  = resolve_speaker (alternative_of (Some [word_of_speaker 2]) None).
Proof.
  apply (reconciled_record_needs_no_default
           (alternative_of (Some [word_of_speaker 2]) None)
           10000 {| participantTracks := []; currentSpeaker := None |}).
  reflexivity.
Defined.
